(** * image-web-resize: responsive image sets and their content-addressed cache

    A shallow embedding of the orchestration code ([processImageRequest],
    [transformSingleImage]) and of the two key-value stores
    ([RuntimeStringKeyValueStore], [StorageStringKeyValueStore]), with the
    properties the specification states about them.

    Numbers.  A JavaScript [number] is modelled by an exact rational [Q];
    widths produced by [Math.round] are integers [Z].  The development never
    relies on a property of binary rounding. *)

From Stdlib Require Import ZArith QArith Qround String Ascii List Lia.
From Stdlib Require Import Sorting.Sorted.
From stdpp Require Import base list gmap strings pretty.

Set Warnings "-register-all".

(** ** Size consolidation (processImageRequest, lines 30-57) *)

Module Sizes.

(** [ImageBreakpoint] of types.ts: [maxWidth] is [number | null]. *)
Record ImageBreakpoint := {
  maxWidth : option Q;
  imageWidth : Q;
}.

(** [SizeSpec]: [width] is the original target width, [actualWidth] the
    width that is really rendered (after consolidation). *)
Record SizeSpec := {
  density : Q;
  width : Q;
  actualWidth : Z;
}.

(** [Math.round]: nearest integer, a tie goes up. *)
Definition Math_round (x : Q) : Z := Qfloor (x + (1 # 2)).

(** The rendering of one number inside the template literal
    [`${width}@${density}`].  Two numbers print the same text exactly when
    they are equal, so the text is modelled by the reduced fraction. *)
Definition render (q : Q) : Z * positive := (Qnum (Qred q), Qden (Qred q)).

Definition sizeSpecKey (width density : Q) : (Z * positive) * (Z * positive) :=
  (render width, render density).

(** The two nested [for] loops that fill [allSizes]. *)
Definition allSizes (breakpoints : list ImageBreakpoint) (pixelDensities : list Q)
  : list SizeSpec :=
  flat_map (fun bp =>
    map (fun d => {| density := d;
                     width := imageWidth bp;
                     actualWidth := Math_round (imageWidth bp * d) |})
        pixelDensities)
    breakpoints.

(** [allSizes.sort((a, b) => b - a)] on [actualWidth]: descending and stable
    (Array.prototype.sort is stable), so the result is the one a stable
    insertion sort gives: an element goes behind every element that is not
    smaller. *)
Fixpoint insert_desc (x : SizeSpec) (l : list SizeSpec) : list SizeSpec :=
  match l with
  | [] => [x]
  | y :: l' =>
      if (actualWidth y <? actualWidth x)%Z then x :: y :: l'
      else y :: insert_desc x l'
  end.

Definition sort_desc (l : list SizeSpec) : list SizeSpec :=
  fold_left (fun acc x => insert_desc x acc) l [].

(** The state of the consolidation loop: [lastUsedSize] and the record
    [consolidatedSizes]. *)
Abbreviation SizeMap := (gmap ((Z * positive) * (Z * positive)) SizeSpec).

(** [lastUsedSize.actualWidth * request.sizeThreshold <= size.actualWidth] *)
Definition absorbs (sizeThreshold : Q) (lastUsedSize size : SizeSpec) : bool :=
  Qle_bool (inject_Z (actualWidth lastUsedSize) * sizeThreshold)
           (inject_Z (actualWidth size)).

(** One iteration of [for (let size of allSizes)]. *)
Definition consolidate_step (sizeThreshold : Q)
    (st : option SizeSpec * SizeMap) (size : SizeSpec)
  : option SizeSpec * SizeMap :=
  let '(lastUsedSize, consolidatedSizes) := st in
  let key := sizeSpecKey (width size) (density size) in
  match lastUsedSize with
  | Some last =>
      if absorbs sizeThreshold last size then
        (lastUsedSize,
         <[key := {| density := density size;
                     width := width size;
                     actualWidth := actualWidth last |}]> consolidatedSizes)
      else (Some size, <[key := size]> consolidatedSizes)
  | None => (Some size, <[key := size]> consolidatedSizes)
  end.

Definition consolidate_loop (sizeThreshold : Q) (sizes : list SizeSpec)
    (st : option SizeSpec * SizeMap) : option SizeSpec * SizeMap :=
  fold_left (consolidate_step sizeThreshold) sizes st.

(** The block "Calculate consolidatedSizes". *)
Definition consolidatedSizes (breakpoints : list ImageBreakpoint)
    (pixelDensities : list Q) (sizeThreshold : Q) : SizeMap :=
  snd (consolidate_loop sizeThreshold
         (sort_desc (allSizes breakpoints pixelDensities)) (None, ∅)).

(** The width a pair asks for before consolidation. *)
Definition requested (s : SizeSpec) : Z := Math_round (width s * density s).

(** *** The invariant of the consolidation loop *)

(** The order the sort establishes. *)
Definition desc (a b : SizeSpec) : Prop := (actualWidth b ≤ actualWidth a)%Z.

(** [u] is one of the enumerated sizes [all], and the map records [u]'s own
    width under [u]'s key. *)
Definition kept (all : list SizeSpec) (m : SizeMap) (u : SizeSpec) : Prop :=
  In u all ∧
  ∃ su, m !! sizeSpecKey (width u) (density u) = Some su ∧
        actualWidth su = actualWidth u.

(** What holds of the entry [spec] under the key [k], in the loop state
    [st]: the key is the entry's own; the recorded width is not below the
    requested one, and equals it when the threshold is 1; and it is the own
    width of a kept size [u] that is not narrower than the last used size. *)
Definition entry_ok (all : list SizeSpec) (sizeThreshold : Q)
    (st : option SizeSpec * SizeMap)
    (k : (Z * positive) * (Z * positive)) (spec : SizeSpec) : Prop :=
  k = sizeSpecKey (width spec) (density spec) ∧
  (requested spec ≤ actualWidth spec)%Z ∧
  ((sizeThreshold == 1)%Q → actualWidth spec = requested spec) ∧
  ∃ u, kept all st.2 u ∧ actualWidth spec = actualWidth u ∧
       (requested spec ≤ requested u)%Z ∧
       ∀ L, st.1 = Some L → (actualWidth L ≤ actualWidth u)%Z.

(** The loop state [st] before the sizes [rest] are processed. *)
Definition inv (all : list SizeSpec) (sizeThreshold : Q)
    (st : option SizeSpec * SizeMap) (rest : list SizeSpec) : Prop :=
  (st.1 = None → st.2 = ∅) ∧
  (∀ L, st.1 = Some L →
     kept all st.2 L ∧ ∀ s, In s rest → (actualWidth s ≤ actualWidth L)%Z) ∧
  (∀ k spec, st.2 !! k = Some spec → entry_ok all sizeThreshold st k spec).

(** The breakpoints of the specification's scenario. *)
Definition demo_breakpoints : list ImageBreakpoint :=
  [ {| maxWidth := Some 600%Q; imageWidth := 300%Q |};
    {| maxWidth := None; imageWidth := 1200%Q |} ].

End Sizes.

(** ** JavaScript values, the program state and asynchronous functions *)

Module Js.

(** The values that flow through the stores and the orchestrator.  A [Map]
    object is a reference into the state; an [Error] carries its message; a
    built-in function, or a built-in object such as [Object.prototype], is
    named by the expression that denotes it. *)
Inductive value : Type :=
| VUndefined
| VNull
| VBool (b : bool)
| VNum (q : Q)
| VStr (s : string)
| VArr (items : list value)
| VObj (fields : list (string * value))
| VError (message : string)
| VMap (ref : nat)
| VBuiltin (name : string).

(** [x === undefined] *)
Definition is_undefined (v : value) : bool :=
  match v with VUndefined => true | _ => false end.

(** [typeof x === 'string'] *)
Definition is_string (v : value) : bool :=
  match v with VStr _ => true | _ => false end.

(** [a === b] on the values a store holds: [string | null | undefined]
    (a number compares by value, a built-in by its identity; arrays, objects
    and maps are never compared by the code and count as different). *)
Definition strict_eq (a b : value) : bool :=
  match a, b with
  | VUndefined, VUndefined => true
  | VNull, VNull => true
  | VBool x, VBool y => Bool.eqb x y
  | VNum x, VNum y => Qeq_bool x y
  | VStr x, VStr y => String.eqb x y
  | VBuiltin x, VBuiltin y => String.eqb x y
  | _, _ => false
  end.

(** Truthiness, as [!x] and [x || y] see it. *)
Definition truthy (v : value) : bool :=
  match v with
  | VUndefined | VNull => false
  | VBool b => b
  | VNum q => negb (Qeq_bool q 0)
  | VStr s => negb (String.eqb s EmptyString)
  | _ => true
  end.

(** [typeof x === 'object']: objects, arrays, maps, errors, and [null]; of
    the built-ins, those that are no functions. *)
Definition typeof_object (v : value) : bool :=
  match v with
  | VNull | VArr _ | VObj _ | VError _ | VMap _ => true
  | VBuiltin name => String.eqb name "Object.prototype"
  | _ => false
  end.

(** [o.name] *)
Fixpoint assoc (name : string) (fields : list (string * value)) : option value :=
  match fields with
  | [] => None
  | (k, v) :: rest => if String.eqb k name then Some v else assoc name rest
  end.

Definition field (name : string) (v : value) : value :=
  match v with
  | VObj fields => default VUndefined (assoc name fields)
  | _ => VUndefined
  end.

Definition to_num (v : value) : Q := match v with VNum q => q | _ => 0%Q end.
Definition to_str (v : value) : string := match v with VStr s => s | _ => EmptyString end.

(** [Object.entries(x)] for a parsed JSON value: the fields of an object,
    the indexed items of an array. *)
Fixpoint indexed (i : nat) (items : list value) : list (string * value) :=
  match items with
  | [] => []
  | v :: rest => (pretty i, v) :: indexed (S i) rest
  end.

Definition Object_entries (v : value) : list (string * value) :=
  match v with
  | VObj fields => fields
  | VArr items => indexed 0 items
  | _ => []
  end.

(** [(e as Error)?.message ?? e], as text. *)
Definition error_text (e : value) : string :=
  match e with
  | VError m => m
  | VStr s => s
  | _ => "error"
  end.

(** What a settled promise holds, and what a function call ends with. *)
Inductive outcome : Type :=
| Fulfilled (v : value)
| Rejected (e : value).

(** What the program can [await]: a promise, or any other value. *)
Inductive awaitable : Type :=
| APromise (p : nat)
| AValue (v : value).

(** The calls the development observes: each call of a function the caller
    supplied, each line written to the console, each call of the codec and
    of [writeFile].  They are kept in a trace beside the program state, which
    the program can extend and cannot read or change. *)
Inductive event : Type :=
| FactoryCalled (key : string)
| OnUpdateCalled (key : string) (v : value)
| SaveCalled
| OnLoadErrorCalled (e : value)
| OnSaveErrorCalled (e : value)
| ConsoleError (text : string)
| CodecCalled (width : Q)
| FileWritten (path : string)
| KeyRequested (key : string).

(** The mutable state the code works on.  Promises, their waiting
    continuations and the trace belong to the scheduler below. *)
Record heap : Type := {
  (** [RuntimeStringKeyValueStore.data : Record<string, Promise>], a plain
      object: its own properties *)
  runtime_data : gmap string nat;
  (** [StorageStringKeyValueStore.data : Promise<Map> | undefined] *)
  storage_data : option nat;
  (** the [Map<string, Promise>] objects, in insertion order *)
  maps : list (list (string * nat));
  (** variables captured by closures: [isCached], [aspectRatio],
      [statsGeneratedUrls] *)
  cells : list value;
  (** the file system: path to content *)
  files : gmap string string;
  (** the prototype of the object [data] of the runtime store:
      [Object.prototype] ([None]) until an assignment to ['__proto__'] puts a
      promise in its place *)
  runtime_proto : option nat;
}.

Definition empty_heap : heap :=
  {| runtime_data := ∅; storage_data := None; maps := []; cells := [];
     files := ∅; runtime_proto := None |}.

Definition set_runtime_data (f : gmap string nat → gmap string nat) (h : heap) : heap :=
  {| runtime_data := f (runtime_data h); storage_data := storage_data h;
     maps := maps h; cells := cells h; files := files h;
     runtime_proto := runtime_proto h |}.

Definition set_storage_data (d : option nat) (h : heap) : heap :=
  {| runtime_data := runtime_data h; storage_data := d;
     maps := maps h; cells := cells h; files := files h;
     runtime_proto := runtime_proto h |}.

Definition set_maps (f : list (list (string * nat)) → list (list (string * nat)))
    (h : heap) : heap :=
  {| runtime_data := runtime_data h; storage_data := storage_data h;
     maps := f (maps h); cells := cells h; files := files h;
     runtime_proto := runtime_proto h |}.

Definition set_cells (f : list value → list value) (h : heap) : heap :=
  {| runtime_data := runtime_data h; storage_data := storage_data h;
     maps := maps h; cells := f (cells h); files := files h;
     runtime_proto := runtime_proto h |}.

Definition set_files (f : gmap string string → gmap string string) (h : heap) : heap :=
  {| runtime_data := runtime_data h; storage_data := storage_data h;
     maps := maps h; cells := cells h; files := f (files h);
     runtime_proto := runtime_proto h |}.

Definition set_runtime_proto (p : option nat) (h : heap) : heap :=
  {| runtime_data := runtime_data h; storage_data := storage_data h;
     maps := maps h; cells := cells h; files := files h;
     runtime_proto := p |}.

(** An ordinary (synchronous) function the caller supplies: it works on the
    state and returns or throws. *)
Definition sync_fn : Type := heap → outcome * heap.

(** The body of an asynchronous function, in continuation-passing style:
    one constructor per thing such a body can do next. *)
Inductive async : Type :=
| Return (v : value)
| Throw (e : value)
(** [await a]: suspend; the continuation gets how [a] settled *)
| AwaitOutcome (a : awaitable) (k : outcome → async)
(** read or change the state *)
| Act {A : Type} (f : heap → A * heap) (k : A → async)
(** [Promise.resolve(v)]: a new promise, already fulfilled *)
| PromiseResolve (v : value) (k : nat → async)
(** [new Promise(executor)] with an executor that throws [e]: a new
    promise, already rejected *)
| PromiseReject (e : value) (k : nat → async)
(** call an asynchronous function: it runs up to its first [await], and the
    caller goes on with the promise of its result *)
| Call (body : async) (k : nat → async)
(** [Promise.all(ps)] *)
| PromiseAll (ps : list nat) (k : nat → async)
(** start an operation the platform completes later (file or codec work) *)
| StartIO (op : sync_fn) (k : nat → async)
(** add an observed call to the trace *)
| Emit (e : event) (k : async).

Declare Scope async_scope.
Delimit Scope async_scope with async.
Bind Scope async_scope with async.

Notation "'let*' x ':=' m 'in' k" := (m (fun x => k))
  (at level 10, x pattern, m at level 100, k at level 200, only parsing)
  : async_scope.
Notation "m ';;' k" := (m k)
  (at level 100, k at level 200, right associativity, only parsing)
  : async_scope.

Open Scope async_scope.

(** [await a] inside a function body: a rejection is thrown at the await. *)
Definition await (a : awaitable) (k : value → async) : async :=
  AwaitOutcome a (fun o => match o with Fulfilled v => k v | Rejected e => Throw e end).

Definition Get {A : Type} (f : heap → A) (k : A → async) : async :=
  Act (fun h => (f h, h)) k.

Definition Put (f : heap → heap) (k : async) : async :=
  Act (fun h => (tt, f h)) (fun _ => k).

(** Call of a synchronous function supplied by the caller. *)
Definition CallSync (f : sync_fn) (k : value → async) : async :=
  Act f (fun o => match o with Fulfilled v => k v | Rejected e => Throw e end).

(** [try { body } catch (e) { handler }], for blocks that end in [return] or
    [throw].  What is thrown while [body] runs, also after one of its awaits,
    goes to [handler]; a function the body calls keeps its own failures in
    its own promise. *)
Fixpoint try_catch (body : async) (handler : value → async) : async :=
  match body with
  | Return v => Return v
  | Throw e => handler e
  | AwaitOutcome a k => AwaitOutcome a (fun o => try_catch (k o) handler)
  | Act f k => Act f (fun a => try_catch (k a) handler)
  | PromiseResolve v k => PromiseResolve v (fun p => try_catch (k p) handler)
  | PromiseReject e k => PromiseReject e (fun p => try_catch (k p) handler)
  | Call body' k => Call body' (fun p => try_catch (k p) handler)
  | PromiseAll ps k => PromiseAll ps (fun p => try_catch (k p) handler)
  | StartIO op k => StartIO op (fun p => try_catch (k p) handler)
  | Emit e k => Emit e (try_catch k handler)
  end.

(** Sequencing of a block that runs to its end: [Return] inside [block]
    marks the end of the block, and [rest] follows. *)
Fixpoint and_then (block : async) (rest : value → async) : async :=
  match block with
  | Return v => rest v
  | Throw e => Throw e
  | AwaitOutcome a k => AwaitOutcome a (fun o => and_then (k o) rest)
  | Act f k => Act f (fun a => and_then (k a) rest)
  | PromiseResolve v k => PromiseResolve v (fun p => and_then (k p) rest)
  | PromiseReject e k => PromiseReject e (fun p => and_then (k p) rest)
  | Call body' k => Call body' (fun p => and_then (k p) rest)
  | PromiseAll ps k => PromiseAll ps (fun p => and_then (k p) rest)
  | StartIO op k => StartIO op (fun p => and_then (k p) rest)
  | Emit e k => Emit e (and_then k rest)
  end.

End Js.

(** ** The job queue: how suspended functions are resumed *)

Module Loop.
Import Js.

(** What waits for a promise: a function suspended at an [await] (with the
    promise of its own result), or one slot of a [Promise.all]. *)
Inductive reaction : Type :=
| Resume (k : outcome → async) (result : nat)
| AllSlot (agg : nat) (index : nat).

Inductive pstate : Type :=
| Pending (waiting : list reaction)
| Settled (o : outcome).

(** Bookkeeping of one [Promise.all]: the promise it returned, how many
    elements are still open, and the values so far. *)
Record aggregate : Type := {
  agg_result : nat;
  agg_open : nat;
  agg_values : list value;
}.

Record sched : Type := {
  state : heap;
  promises : list pstate;
  aggregates : list aggregate;
  (** the microtask queue, first in first out *)
  jobs : list (reaction * outcome);
  (** operations started and not yet completed by the platform *)
  io : list (nat * sync_fn);
  (** the observed calls, oldest first *)
  trace : list event;
}.

Definition initial (h : heap) : sched :=
  {| state := h; promises := []; aggregates := []; jobs := []; io := [];
     trace := [] |}.

Definition with_state (h : heap) (s : sched) : sched :=
  {| state := h; promises := promises s; aggregates := aggregates s;
     jobs := jobs s; io := io s; trace := trace s |}.

Definition with_promises (ps : list pstate) (s : sched) : sched :=
  {| state := state s; promises := ps; aggregates := aggregates s;
     jobs := jobs s; io := io s; trace := trace s |}.

Definition with_aggregates (a : list aggregate) (s : sched) : sched :=
  {| state := state s; promises := promises s; aggregates := a;
     jobs := jobs s; io := io s; trace := trace s |}.

Definition with_jobs (j : list (reaction * outcome)) (s : sched) : sched :=
  {| state := state s; promises := promises s; aggregates := aggregates s;
     jobs := j; io := io s; trace := trace s |}.

Definition with_io (i : list (nat * sync_fn)) (s : sched) : sched :=
  {| state := state s; promises := promises s; aggregates := aggregates s;
     jobs := jobs s; io := i; trace := trace s |}.

Definition with_trace (t : list event) (s : sched) : sched :=
  {| state := state s; promises := promises s; aggregates := aggregates s;
     jobs := jobs s; io := io s; trace := t |}.

(** A new promise; its name is its index. *)
Definition new_promise (st : pstate) (s : sched) : nat * sched :=
  (length (promises s), with_promises (promises s ++ [st]) s).

(** Settling a pending promise queues one job per waiting reaction, in the
    order they registered; settling a settled promise does nothing. *)
Definition settle (p : nat) (o : outcome) (s : sched) : sched :=
  match promises s !! p with
  | Some (Pending waiting) =>
      with_jobs (jobs s ++ map (fun r => (r, o)) waiting)
        (with_promises (<[p := Settled o]> (promises s)) s)
  | _ => s
  end.

(** [then]: a reaction on a pending promise waits; on a settled promise, or
    on a value that is no promise, its job is queued at once. *)
Definition subscribe (a : awaitable) (r : reaction) (s : sched) : sched :=
  match a with
  | AValue v => with_jobs (jobs s ++ [(r, Fulfilled v)]) s
  | APromise p =>
      match promises s !! p with
      | Some (Pending waiting) =>
          with_promises (<[p := Pending (waiting ++ [r])]> (promises s)) s
      | Some (Settled o) => with_jobs (jobs s ++ [(r, o)]) s
      | None => s
      end
  end.

Fixpoint subscribe_all (agg : nat) (i : nat) (ps : list nat) (s : sched) : sched :=
  match ps with
  | [] => s
  | p :: rest => subscribe_all agg (S i) rest (subscribe (APromise p) (AllSlot agg i) s)
  end.

(** Runs a function body until it returns, throws or suspends at an
    [await].  [result] is the promise of the function's own result. *)
Fixpoint exec (body : async) (result : nat) (s : sched) : sched :=
  match body with
  | Return v => settle result (Fulfilled v) s
  | Throw e => settle result (Rejected e) s
  | AwaitOutcome a k => subscribe a (Resume k result) s
  | Act f k =>
      let '(a, h) := f (state s) in exec (k a) result (with_state h s)
  | PromiseResolve v k =>
      let '(p, s1) := new_promise (Settled (Fulfilled v)) s in exec (k p) result s1
  | PromiseReject e k =>
      let '(p, s1) := new_promise (Settled (Rejected e)) s in exec (k p) result s1
  | Call body' k =>
      let '(r, s1) := new_promise (Pending []) s in
      exec (k r) result (exec body' r s1)
  | PromiseAll ps k =>
      let '(r, s1) := new_promise (Pending []) s in
      let agg := length (aggregates s1) in
      let s2 := with_aggregates
                  (aggregates s1 ++
                   [{| agg_result := r; agg_open := length ps;
                       agg_values := map (fun _ => VUndefined) ps |}]) s1 in
      let s3 := match ps with
                | [] => settle r (Fulfilled (VArr [])) s2
                | _ => subscribe_all agg 0 ps s2
                end in
      exec (k r) result s3
  | StartIO op k =>
      let '(p, s1) := new_promise (Pending []) s in
      exec (k p) result (with_io (io s1 ++ [(p, op)]) s1)
  | Emit e k => exec k result (with_trace (trace s ++ [e]) s)
  end.

(** One element of a [Promise.all] has settled. *)
Definition all_slot (agg index : nat) (o : outcome) (s : sched) : sched :=
  match aggregates s !! agg with
  | None => s
  | Some a =>
      match o with
      | Rejected e => settle (agg_result a) (Rejected e) s
      | Fulfilled v =>
          let a' := {| agg_result := agg_result a;
                       agg_open := pred (agg_open a);
                       agg_values := <[index := v]> (agg_values a) |} in
          let s1 := with_aggregates (<[agg := a']> (aggregates s)) s in
          match agg_open a' with
          | O => settle (agg_result a) (Fulfilled (VArr (agg_values a'))) s1
          | S _ => s1
          end
      end
  end.

Definition run_job (j : reaction * outcome) (s : sched) : sched :=
  match j with
  | (Resume k result, o) => exec (k o) result s
  | (AllSlot agg index, o) => all_slot agg index o s
  end.

(** The platform completes the oldest started operation. *)
Definition complete_io (p : nat) (op : sync_fn) (s : sched) : sched :=
  let '(o, h) := op (state s) in settle p o (with_state h s).

(** One turn: the next job of the queue; with the queue empty, the next
    completion of a started operation. *)
Definition turn (s : sched) : option sched :=
  match jobs s with
  | j :: rest => Some (run_job j (with_jobs rest s))
  | [] =>
      match io s with
      | (p, op) :: rest => Some (complete_io p op (with_io rest s))
      | [] => None
      end
  end.

Fixpoint run (fuel : nat) (s : sched) : sched :=
  match fuel with
  | O => s
  | S n => match turn s with Some s' => run n s' | None => s end
  end.

(** Nothing left to run. *)
Definition idle (s : sched) : Prop := jobs s = [] ∧ io s = [].

(** A caller outside calls an asynchronous function. *)
Definition spawn (body : async) (s : sched) : nat * sched :=
  let '(r, s1) := new_promise (Pending []) s in (r, exec body r s1).

(** Several calls made one after the other, without an [await] between
    them. *)
Fixpoint spawn_all (bodies : list async) (s : sched) : list nat * sched :=
  match bodies with
  | [] => ([], s)
  | b :: rest =>
      let '(r, s1) := spawn b s in
      let '(rs, s2) := spawn_all rest s1 in
      (r :: rs, s2)
  end.

Definition result_of (r : nat) (s : sched) : option outcome :=
  match promises s !! r with
  | Some (Settled o) => Some o
  | _ => None
  end.

End Loop.

(** ** string-kv-store.ts *)

Module Store.
Import Js.

(** [FactoryFunction]: it may be an asynchronous function (its call gives a
    promise) or an ordinary one (its call gives a value, or throws). *)
Inductive FactoryFunction : Type :=
| AsyncFactory (body : string → async)
| SyncFactory (f : string → sync_fn).

(** [factory(key)]: the call is recorded in the trace. *)
Definition call_factory (factory : FactoryFunction) (key : string)
    (k : awaitable → async) : async :=
  Emit (FactoryCalled key);;
  match factory with
  | AsyncFactory body => let* p := Call (body key) in k (APromise p)
  | SyncFactory f => let* v := CallSync (f key) in k (AValue v)
  end.

(** The interface [StringKeyValueStore]. *)
Class StringKeyValueStore : Type := {
  get : string → async;
  set : string → value → async;
  getOrCreate : string → FactoryFunction → async;
}.

(** Whether an optional value is there ([x !== null], [x !== undefined]). *)
Definition present {A : Type} (o : option A) : bool :=
  match o with Some _ => true | None => false end.

(** [data.get(key)], ready to be awaited: the promise, or [undefined]. *)
Definition entry (e : option nat) : awaitable :=
  match e with
  | Some p => APromise p
  | None => AValue VUndefined
  end.

(** *** defer (lines 11-20)

    [new Promise] runs its executor at once, while the constant [defer] that
    will hold the promise is not initialised yet.  The executor's first
    statement, [defer.resolve = resolve], reads that constant and throws a
    ReferenceError, which the constructor turns into a rejection.  So
    [defer()] returns a promise that is rejected already, and that has no
    member [resolve] and no member [reject].  (What the platform does about
    a rejected promise that nobody handles is not modelled.) *)

Definition ReferenceError_defer : value :=
  VError "Cannot access 'defer' before initialization".

Definition defer (k : nat → async) : async :=
  PromiseReject ReferenceError_defer k.

(** [promise.resolve(value)] on a promise that [defer()] returned: the
    member is [undefined], the call throws a TypeError, and the statements
    after it do not run. *)
Definition TypeError_resolve : value :=
  VError "promise.resolve is not a function".

Definition promise_resolve (promise : nat) (value : value) (k : async) : async :=
  Throw TypeError_resolve.

(** *** The object [data] of the runtime store

    [data] is a plain object, [{}]: a name it does not own is looked up in
    its prototype chain. *)

(** The names of [Object.prototype], except its accessor [__proto__]. *)
Definition Object_prototype : list string :=
  ["constructor"; "__defineGetter__"; "__defineSetter__"; "hasOwnProperty";
   "__lookupGetter__"; "__lookupSetter__"; "isPrototypeOf";
   "propertyIsEnumerable"; "toString"; "valueOf"; "toLocaleString"].

(** The names of [Promise.prototype]: a promise that has become the
    prototype of [data] brings them into the chain. *)
Definition Promise_prototype : list string :=
  ["constructor"; "then"; "catch"; "finally"].

(** What the prototype chain gives for [key]: the getter of [__proto__]
    gives the prototype itself; a member of [Promise.prototype] or of
    [Object.prototype] is a built-in function; any other name is
    [undefined]. *)
Definition inherited (proto : option nat) (key : string) : awaitable :=
  if String.eqb key "__proto__" then
    match proto with
    | Some p => APromise p
    | None => AValue (VBuiltin "Object.prototype")
    end
  else if present proto && existsb (String.eqb key) Promise_prototype then
    AValue (VBuiltin ("Promise.prototype." +:+ key))
  else if existsb (String.eqb key) Object_prototype then
    AValue (VBuiltin ("Object.prototype." +:+ key))
  else AValue VUndefined.

(** [this.data[key]], ready to be awaited. *)
Definition data_get (key : string) (h : heap) : awaitable :=
  match runtime_data h !! key with
  | Some p => APromise p
  | None => inherited (runtime_proto h) key
  end.

(** [this.data[key] = promise]: for a name that [data] does not own, the
    assignment to ['__proto__'] calls the setter of [Object.prototype], which
    makes the promise (an object) the prototype of [data] and adds no
    property. *)
Definition data_set (key : string) (promise : nat) (h : heap) : heap :=
  if String.eqb key "__proto__" && negb (present (runtime_data h !! key)) then
    set_runtime_proto (Some promise) h
  else set_runtime_data <[key := promise]> h.

(** [delete this.data[key]]: own properties only. *)
Definition data_delete (key : string) (h : heap) : heap :=
  set_runtime_data (delete key) h.

(** A name that no prototype gives a value for. *)
Definition ordinary (key : string) : bool :=
  negb (String.eqb key "__proto__") &&
  negb (existsb (String.eqb key) (Object_prototype ++ Promise_prototype)).

(** *** RuntimeStringKeyValueStore *)

Module Runtime.

Definition get (key : string) : async :=
  let* e := Get (data_get key) in
  let* v := await e in
  Return v.

Definition set (key : string) (value : value) : async :=
  if is_undefined value then
    Put (data_delete key);;
    Return VUndefined
  else
    let* p := PromiseResolve value in
    Put (data_set key p);;
    Return VUndefined.

Definition getOrCreate (key : string) (factory : FactoryFunction) : async :=
  let* e := Get (data_get key) in
  let* value := await e in
  if is_undefined value then
    let* promise := defer in
    Put (data_set key promise);;
    try_catch
      (let* called := call_factory factory key in
       let* value := await called in
       promise_resolve promise value;;
       Return value)
      (fun e =>
       Put (data_delete key);;
       promise_resolve promise VUndefined;;
       Throw e)
  else Return value.

#[export] Instance store : StringKeyValueStore :=
  {| Store.get := get; Store.set := set; Store.getOrCreate := getOrCreate |}.

End Runtime.

(** *** node:fs/promises and simple-file-storage.ts *)

Definition readFile (path : string) : sync_fn := fun h =>
  match files h !! path with
  | Some content => (Fulfilled (VStr content), h)
  | None => (Rejected (VError "ENOENT: no such file or directory"), h)
  end.

Definition mkdir (dir : string) : sync_fn := fun h => (Fulfilled VUndefined, h).

Definition writeFile (path data : string) : sync_fn := fun h =>
  (Fulfilled VUndefined, set_files <[path := data]> h).

(** The interface [StorageBlob] (the binary [read] is not used by the
    store). *)
Class StorageBlob : Type := {
  readUtf8 : async;
  write : string → async;
}.

(** [SimpleFileStorageBlob]; [dir] stands for [dirname(this.path)]. *)
Definition SimpleFileStorageBlob (path dir : string) : StorageBlob :=
  {| readUtf8 :=
       (let* reading := StartIO (readFile path) in
        let* content := await (APromise reading) in
        Return content);
     write := fun data =>
       (let* made := StartIO (mkdir dir) in
        let* _ := await (APromise made) in
        Emit (FileWritten path);;
        let* written := StartIO (writeFile path data) in
        let* _ := await (APromise written) in
        Return VUndefined) |}.

(** *** Map objects *)

Fixpoint alist_get (key : string) (l : list (string * nat)) : option nat :=
  match l with
  | [] => None
  | (k, p) :: rest => if String.eqb k key then Some p else alist_get key rest
  end.

(** [Map.prototype.set]: an existing key keeps its place. *)
Fixpoint alist_set (key : string) (p : nat) (l : list (string * nat))
  : list (string * nat) :=
  match l with
  | [] => [(key, p)]
  | (k, q) :: rest =>
      if String.eqb k key then (k, p) :: rest else (k, q) :: alist_set key p rest
  end.

Fixpoint alist_delete (key : string) (l : list (string * nat)) : list (string * nat) :=
  match l with
  | [] => []
  | (k, q) :: rest =>
      if String.eqb k key then rest else (k, q) :: alist_delete key rest
  end.

Definition Map_entries (m : nat) (h : heap) : list (string * nat) :=
  default [] (maps h !! m).

Definition Map_get (m : nat) (key : string) (h : heap) : option nat :=
  alist_get key (Map_entries m h).

Definition Map_set (m : nat) (key : string) (p : nat) (h : heap) : heap :=
  set_maps (fun ms => <[m := alist_set key p (Map_entries m h)]> ms) h.

(** [Map.prototype.delete] tells whether the key was there. *)
Definition Map_delete (m : nat) (key : string) (h : heap) : bool * heap :=
  (present (Map_get m key h),
   set_maps (fun ms => <[m := alist_delete key (Map_entries m h)]> ms) h).

(** [new Map(entries)] *)
Definition new_Map (entries : list (string * nat)) (h : heap) : nat * heap :=
  (length (maps h),
   set_maps (fun ms => ms ++ [fold_left (fun l e => alist_set e.1 e.2 l) entries []]) h).

Definition map_ref (v : value) : nat := match v with VMap m => m | _ => 0 end.

(** *** StorageStringKeyValueStore *)

(** [UpdateHandler]: an asynchronous function of the key, the value and
    [saveToStorage], given here by its body. *)
Definition UpdateHandler : Type := string → value → async → async.
Definition ErrorHandler : Type := value → sync_fn.

Record StorageStringKeyValueCacheOptions : Type := {
  onUpdate : option UpdateHandler;
  onLoadError : option ErrorHandler;
  onSaveError : option ErrorHandler;
}.

Definition no_options : StorageStringKeyValueCacheOptions :=
  {| onUpdate := None; onLoadError := None; onSaveError := None |}.

(** The built-in [JSON] object. *)
Class Json : Type := {
  (** [None]: the text is no JSON, [JSON.parse] throws a SyntaxError *)
  JSON_parse : string → option value;
  JSON_stringify : value → string;
}.

Module Storage.
Section Storage.
Context (storageBlob : StorageBlob).
Context (options : StorageStringKeyValueCacheOptions).
Context `{Json}.

Definition console_error (text : string) (k : async) : async :=
  Emit (ConsoleError text);; k.

(** [Object.entries(data).map(([k, v]) => [k, Promise.resolve(v)])] *)
Fixpoint resolve_each (entries : list (string * value))
    (k : list (string * nat) → async) : async :=
  match entries with
  | [] => k []
  | (key, v) :: rest =>
      let* p := PromiseResolve v in
      resolve_each rest (fun ps => k ((key, p) :: ps))
  end.

(** The asynchronous arrow function of [getData], lines 84-100. *)
Definition load : async :=
  try_catch
    (let* reading := Call readUtf8 in
     let* json := await (APromise reading) in
     match JSON_parse (to_str json) with
     | None => Throw (VError "SyntaxError: the text is not JSON")
     | Some data =>
         if negb (truthy data) || negb (typeof_object data) then
           Throw (VError "does not contain a JSON-formatted object.")
         else if existsb (fun x => negb (is_string x.2)) (Object_entries data) then
           Throw (VError "Stored data contains non-string values.")
         else
           let* entries := resolve_each (Object_entries data) in
           let* m := Act (new_Map entries) in
           Return (VMap m)
     end)
    (fun e =>
     and_then
       (try_catch
          (match onLoadError options with
           | Some handler =>
               Emit (OnLoadErrorCalled e);;
               let* _ := CallSync (handler e) in
               Return VUndefined
           | None =>
               console_error
                 ("SimpleFileKeyValueCache - load error: " +:+ error_text e);;
               Return VUndefined
           end)
          (fun e2 =>
           console_error
             ("SimpleFileKeyValueCache - load error: " +:+ error_text e +:+
              "; also, an error has occured while trying to call onLoadError:");;
           Return VUndefined))
       (fun _ =>
        let* m := Act (new_Map []) in
        Return (VMap m))).

Definition getData (forceReload : bool) : async :=
  let* data := Get storage_data in
  let finish : async :=
    let* data := Get storage_data in
    let* m := await (entry data) in
    Return m in
  if forceReload || negb (present data) then
    let* loading := Call load in
    Put (set_storage_data (Some loading));;
    finish
  else finish.

(** [[...data.entries()].map(async ([k, v]) => [k, await v] as const)] *)
Fixpoint await_each (entries : list (string * nat)) (k : list nat → async) : async :=
  match entries with
  | [] => k []
  | (key, p) :: rest =>
      let* one := Call (let* v := await (APromise p) in
                        Return (VArr [VStr key; v])) in
      await_each rest (fun ps => k (one :: ps))
  end.

(** [Object.fromEntries(entries.filter(([_, v]) => v !== undefined))] *)
Definition fromEntries (entries : list value) : value :=
  VObj (omap (fun e =>
                match e with
                | VArr [VStr k; v] => if is_undefined v then None else Some (k, v)
                | _ => None
                end) entries).

Definition save : async :=
  Emit SaveCalled;;
  try_catch
    (let* data := Get storage_data in
     match data with
     | None => Throw (VError "Called save() before any data has been loaded or set.")
     | Some loading =>
         let* data := await (APromise loading) in
         let* listed := Get (Map_entries (map_ref data)) in
         let* awaited := await_each listed in
         let* all := PromiseAll awaited in
         let* entries := await (APromise all) in
         let json :=
           JSON_stringify
             (fromEntries (match entries with VArr l => l | _ => [] end)) in
         let* writing := Call (write json) in
         let* _ := await (APromise writing) in
         Return VUndefined
     end)
    (fun e =>
     match onSaveError options with
     | Some handler =>
         Emit (OnSaveErrorCalled e);;
         let* _ := CallSync (handler e) in
         Return VUndefined
     | None =>
         console_error
           ("SimpleFileKeyValueCache - save error: " +:+ error_text e);;
         Return VUndefined
     end).

(** [this.onUpdate(key, value, this.boundSave)], where the constructor
    sets [this.onUpdate = options.onUpdate ?? ((_, __, save) => save())].
    The call is recorded in the trace. *)
Definition call_onUpdate (key : string) (v : value) (k : nat → async) : async :=
  Emit (OnUpdateCalled key v);;
  match onUpdate options with
  | Some handler => Call (handler key v save) k
  | None => Call save k
  end.

Definition get (key : string) : async :=
  let* loaded := Call (getData false) in
  let* data := await (APromise loaded) in
  let* e := Get (Map_get (map_ref data) key) in
  match e with
  | Some p => let* v := await (APromise p) in Return v
  | None => Return VUndefined
  end.

Definition set (key : string) (value : value) : async :=
  let* loaded := Call (getData false) in
  let* data := await (APromise loaded) in
  let notify : async :=
    let* updating := call_onUpdate key value in
    let* _ := await (APromise updating) in
    Return VUndefined in
  if is_undefined value then
    let* deleted := Act (Map_delete (map_ref data) key) in
    if negb deleted then Return VUndefined else notify
  else
    let* e := Get (Map_get (map_ref data) key) in
    let* existing := await (entry e) in
    if strict_eq existing value then Return VUndefined
    else
      let* p := PromiseResolve value in
      Put (Map_set (map_ref data) key p);;
      notify.

Definition getOrCreate (key : string) (factory : FactoryFunction) : async :=
  let* loaded := Call (getData false) in
  let* data := await (APromise loaded) in
  let* e := Get (Map_get (map_ref data) key) in
  let* existing := await (entry e) in
  if negb (is_undefined existing) then Return existing
  else
    let* promise := defer in
    Put (Map_set (map_ref data) key promise);;
    try_catch
      (let* called := call_factory factory key in
       let* value := await called in
       promise_resolve promise value;;
       let* updating := call_onUpdate key value in
       let* _ := await (APromise updating) in
       Return value)
      (fun e =>
       let* _ := Act (Map_delete (map_ref data) key) in
       promise_resolve promise VUndefined;;
       Throw e).

#[export] Instance store : StringKeyValueStore :=
  {| Store.get := get; Store.set := set; Store.getOrCreate := getOrCreate |}.
End Storage.
End Storage.

End Store.

(** ** resize-image.ts and the orchestrator *)

Module Orchestrator.
Import Js Store Sizes.

(** [createHash('sha256').update(x).digest('hex')] *)
Class Crypto : Type := {
  sha256_hex : string → string;
}.

(** node:path *)
Class Path : Type := {
  sep : ascii;
  join : string → string → string;
  dirname : string → string;
}.

(** imagemin-webp and sharp. *)
Class Codec : Type := {
  (** data, the [resize] option, quality *)
  imagemin_webp : string → option (Q * Q) → Q → string;
  (** [format], [width] and [height] of [sharp(data).metadata()] *)
  sharp_metadata : string → option string * option Q * option Q;
  (** [sharp.format[id].input.fileSuffix], first element *)
  sharp_fileSuffix : string → option string;
  (** the image with the debug text drawn on it *)
  sharp_composite : string → string → string;
}.

Definition Alloc (v : value) (k : nat → async) : async :=
  Act (fun h => (length (cells h), set_cells (fun c => c ++ [v]) h)) k.

Definition ReadCell (c : nat) (k : value → async) : async :=
  Get (fun h => default VUndefined (cells h !! c)) k.

Definition WriteCell (c : nat) (v : value) (k : async) : async :=
  Put (set_cells <[c := v]>) k.

Definition num_field (name : string) (v : value) : Q := to_num (field name v).
Definition str_field (name : string) (v : value) : string := to_str (field name v).

Definition optional_num (o : option Q) : value :=
  match o with Some q => VNum q | None => VUndefined end.

Section ResizeImage.
Context `{Crypto} `{Codec}.

(** [resizeImage(rawData, { width }, debugText)], the only way the
    orchestrator calls it; [quality] and [height] are absent. *)
Definition resizeImage (rawData : string) (width : Q) (debugText : option string)
  : async :=
  let quality : Q := 85%Q in
  let resize := if Qeq_bool width 0 then None else Some (width, 0%Q) in
  let minify (rawData : string) : async :=
    (Emit (CodecCalled width);;
     let* minifying :=
       StartIO (fun h => (Fulfilled (VStr (imagemin_webp rawData resize quality)),
                          h)) in
     let* resizedData := await (APromise minifying) in
     let resizedData := to_str resizedData in
     let hash := sha256_hex resizedData in
     let* reading :=
       StartIO (fun h =>
         let '(formatId, w, h') := sharp_metadata resizedData in
         (Fulfilled (VObj [("format", match formatId with
                                      | Some f => VStr f
                                      | None => VUndefined
                                      end);
                           ("width", optional_num w);
                           ("height", optional_num h')]), h)) in
     let* metadata := await (APromise reading) in
     if negb (truthy (field "format" metadata)) then
       Throw (VError "Cannot parse resulting file - unknown output file extension")
     else
       let formatId := str_field "format" metadata in
       let ext := match sharp_fileSuffix formatId with
                  | Some suffix => suffix
                  | None => "." +:+ formatId
                  end in
       if negb (truthy (field "width" metadata))
          || negb (truthy (field "height" metadata)) then
         Throw (VError "Cannot transform image, unknown output width or height.")
       else
         Return (VObj [("ext", VStr ext);
                       ("width", field "width" metadata);
                       ("height", field "height" metadata);
                       ("data", VStr resizedData);
                       ("hash", VStr hash)])) in
  match debugText with
  | Some text =>
      if String.eqb text EmptyString then minify rawData
      else
        let* reading :=
          StartIO (fun h =>
            let '(_, w, h') := sharp_metadata rawData in
            (Fulfilled (VObj [("width", optional_num w);
                              ("height", optional_num h')]), h)) in
        let* metadata := await (APromise reading) in
        if negb (truthy (field "width" metadata))
           || negb (truthy (field "height" metadata)) then
          Throw (VError "Expected width and height in image metadata.")
        else
          let* drawing :=
            StartIO (fun h => (Fulfilled (VStr (sharp_composite rawData text)), h)) in
          let* drawn := await (APromise drawing) in
          minify (to_str drawn)
  | None => minify rawData
  end.
End ResizeImage.

(** [request.inputImage : Buffer | string]: the bytes, or the path of a
    file. *)
Inductive InputImage : Type :=
| ImageBytes (data : string)
| ImagePath (path : string).

Record ImageResizeRequest : Type := {
  processedImageCacheStore : StringKeyValueStore;
  outputDirectory : string;
  publicPathPrefix : string;
  customOutputNameGenerator : option (string → value → string);
  customStorageWriter : option (string → string → string → async);
  sequential : bool;
  sizeThreshold : Q;
  inputImage : InputImage;
  pixelDensities : list Q;
  breakpoints : list ImageBreakpoint;
}.

Definition renderDebugSizeOnImages : bool := false.

(** What [hash.update(request.inputImage)] feeds to the hash: the bytes of a
    buffer, the characters of a string. *)
Definition hashed_input (i : InputImage) : string :=
  match i with
  | ImageBytes data => data
  | ImagePath path => path
  end.

(** [`${rawHash}@${maxWidth}:${debugText||''}`] *)
Definition cacheKey (rawHash : string) (maxWidth : Z) (debugText : option string)
  : string :=
  rawHash +:+ "@" +:+ pretty maxWidth +:+ ":" +:+ default EmptyString debugText.

(** [outputName.split(sep).join('/')] *)
Fixpoint split_join (sep : ascii) (s : string) : string :=
  match s with
  | EmptyString => EmptyString
  | String c rest =>
      String (if Ascii.eqb c sep then "/"%char else c) (split_join sep rest)
  end.

(** [Map.prototype.set] on [statsGeneratedUrls]. *)
Fixpoint stats_set (src : string) (b : value) (l : list (string * value))
  : list (string * value) :=
  match l with
  | [] => [(src, b)]
  | (k, v) :: rest =>
      if String.eqb k src then (k, b) :: rest else (k, v) :: stats_set src b rest
  end.

(** [[...statsGeneratedUrls.values()].filter(p).length] *)
Definition count_values (p : bool → bool) (stats : value) : Q :=
  inject_Z (Z.of_nat (length (List.filter (fun e => p (truthy e.2))
    (match stats with VObj l => l | _ => [] end)))).

(** [getUniqueImages] *)
Fixpoint getUniqueImages_from (seenWidths : list string) (images : list value)
  : list value :=
  match images with
  | [] => []
  | image :: rest =>
      let key := str_field "src" image in
      if existsb (String.eqb key) seenWidths then getUniqueImages_from seenWidths rest
      else image :: getUniqueImages_from (key :: seenWidths) rest
  end.

Definition getUniqueImages (images : list value) : list value :=
  getUniqueImages_from [] images.

(** [promiseAllSequential] *)
Fixpoint promiseAllSequential_from (ret : list value) (promiseFactories : list async)
  : async :=
  match promiseFactories with
  | [] => Return (VArr ret)
  | f :: rest =>
      let* called := Call f in
      let* v := await (APromise called) in
      promiseAllSequential_from (ret ++ [v]) rest
  end.

Definition promiseAllSequential (promiseFactories : list async) : async :=
  promiseAllSequential_from [] promiseFactories.

(** [promiseFactories.map(x => x())] *)
Fixpoint call_each (promiseFactories : list async) (k : list nat → async) : async :=
  match promiseFactories with
  | [] => k []
  | f :: rest =>
      let* called := Call f in
      call_each rest (fun ps => k (called :: ps))
  end.

(** [promiseAllPrarallel] *)
Definition promiseAllPrarallel (promiseFactories : list async) : async :=
  let* called := call_each promiseFactories in
  let* all := PromiseAll called in
  let* results := await (APromise all) in
  Return results.

Section Process.
Context `{Crypto} `{Path} `{Codec} `{Json}.

(** The default of [outputName], lines 125-130. *)
Definition defaultOutputName (rawHash : string) (resizedImage : value) : string :=
  let ext := str_field "ext" resizedImage in
  let width := num_field "width" resizedImage in
  let fileDirName := substring 0 2 rawHash in
  let fileName :=
    substring 2 8 rawHash +:+ "-" +:+ pretty (Qfloor (width / 10)%Q) +:+ "}" +:+ ext in
  join fileDirName fileName.

Definition transformSingleImage (inputImage : string) (request : ImageResizeRequest)
    (maxWidth : Z) (debugText : option string) : async :=
  let rawHash := sha256_hex (hashed_input (Orchestrator.inputImage request)) in
  let cacheKey := cacheKey rawHash maxWidth debugText in
  let* isCached := Alloc (VBool true) in
  let* creating :=
    Call (getOrCreate (StringKeyValueStore := processedImageCacheStore request)
            cacheKey
            (AsyncFactory (fun _ =>
               WriteCell isCached (VBool false);;
               let* resizing := Call (resizeImage inputImage (inject_Z maxWidth) debugText) in
               let* resizedImage := await (APromise resizing) in
               let outputName :=
                 match customOutputNameGenerator request with
                 | Some generator => generator rawHash resizedImage
                 | None => defaultOutputName rawHash resizedImage
                 end in
               let stored : async :=
                 let entry :=
                   VObj [("height", field "height" resizedImage);
                         ("width", field "width" resizedImage);
                         ("src", VStr (publicPathPrefix request +:+ "/" +:+
                                       split_join sep outputName))] in
                 Return (VStr (JSON_stringify entry)) in
               match customStorageWriter request with
               | Some writer =>
                   let* writing :=
                     Call (writer (str_field "data" resizedImage) outputName
                             (outputDirectory request)) in
                   let* _ := await (APromise writing) in
                   stored
               | None =>
                   let outputPath := join (outputDirectory request) outputName in
                   let* made := StartIO (mkdir (dirname outputPath)) in
                   let* _ := await (APromise made) in
                   Emit (FileWritten outputPath);;
                   let* written :=
                     StartIO (writeFile outputPath (str_field "data" resizedImage)) in
                   let* _ := await (APromise written) in
                   stored
               end))) in
  let* entry := await (APromise creating) in
  if negb (truthy entry) then Throw (VError "Could not process image")
  else
    let* isCached := ReadCell isCached in
    match JSON_parse (to_str entry) with
    | None => Throw (VError "SyntaxError: the text is not JSON")
    | Some data => Return (VObj [("isCached", isCached); ("data", data)])
    end.

Definition processImageRequest (request : ImageResizeRequest) : async :=
  let given := match Orchestrator.inputImage request with
               | ImageBytes _ => true
               | ImagePath path => negb (String.eqb path EmptyString)
               end in
  if negb given then Throw (VError "Invalid input image")
  else
  let resolved (k : string → async) : async :=
    match Orchestrator.inputImage request with
    | ImageBytes data => k data
    | ImagePath path =>
        let* reading := StartIO (readFile path) in
        let* data := await (APromise reading) in
        k (to_str data)
    end in
  let* inputImage := resolved in
  let promiseAll := if sequential request then promiseAllSequential
                    else promiseAllPrarallel in
  let* statsGeneratedUrls := Alloc (VObj []) in
  let transform (sizeSpec : SizeSpec) : async :=
    let originalTargetWidth := Sizes.width sizeSpec in
    let debugText : option string :=
      if renderDebugSizeOnImages then
        Some (JSON_stringify
                (VObj [("density", VNum (density sizeSpec));
                       ("width", VNum (Sizes.width sizeSpec));
                       ("actualWidth", VNum (inject_Z (actualWidth sizeSpec)))]))
      else None in
    let* transforming :=
      Call (transformSingleImage inputImage request (actualWidth sizeSpec) debugText) in
    let* transformed := await (APromise transforming) in
    let isCached := field "isCached" transformed in
    let src := field "src" (field "data" transformed) in
    let width := num_field "width" (field "data" transformed) in
    let height := field "height" (field "data" transformed) in
    let* stats := ReadCell statsGeneratedUrls in
    WriteCell statsGeneratedUrls
      (VObj (stats_set (to_str src) isCached
               (match stats with VObj l => l | _ => [] end)));;
    let actualDensity :=
      (inject_Z (Qfloor ((width / originalTargetWidth) * 100)%Q) / 100)%Q in
    Return (VObj [("src", src); ("width", VNum width); ("height", height);
                  ("actualDensity", VNum actualDensity)]) in
  let consolidatedSizes :=
    consolidatedSizes (breakpoints request) (pixelDensities request)
      (sizeThreshold request) in
  let* aspectRatio := Alloc VNull in
  let transformForDensities (breakpointWidth : Q) : async :=
    let* each :=
      Call (promiseAll (map (fun density =>
        match consolidatedSizes !! sizeSpecKey breakpointWidth density with
        | None => Throw (VError "miscalculated consolidatedSizes")
        | Some sizeSpec =>
            let* transforming := Call (transform sizeSpec) in
            let* t := await (APromise transforming) in
            let width := num_field "width" t in
            let height := num_field "height" t in
            let* current := ReadCell aspectRatio in
            let widest : async :=
              Return (VObj [("src", field "src" t);
                            ("dpi", field "actualDensity" t)]) in
            if negb (truthy current)
               || negb (Qle_bool width (num_field "width" current)) then
              WriteCell aspectRatio
                (VObj [("ratio", VNum (width / height)%Q); ("width", VNum width)]);;
              widest
            else widest
        end) (pixelDensities request))) in
    let* images := await (APromise each) in
    Return (VArr (getUniqueImages (match images with VArr l => l | _ => [] end))) in
  let sourceBreakpoints :=
    List.filter (fun b => present (maxWidth b)) (breakpoints request) in
  match find (fun b => negb (present (maxWidth b))) (breakpoints request) with
  | None => Throw (VError "Fallback breakpoint (with maxWidth: null) is required")
  | Some fallbackBreakpoint =>
      let* sourcing :=
        Call (promiseAll (map (fun breakpoint =>
          let* transforming := Call (transformForDensities (imageWidth breakpoint)) in
          let* srcset := await (APromise transforming) in
          Return (VObj [("w", VNum (default 0%Q (maxWidth breakpoint)));
                        ("srcset", srcset)])) sourceBreakpoints)) in
      let* sources := await (APromise sourcing) in
      let* transforming :=
        Call (transformForDensities (imageWidth fallbackBreakpoint)) in
      let* fallbackImages := await (APromise transforming) in
      let* widest := ReadCell aspectRatio in
      if negb (truthy widest) then
        Throw (VError "TypeError: Cannot read properties of null (reading 'ratio')")
      else
        let imageSet :=
          VObj [("sources", sources);
                ("img", fallbackImages);
                ("aspect",
                 VNum (inject_Z (Math_round (num_field "ratio" widest * 100000)%Q)
                       / 100000)%Q)] in
        let* stats := ReadCell statsGeneratedUrls in
        Return (VObj [("imageSet", imageSet);
                      ("generated", VNum (count_values (fun x => x) stats));
                      ("cached", VNum (count_values negb stats))])
  end.
End Process.

End Orchestrator.

(** ** A stand-in platform, for running the model on concrete inputs

    The built-ins the code calls (JSON, sha256, node:path, the image codec)
    are parameters of the model.  To evaluate a run they are instantiated
    here: [stringify] prints JSON text, [parse_among] reads back exactly the
    texts of a list of known values, [digest] is an injective stand-in for
    sha256 (the hexadecimal of the input, padded), and the codec answers from
    a table. *)

Module Demo.
Import Js Loop Store Sizes Orchestrator.

Definition quote : string := String "034"%char EmptyString.

Fixpoint escape (s : string) : string :=
  match s with
  | EmptyString => EmptyString
  | String c rest =>
      if Ascii.eqb c "034"%char || Ascii.eqb c "\"%char
      then String "\"%char (String c (escape rest))
      else String c (escape rest)
  end.

Fixpoint commas (l : list string) : string :=
  match l with
  | [] => EmptyString
  | [x] => x
  | x :: rest => x +:+ "," +:+ commas rest
  end.

Fixpoint stringify (v : value) : string :=
  match v with
  | VNull | VUndefined | VError _ | VMap _ | VBuiltin _ => "null"
  | VBool b => if b then "true" else "false"
  | VNum q => pretty (Qfloor q)
  | VStr s => quote +:+ escape s +:+ quote
  | VArr items => "[" +:+ commas (map stringify items) +:+ "]"
  | VObj fields =>
      "{" +:+
      commas (map (fun f => quote +:+ escape f.1 +:+ quote +:+ ":" +:+ stringify f.2)
                  fields) +:+
      "}"
  end.

Definition parse_among (known : list value) (text : string) : option value :=
  find (fun v => String.eqb (stringify v) text) known.

Definition hexdigit (n : N) : ascii :=
  match n with
  | 0 => "0" | 1 => "1" | 2 => "2" | 3 => "3" | 4 => "4" | 5 => "5"
  | 6 => "6" | 7 => "7" | 8 => "8" | 9 => "9" | 10 => "a" | 11 => "b"
  | 12 => "c" | 13 => "d" | 14 => "e" | _ => "f"
  end%N%char.

Fixpoint hex (s : string) : string :=
  match s with
  | EmptyString => EmptyString
  | String c rest =>
      String (hexdigit (N.div (N_of_ascii c) 16))
        (String (hexdigit (N.modulo (N_of_ascii c) 16)) (hex rest))
  end.

Definition digest (s : string) : string := hex s +:+ "0000000000".

#[export] Instance crypto : Crypto := {| sha256_hex := digest |}.

(** POSIX paths over clean segments.  The model of [mkdir] keeps no
    directories, so the runs below do not depend on what [dirname] returns. *)
#[export] Instance path : Path :=
  {| sep := "/"%char; join := fun a b => a +:+ "/" +:+ b; dirname := fun p => p |}.

#[export] Instance codec : Codec :=
  {| imagemin_webp := fun data resize quality =>
       match resize with
       | Some (w, _) => "webp@" +:+ pretty (Qfloor w)
       | None => "webp"
       end;
     sharp_metadata := fun data =>
       match data with
       | "webp@300" => (Some "webp", Some 300%Q, Some 200%Q)
       | "webp@600" => (Some "webp", Some 600%Q, Some 400%Q)
       | "webp@1200" => (Some "webp", Some 1200%Q, Some 800%Q)
       | "webp@2400" => (Some "webp", Some 2400%Q, Some 1600%Q)
       | _ => (None, None, None)
       end;
     sharp_fileSuffix := fun id => Some ".webp";
     sharp_composite := fun data text => data |}.

Definition asset (h w : Q) (src : string) : value :=
  VObj [("height", VNum h); ("width", VNum w); ("src", VStr src)].

(** The rendered assets of [request] below, for bytes and for a path. *)
Definition assets (dir file : string) : list value :=
  [ asset 200 300 ("/img/" +:+ dir +:+ "/" +:+ file +:+ "-30}.webp");
    asset 400 600 ("/img/" +:+ dir +:+ "/" +:+ file +:+ "-60}.webp");
    asset 800 1200 ("/img/" +:+ dir +:+ "/" +:+ file +:+ "-120}.webp");
    asset 1600 2400 ("/img/" +:+ dir +:+ "/" +:+ file +:+ "-240}.webp") ].

Definition known : list value :=
  [VObj []; VArr [VStr "a"]] ++ assets "4a" "50454700" ++ assets "70" "686f746f".

#[export] Instance json : Json :=
  {| JSON_parse := parse_among known; JSON_stringify := stringify |}.

Definition blob : StorageBlob := SimpleFileStorageBlob "cache.json" ".".

Definition with_file (path content : string) (h : heap) : heap :=
  set_files <[path := content]> h.

(** A fresh persistent cache: the file holds the empty object. *)
Definition fresh : sched := initial (with_file "cache.json" "{}" empty_heap).

(** A factory that returns a new value at each call: it counts its calls
    in the program state. *)
Definition stamp : FactoryFunction :=
  SyncFactory (fun key h =>
    (Fulfilled (VStr (pretty (S (length (cells h))))),
     set_cells (fun c => c ++ [VNull]) h)).

Definition request (store : StringKeyValueStore) (input : InputImage)
    (sequential : bool) (threshold : Q) : ImageResizeRequest :=
  {| processedImageCacheStore := store;
     outputDirectory := "out";
     publicPathPrefix := "/img";
     customOutputNameGenerator := None;
     customStorageWriter := None;
     Orchestrator.sequential := sequential;
     sizeThreshold := threshold;
     inputImage := input;
     pixelDensities := [1%Q; 2%Q];
     breakpoints := demo_breakpoints |}.

(** A store that only records the keys it is asked for. *)
Definition probe : StringKeyValueStore :=
  {| get := fun key => Return VUndefined;
     set := fun key v => Return VUndefined;
     getOrCreate := fun key factory =>
       Emit (KeyRequested key);; Return VNull |}.

(** A request that sends its keys to [probe]. *)
Definition probing (input : InputImage) : ImageResizeRequest :=
  request probe input true 1.

(** The name the claim C4 describes, read as generously as its words allow:
    the subdirectory is the first two characters of the content hash of the
    rendered bytes ([resizedImage.hash]), and the filename starts with all
    the remaining characters of that hash; what follows them (the rounded
    width, an extension) is left open. *)
Definition claimed_outputName `{Path} (resizedImage : value) (name : string) : Prop :=
  let hash := str_field "hash" resizedImage in
  ∃ tail, name = join (substring 0 2 hash)
                      (substring 2 (String.length hash - 2) hash +:+ tail).

(** The text [["a"]]: a JSON array of one string. *)
Definition array_text : string := "[" +:+ quote +:+ "a" +:+ quote +:+ "]".

(** Options with an [onLoadError] hook (it does nothing; its calls show in
    the trace). *)
Definition hooked : StorageStringKeyValueCacheOptions :=
  {| onUpdate := None;
     onLoadError := Some (fun e h => (Fulfilled VUndefined, h));
     onSaveError := None |}.

(** How often the trace shows the factory of [key] being called. *)
Definition factory_calls (key : string) (t : list event) : nat :=
  length (List.filter (fun e => match e with
                           | FactoryCalled k => String.eqb k key
                           | _ => false
                           end) t).

Definition onUpdate_calls (t : list event) : nat :=
  length (List.filter (fun e => match e with OnUpdateCalled _ _ => true | _ => false end) t).

Definition codec_calls (t : list event) : nat :=
  length (List.filter (fun e => match e with CodecCalled _ => true | _ => false end) t).

(** A persistent store that has loaded and holds "k" with the value "v",
    with nothing left to run. *)
Definition settled : sched :=
  run 40 (spawn (Storage.set blob no_options "k" (VStr "v")) fresh).2.

Definition boom : FactoryFunction :=
  SyncFactory (fun _ h => (Rejected (VError "boom"), h)).

Definition constant (v : value) : FactoryFunction :=
  SyncFactory (fun _ h => (Fulfilled v, h)).

(** The store the orchestrator runs use. *)
Definition persistent : StringKeyValueStore := Storage.store blob no_options.

(** The four entries that the rendering of [request] at the widths 300,
    600, 1200 and 2400 would leave in the cache, for the input bytes
    [input]. *)
Definition cached_entries (input dir file : string) : list (string * value) :=
  map (fun wa => (cacheKey (digest input) wa.1 None, VStr (stringify wa.2)))
      (zip [300; 600; 1200; 2400]%Z (assets dir file)).

(** A persistent cache that holds these entries for the bytes "JPEG": they
    are put there with [set], one call after the other. *)
Definition filled : sched :=
  fold_left (fun s kv => run 40 (spawn (Storage.set blob no_options kv.1 kv.2) s).2)
            (cached_entries "JPEG" "4a" "50454700") fresh.

(** The [generated] and [cached] fields of a response. *)
Definition counters (o : option outcome) : option (value * value) :=
  match o with
  | Some (Fulfilled response) =>
      Some (field "generated" response, field "cached" response)
  | _ => None
  end.

(** A rendered image of 805 pixels with the content hash [hash]. *)
Definition rendered (hash : string) : value :=
  VObj [("ext", VStr ".webp"); ("width", VNum 805); ("height", VNum 537);
        ("data", VStr "RIFF"); ("hash", VStr hash)].

End Demo.

(** ** What the theorems say about a run *)

Module Observe.
Import Js Loop Store.

(** The trace of [s'] is the trace of [s] with more at its end. *)
Definition extends (s s' : sched) : Prop := ∃ more, trace s' = trace s ++ more.

(** The two ways a factory fails: an ordinary function that throws, an
    asynchronous one whose promise is rejected. *)
Inductive throws (e : value) : FactoryFunction → Prop :=
| throws_sync : throws e (SyncFactory (fun _ h => (Rejected e, h)))
| throws_async : throws e (AsyncFactory (fun _ => Throw e)).

(** The two ways a factory succeeds with the value [v]. *)
Inductive returns (v : value) : FactoryFunction → Prop :=
| returns_sync : returns v (SyncFactory (fun _ h => (Fulfilled v, h)))
| returns_async : returns v (AsyncFactory (fun _ => Return v)).

(** A factory that returns or fails, one way or the other. *)
Definition settles (factory : FactoryFunction) : Prop :=
  (∃ v, returns v factory) ∨ (∃ e, throws e factory).

(** The runtime store has nothing under [key]: [this.data[key]] is
    [undefined]. *)
Definition vacant (s : sched) (key : string) : Prop :=
  data_get key (state s) = AValue VUndefined.

(** The persistent store has loaded its data: [this.data] is a promise that
    has settled with the map [m], whose entries are [entries]. *)
Definition loaded (s : sched) (m : nat) (entries : list (string * nat)) : Prop :=
  ∃ dp, storage_data (state s) = Some dp ∧
        promises s !! dp = Some (Settled (Fulfilled (VMap m))) ∧
        maps (state s) !! m = Some entries.

(** The value the store holds for [key]: what the key's promise has settled
    with, or [undefined] for a key that is not there. *)
Definition holds (s : sched) (entries : list (string * nat)) (key : string)
    (existing : value) : Prop :=
  match alist_get key entries with
  | Some p => promises s !! p = Some (Settled (Fulfilled existing))
  | None => existing = VUndefined
  end.

(** [after] is [before], then the call [onUpdate(key, value, save)], then
    whatever followed; with the default [onUpdate] what followed starts with
    the call of [save]. *)
Definition notified (options : StorageStringKeyValueCacheOptions)
    (key : string) (value : value) (before after : list event) : Prop :=
  ∃ more,
    after = before ++ [OnUpdateCalled key value] ++ more ∧
    (onUpdate options = None → ∃ more', more = SaveCalled :: more').

(** The error [load] raises for the content of the blob, if it raises
    one: the file is missing, its text is no JSON, the parsed value is falsy
    or not of type object, or one of its values is not a string. *)
Definition load_error `{Json} (content : option string) : option value :=
  match content with
  | None => Some (VError "ENOENT: no such file or directory")
  | Some text =>
      match JSON_parse text with
      | None => Some (VError "SyntaxError: the text is not JSON")
      | Some data =>
          if negb (truthy data) || negb (typeof_object data) then
            Some (VError "does not contain a JSON-formatted object.")
          else if existsb (fun x => negb (is_string x.2)) (Object_entries data) then
            Some (VError "Stored data contains non-string values.")
          else None
      end
  end.

(** [report] is what the report of the load error [e] adds to the trace:
    with a hook, the call of the hook (and, if the hook throws, a line on
    the console); without one, a line on the console. *)
Definition reported (options : StorageStringKeyValueCacheOptions) (e : value)
    (report : list event) : Prop :=
  match onLoadError options with
  | Some _ => ∃ rest, report = OnLoadErrorCalled e :: rest
  | None =>
      report =
        [ConsoleError ("SimpleFileKeyValueCache - load error: " +:+ error_text e)]
  end.

End Observe.

(** ** resize-image.ts, with all its options *)

Module Resize.
Import Js Store Orchestrator.

(** [ImageResizeOptions] of types.ts: each field may be absent. *)
Record ImageResizeOptions : Type := {
  width : option Q;
  height : option Q;
  quality : option Q;
}.

(** Whether an optional number is truthy: it is there and is not 0. *)
Definition given (x : option Q) : bool :=
  match x with
  | Some q => negb (Qeq_bool q 0)
  | None => false
  end.

(** [x || d] on an optional number. *)
Definition or_else (x : option Q) (d : Q) : Q :=
  match x with
  | Some q => if Qeq_bool q 0 then d else q
  | None => d
  end.

(** [if (debugText)]: the text, when it is there and not empty. *)
Definition debug_text (debugText : option string) : option string :=
  match debugText with
  | Some text => if String.eqb text EmptyString then None else Some text
  | None => None
  end.

Section ResizeImage.
Context `{Crypto} `{Codec}.

(** [imageminOptions.resize] *)
Definition resize_option (options : ImageResizeOptions) : option (Q * Q) :=
  if given (width options) || given (height options)
  then Some (or_else (width options) 0, or_else (height options) 0)
  else None.

(** Lines 46-67: the codec is run on [rawData], and the result is read
    back. *)
Definition minify (options : ImageResizeOptions) (rawData : string) : async :=
  Emit (CodecCalled (default 0%Q (width options)));;
  let* minifying :=
    StartIO (fun h =>
      (Fulfilled (VStr (imagemin_webp rawData (resize_option options)
                          (or_else (quality options) 85))), h)) in
  let* resizedData := await (APromise minifying) in
  let resizedData := to_str resizedData in
  let hash := sha256_hex resizedData in
  let* reading :=
    StartIO (fun h =>
      let '(formatId, w, h') := sharp_metadata resizedData in
      (Fulfilled (VObj [("format", match formatId with
                                   | Some f => VStr f
                                   | None => VUndefined
                                   end);
                        ("width", optional_num w);
                        ("height", optional_num h')]), h)) in
  let* metadata := await (APromise reading) in
  if negb (truthy (field "format" metadata)) then
    Throw (VError "Cannot parse resulting file - unknown output file extension")
  else
    let formatId := str_field "format" metadata in
    let ext := match sharp_fileSuffix formatId with
               | Some suffix => suffix
               | None => "." +:+ formatId
               end in
    if negb (truthy (field "width" metadata))
       || negb (truthy (field "height" metadata)) then
      Throw (VError "Cannot transform image, unknown output width or height.")
    else
      Return (VObj [("ext", VStr ext);
                    ("width", field "width" metadata);
                    ("height", field "height" metadata);
                    ("data", VStr resizedData);
                    ("hash", VStr hash)]).

(** [resizeImage(rawData, options = {}, debugText?)] *)
Definition resizeImage (rawData : string) (options : ImageResizeOptions)
    (debugText : option string) : async :=
  match debug_text debugText with
  | Some text =>
      let* reading :=
        StartIO (fun h =>
          let '(_, w, h') := sharp_metadata rawData in
          (Fulfilled (VObj [("width", optional_num w);
                            ("height", optional_num h')]), h)) in
      let* metadata := await (APromise reading) in
      if negb (truthy (field "width" metadata))
         || negb (truthy (field "height" metadata)) then
        Throw (VError "Expected width and height in image metadata.")
      else
        let* drawing :=
          StartIO (fun h => (Fulfilled (VStr (sharp_composite rawData text)), h)) in
        let* drawn := await (APromise drawing) in
        minify options (to_str drawn)
  | None => minify options rawData
  end.

End ResizeImage.

(** The options of the orchestrator's call: [{ width: maxWidth }]. *)
Definition width_only (maxWidth : Q) : ImageResizeOptions :=
  {| width := Some maxWidth; height := None; quality := None |}.

(** What [resizeImage] returns for the rendered bytes [data] whose metadata
    are [format], [w] and [h]. *)
Definition ResizedImage `{Crypto} `{Codec} (data format : string) (w h : Q) : value :=
  VObj [("ext", VStr (default ("." +:+ format) (sharp_fileSuffix format)));
        ("width", VNum w);
        ("height", VNum h);
        ("data", VStr data);
        ("hash", VStr (sha256_hex data))].

End Resize.

(** ** Shapes of the scheduler's state while a [Promise.all] runs

    The lemmas about [Promise.all] over a list of any length describe the
    promises and the job queue with these functions. *)

Module Gather.
Import Js Loop Store.

Definition fulfilled (v : value) : pstate := Settled (Fulfilled v).

(** The jobs of a [Promise.all] whose elements [vs] have settled: one per
    slot, from slot [i] on. *)
Fixpoint slot_jobs (agg i : nat) (vs : list value) : list (reaction * outcome) :=
  match vs with
  | [] => []
  | v :: rest => (AllSlot agg i, Fulfilled v) :: slot_jobs agg (S i) rest
  end.

(** The function suspended in [async ([k, v]) => [k, await v]]. *)
Definition each_k (key : string) : outcome → async :=
  fun o => match o with
           | Fulfilled v => Return (VArr [VStr key; v])
           | Rejected e => Throw e
           end.

Fixpoint each_jobs (base : nat) (kvs : list (string * value))
  : list (reaction * outcome) :=
  match kvs with
  | [] => []
  | (key, v) :: rest => (Resume (each_k key) base, Fulfilled v) :: each_jobs (S base) rest
  end.

(** Pending promises, each waited for by one slot of a [Promise.all]. *)
Fixpoint slots (agg i n : nat) : list pstate :=
  match n with
  | O => []
  | S n' => Pending [AllSlot agg i] :: slots agg (S i) n'
  end.

Definition pair (kv : string * value) : value := VArr [VStr kv.1; kv.2].

(** A body inside a [try] block, or outside of one. *)
Definition wrap (handler : option (value → async)) (body : async) : async :=
  match handler with
  | Some h => try_catch body h
  | None => body
  end.

(** The map [entries] holds the values [kvs]: each promise has been
    fulfilled. *)
Definition contents (ps : list pstate) (entries : list (string * nat))
    (kvs : list (string * value)) : Prop :=
  Forall2 (fun e kv => e.1 = kv.1 ∧ ps !! e.2 = Some (Settled (Fulfilled kv.2)))
          entries kvs.

(** [Map.prototype.set], seen on the values. *)
Fixpoint kv_set (key : string) (v : value) (kvs : list (string * value))
  : list (string * value) :=
  match kvs with
  | [] => [(key, v)]
  | (k, x) :: rest =>
      if String.eqb k key then (k, v) :: rest else (k, x) :: kv_set key v rest
  end.

(** The entries [load] makes of the fields of the parsed object: one new
    promise per field, from [base] on. *)
Fixpoint resolved (base : nat) (fields : list (string * value))
  : list (string * nat) :=
  match fields with
  | [] => []
  | (key, _) :: rest => (key, base) :: resolved (S base) rest
  end.

(** The values that [save] writes: those that are not [undefined]. *)
Definition defined (kvs : list (string * value)) : list (string * value) :=
  List.filter (fun kv => negb (is_undefined kv.2)) kvs.

End Gather.

(** ** More sample inputs *)

Module Samples.
Import Js Loop Store Sizes Orchestrator Demo.

(** A blob that holds an object of one string, and a parser that reads its
    text. *)
Definition stored_fields : list (string * value) := [("k", VStr "v")].

Definition json : Json :=
  {| JSON_parse := parse_among [VObj stored_fields]; JSON_stringify := stringify |}.

Definition stored : sched :=
  initial (with_file "cache.json" (stringify (VObj stored_fields)) empty_heap).

(** A request of which every breakpoint has a [maxWidth]. *)
Definition no_fallback : ImageResizeRequest :=
  {| processedImageCacheStore := Runtime.store;
     outputDirectory := "out";
     publicPathPrefix := "/img";
     customOutputNameGenerator := None;
     customStorageWriter := None;
     sequential := true;
     sizeThreshold := 1;
     inputImage := ImageBytes "JPEG";
     pixelDensities := [1%Q; 2%Q];
     breakpoints := [ {| maxWidth := Some 600%Q; imageWidth := 300%Q |} ] |}.

(** A request that keeps its cache in a runtime store. *)
Definition in_memory : ImageResizeRequest :=
  request Runtime.store (ImageBytes "JPEG") true 1.

(** The key of the rendering at 300 pixels. *)
Definition rendered_key : string :=
  cacheKey (sha256_hex (hashed_input (inputImage in_memory))) 300 None.

(** A runtime store that holds the asset of that rendering under its key. *)
Definition remembered : sched :=
  (spawn (Runtime.set rendered_key
            (VStr (stringify (asset 200 300 "/img/4a/50454700-30}.webp"))))
         (initial empty_heap)).2.

(** A runtime store that holds [null] under that key. *)
Definition nulled : sched :=
  (spawn (Runtime.set rendered_key VNull) (initial empty_heap)).2.

(** Options that ask for a width of 300 pixels, and no options. *)
Definition narrow : Resize.ImageResizeOptions :=
  {| Resize.width := Some 300%Q; Resize.height := None; Resize.quality := None |}.

Definition plain : Resize.ImageResizeOptions :=
  {| Resize.width := None; Resize.height := None; Resize.quality := None |}.

(** Options whose [onUpdate] fails. *)
Definition failing_update : StorageStringKeyValueCacheOptions :=
  {| onUpdate := Some (fun _ _ _ => Throw (VError "offline"));
     onLoadError := None; onSaveError := None |}.

End Samples.

(** * Properties *)

(** ** Size consolidation *)

Module SizesFacts.
Import Sizes.

Lemma render_inj (a b : Q) : render a = render b → (a == b)%Q.
Proof.
  unfold render. intros H.
  assert (Hr : Qred a = Qred b).
  { destruct (Qred a), (Qred b). simpl in H. congruence. }
  rewrite <- (Qred_correct a), <- (Qred_correct b), Hr. reflexivity.
Qed.

Lemma render_complete (a b : Q) : (a == b)%Q → render a = render b.
Proof. intros H. unfold render. rewrite (Qred_complete _ _ H). reflexivity. Qed.

Lemma Math_round_comp (a b : Q) : (a == b)%Q → Math_round a = Math_round b.
Proof. intros H. unfold Math_round. apply Qfloor_comp. rewrite H. reflexivity. Qed.

Lemma key_requested (s : SizeSpec) (w d : Q) :
  sizeSpecKey (width s) (density s) = sizeSpecKey w d →
  requested s = Math_round (w * d).
Proof.
  unfold sizeSpecKey, requested. intros H.
  assert (Hw : (width s == w)%Q) by (apply render_inj; congruence).
  assert (Hd : (density s == d)%Q) by (apply render_inj; congruence).
  apply Math_round_comp. rewrite Hw, Hd. reflexivity.
Qed.

Lemma In_allSizes breakpoints pixelDensities s :
  In s (allSizes breakpoints pixelDensities) ↔
  ∃ bp d, In bp breakpoints ∧ In d pixelDensities ∧
    s = {| density := d; width := imageWidth bp;
           actualWidth := Math_round (imageWidth bp * d) |}.
Proof.
  unfold allSizes. rewrite in_flat_map. split.
  - intros (bp & Hbp & Hs). apply in_map_iff in Hs as (d & <- & Hd). eauto.
  - intros (bp & d & Hbp & Hd & ->). exists bp. split; [done|].
    apply in_map_iff. eauto.
Qed.

Lemma allSizes_requested breakpoints pixelDensities s :
  In s (allSizes breakpoints pixelDensities) → actualWidth s = requested s.
Proof. rewrite In_allSizes. intros (bp & d & _ & _ & ->). reflexivity. Qed.

(** *** The sort *)

Lemma In_insert_desc x y l : In y (insert_desc x l) ↔ y = x ∨ In y l.
Proof.
  induction l as [|z l IH]; simpl.
  - intuition.
  - destruct (actualWidth z <? actualWidth x)%Z; simpl; [intuition|].
    rewrite IH. intuition.
Qed.

Lemma insert_desc_sorted x l :
  StronglySorted desc l → StronglySorted desc (insert_desc x l).
Proof.
  induction 1 as [|z l Hl IH Hz]; simpl.
  - repeat constructor.
  - destruct (Z.ltb_spec (actualWidth z) (actualWidth x)).
    + constructor; [by constructor|].
      constructor; [unfold desc; lia|].
      eapply Forall_impl; [exact Hz|]. unfold desc. intros; simpl in *. lia.
    + constructor; [done|].
      apply List.Forall_forall. intros y Hy. apply In_insert_desc in Hy as [->|Hy].
      * unfold desc; lia.
      * rewrite List.Forall_forall in Hz. by apply Hz.
Qed.

Lemma sort_desc_spec_aux l acc :
  StronglySorted desc acc →
  StronglySorted desc (fold_left (fun acc x => insert_desc x acc) l acc) ∧
  ∀ y, In y (fold_left (fun acc x => insert_desc x acc) l acc) ↔ In y l ∨ In y acc.
Proof.
  revert acc. induction l as [|x l IH]; simpl; intros acc Hacc.
  - split; [done|]. intuition.
  - destruct (IH (insert_desc x acc) (insert_desc_sorted x acc Hacc)) as [Hs Hin].
    split; [done|]. intros y. rewrite Hin, In_insert_desc. intuition.
Qed.

Lemma sort_desc_sorted l : StronglySorted desc (sort_desc l).
Proof. apply sort_desc_spec_aux. constructor. Qed.

Lemma In_sort_desc l y : In y (sort_desc l) ↔ In y l.
Proof.
  unfold sort_desc. destruct (sort_desc_spec_aux l [] (SSorted_nil _)) as [_ H].
  rewrite H. simpl. intuition.
Qed.

(** *** The consolidation loop *)

Lemma same_key_requested (a b : SizeSpec) :
  sizeSpecKey (width a) (density a) = sizeSpecKey (width b) (density b) →
  requested a = requested b.
Proof. intros H. by rewrite (key_requested a _ _ H). Qed.

Lemma absorbs_threshold_one (t : Q) (last size : SizeSpec) :
  (t == 1)%Q → absorbs t last size = true →
  (actualWidth last ≤ actualWidth size)%Z.
Proof.
  unfold absorbs. intros Ht H. apply Qle_bool_iff in H.
  rewrite Ht, Qmult_1_r in H. by rewrite <- Zle_Qle in H.
Qed.

Section Loop.
Variable all : list SizeSpec.
Hypothesis all_requested : ∀ s, In s all → actualWidth s = requested s.
Variable sizeThreshold : Q.

Lemma inv_init rest : inv all sizeThreshold (None, ∅) rest.
Proof.
  split; [done|]. split; [done|].
  intros k spec H. simpl in H. by rewrite lookup_empty in H.
Qed.

Lemma kept_insert_other m u k v :
  kept all m u → sizeSpecKey (width u) (density u) ≠ k → kept all (<[k := v]> m) u.
Proof.
  intros (Hin & su & Hsu & Hw) Hne. split; [done|]. exists su.
  by rewrite lookup_insert_ne.
Qed.

Lemma kept_insert_same m u k v :
  In u all → sizeSpecKey (width u) (density u) = k →
  actualWidth v = actualWidth u → kept all (<[k := v]> m) u.
Proof.
  intros Hin <- Hw. split; [done|]. exists v. by rewrite lookup_insert_eq.
Qed.

Lemma inv_step st size rest :
  inv all sizeThreshold st (size :: rest) → In size all →
  (∀ s, In s rest → (actualWidth s ≤ actualWidth size)%Z) →
  inv all sizeThreshold (consolidate_step sizeThreshold st size) rest.
Proof.
  destruct st as [last m]. intros (Hnone & Hlast & Hent) Hin Hrest.
  pose proof (all_requested size Hin) as Hown.
  unfold consolidate_step.
  set (K := sizeSpecKey (width size) (density size)).
  destruct last as [L|].
  - destruct (Hlast L eq_refl) as [HkL HbL].
    assert (HsL : (actualWidth size ≤ actualWidth L)%Z) by (apply HbL; by left).
    assert (Hu : ∀ u, kept all m u → (actualWidth L ≤ actualWidth u)%Z →
              sizeSpecKey (width u) (density u) = K →
              actualWidth u = actualWidth size ∧ actualWidth L = actualWidth size).
    { intros u [Hu _] Hle Hk.
      rewrite (all_requested u Hu), (same_key_requested u size Hk), <- Hown in *.
      lia. }
    destruct (absorbs sizeThreshold L size) eqn:Habs.
    + set (spec' := {| density := density size; width := width size;
                       actualWidth := actualWidth L |}).
      assert (HkL' : kept all (<[K := spec']> m) L).
      { destruct (decide (sizeSpecKey (width L) (density L) = K)) as [e|n].
        - apply kept_insert_same; [apply HkL|done|done].
        - by apply kept_insert_other. }
      split; [done|]. split.
      { intros L' [= <-]. split; [done|]. intros s Hs. apply HbL. by right. }
      intros k spec Hk. simpl in Hk.
      destruct (decide (K = k)) as [<-|Hne].
      * rewrite lookup_insert_eq in Hk. injection Hk as <-.
        split; [done|]. split; [unfold requested in *; simpl; lia|].
        split.
        { intros Ht. pose proof (absorbs_threshold_one _ _ _ Ht Habs).
          unfold requested in *; simpl; lia. }
        exists L. split; [done|]. split; [done|].
        split.
        { destruct HkL as [HL _]. rewrite <- (all_requested L HL).
          unfold requested in *; simpl; lia. }
        intros L' [= <-]. lia.
      * rewrite lookup_insert_ne in Hk by done.
        destruct (Hent k spec Hk) as (Hkey & Hreq & Hone & u & Hku & Hwu & Hru & Hbu).
        split; [done|]. split; [done|]. split; [done|].
        exists u. simpl in *. split; [|done].
        destruct (decide (sizeSpecKey (width u) (density u) = K)) as [e|n].
        -- destruct (Hu u Hku (Hbu L eq_refl) e) as [Hu1 Hu2].
           apply kept_insert_same; [apply Hku|done|]. simpl. lia.
        -- by apply kept_insert_other.
    + assert (Hks : kept all (<[K := size]> m) size)
        by (by apply kept_insert_same).
      split; [done|]. split.
      { intros L' [= <-]. by split. }
      intros k spec Hk. simpl in Hk.
      destruct (decide (K = k)) as [<-|Hne].
      * rewrite lookup_insert_eq in Hk. injection Hk as <-.
        split; [done|]. split; [lia|]. split; [done|].
        exists size. split; [done|]. split; [done|]. split; [lia|].
        intros L' [= <-]. lia.
      * rewrite lookup_insert_ne in Hk by done.
        destruct (Hent k spec Hk) as (Hkey & Hreq & Hone & u & Hku & Hwu & Hru & Hbu).
        split; [done|]. split; [done|]. split; [done|].
        exists u. simpl in *. specialize (Hbu L eq_refl).
        split; [|split; [done|split; [done|intros L' [= <-]; lia]]].
        destruct (decide (sizeSpecKey (width u) (density u) = K)) as [e|n].
        -- destruct (Hu u Hku Hbu e) as [Hu1 Hu2].
           apply kept_insert_same; [apply Hku|done|]. lia.
        -- by apply kept_insert_other.
  - assert (Hks : kept all (<[K := size]> m) size)
      by (by apply kept_insert_same).
    split; [done|]. split.
    { intros L' [= <-]. by split. }
    intros k spec Hk. pose proof (Hnone eq_refl) as Hm. simpl in Hk, Hm. subst m.
    destruct (decide (K = k)) as [<-|Hne].
    * rewrite lookup_insert_eq in Hk. injection Hk as <-.
      split; [done|]. split; [lia|]. split; [done|].
      exists size. split; [done|]. split; [done|]. split; [lia|].
      intros L' [= <-]. lia.
    * rewrite lookup_insert_ne in Hk by done. by rewrite lookup_empty in Hk.
Qed.

Lemma inv_loop sizes st :
  inv all sizeThreshold st sizes → (∀ s, In s sizes → In s all) →
  StronglySorted desc sizes →
  inv all sizeThreshold (consolidate_loop sizeThreshold sizes st) [].
Proof.
  revert st. induction sizes as [|size rest IH]; intros st Hinv Hall Hs.
  - done.
  - simpl. inversion Hs as [|? ? Hs' Hd]; subst.
    apply IH; [|intros s Hin; apply Hall; by right|done].
    apply inv_step; [done|by apply Hall; left|].
    rewrite List.Forall_forall in Hd. exact Hd.
Qed.

(** Every processed size leaves an entry under its key. *)
Lemma step_keeps_keys st size k :
  is_Some (st.2 !! k) →
  is_Some ((consolidate_step sizeThreshold st size).2 !! k).
Proof.
  destruct st as [[L|] m]; simpl; [destruct (absorbs _ _ _)|]; simpl;
    intros H; rewrite lookup_insert; case_decide; eauto.
Qed.

Lemma step_adds_key st size :
  is_Some ((consolidate_step sizeThreshold st size).2
             !! sizeSpecKey (width size) (density size)).
Proof.
  destruct st as [[L|] m]; simpl; [destruct (absorbs _ _ _)|]; simpl;
    rewrite lookup_insert_eq; eauto.
Qed.

Lemma loop_keeps_keys sizes st k :
  is_Some (st.2 !! k) →
  is_Some ((consolidate_loop sizeThreshold sizes st).2 !! k).
Proof.
  revert st. induction sizes as [|size rest IH]; intros st H; [done|].
  simpl. apply IH. by apply step_keeps_keys.
Qed.

Lemma loop_adds_keys sizes st s :
  In s sizes →
  is_Some ((consolidate_loop sizeThreshold sizes st).2
             !! sizeSpecKey (width s) (density s)).
Proof.
  revert st. induction sizes as [|size rest IH]; intros st; [done|].
  intros [->|Hin]; simpl.
  - apply loop_keeps_keys, step_adds_key.
  - by apply IH.
Qed.
End Loop.

Lemma consolidatedSizes_inv breakpoints pixelDensities sizeThreshold :
  inv (allSizes breakpoints pixelDensities) sizeThreshold
      (consolidate_loop sizeThreshold
         (sort_desc (allSizes breakpoints pixelDensities)) (None, ∅)) [].
Proof.
  apply inv_loop.
  - apply allSizes_requested.
  - apply inv_init.
  - intros s. by rewrite In_sort_desc.
  - apply sort_desc_sorted.
Qed.

(** C8.  For a threshold in (0, 1], the width recorded for a pair
    (nominal width, density) is never below the width the pair asked for,
    round(nominalWidth * density). *)
Theorem consolidated_width_ge_requested
    breakpoints pixelDensities sizeThreshold (w d : Q) (spec : SizeSpec) :
  (0 < sizeThreshold)%Q → (sizeThreshold <= 1)%Q →
  consolidatedSizes breakpoints pixelDensities sizeThreshold
    !! sizeSpecKey w d = Some spec →
  (Math_round (w * d) ≤ actualWidth spec)%Z.
Proof.
  intros _ _ Hk.
  destruct (consolidatedSizes_inv breakpoints pixelDensities sizeThreshold)
    as (_ & _ & Hent).
  destruct (Hent _ _ Hk) as (Hkey & Hreq & _).
  by rewrite <- (key_requested spec w d (eq_sym Hkey)).
Qed.

Lemma consolidated_width_ge_requested_witness :
  (Math_round (300 * 1) ≤
   actualWidth {| density := 1; width := 300; actualWidth := 600 |})%Z.
Proof.
  apply (consolidated_width_ge_requested demo_breakpoints [1%Q; 2%Q] (1 # 2)).
  - reflexivity.
  - vm_compute. discriminate.
  - vm_compute. reflexivity.
Defined.

(** C9.  With threshold 1 and pairwise distinct enumerated widths, every key
    of the consolidated map carries the unconsolidated width, and every
    enumerated pair has its key in the map. *)
Theorem threshold_one_is_identity breakpoints pixelDensities :
  NoDup (map actualWidth (allSizes breakpoints pixelDensities)) →
  (∀ (w d : Q) (spec : SizeSpec),
     consolidatedSizes breakpoints pixelDensities 1 !! sizeSpecKey w d = Some spec →
     actualWidth spec = Math_round (w * d)) ∧
  (∀ bp d, In bp breakpoints → In d pixelDensities →
     ∃ spec, consolidatedSizes breakpoints pixelDensities 1
               !! sizeSpecKey (imageWidth bp) d = Some spec ∧
             actualWidth spec = Math_round (imageWidth bp * d)).
Proof.
  intros _.
  destruct (consolidatedSizes_inv breakpoints pixelDensities 1) as (_ & _ & Hent).
  assert (Hid : ∀ (w d : Q) (spec : SizeSpec),
     consolidatedSizes breakpoints pixelDensities 1 !! sizeSpecKey w d = Some spec →
     actualWidth spec = Math_round (w * d)).
  { intros w d spec Hk. destruct (Hent _ _ Hk) as (Hkey & _ & Hone & _).
    rewrite Hone by reflexivity. by apply key_requested. }
  split; [exact Hid|].
  intros bp d Hbp Hd.
  destruct (loop_adds_keys 1 (sort_desc (allSizes breakpoints pixelDensities))
              (None, ∅)
              {| density := d; width := imageWidth bp;
                 actualWidth := Math_round (imageWidth bp * d) |}) as [spec Hs].
  { apply In_sort_desc, In_allSizes. eauto. }
  exists spec. split; [exact Hs|]. by apply Hid.
Qed.

Lemma threshold_one_is_identity_witness :
  (∀ (w d : Q) (spec : SizeSpec),
     consolidatedSizes demo_breakpoints [1%Q; 2%Q] 1 !! sizeSpecKey w d = Some spec →
     actualWidth spec = Math_round (w * d)) ∧
  (∀ bp d, In bp demo_breakpoints → In d [1%Q; 2%Q] →
     ∃ spec, consolidatedSizes demo_breakpoints [1%Q; 2%Q] 1
               !! sizeSpecKey (imageWidth bp) d = Some spec ∧
             actualWidth spec = Math_round (imageWidth bp * d)).
Proof.
  apply (threshold_one_is_identity demo_breakpoints [1%Q; 2%Q]).
  refine (bool_decide_unpack _ _). vm_compute. exact I.
Defined.

(** C10.  Every width stored in the consolidated map is round(imageWidth *
    density) of an enumerated (breakpoint, density) pair; that pair is at
    least as wide as the entry's own pair, and the map records the pair's
    width unchanged under the pair's own key. *)
Theorem consolidated_width_is_enumerated
    breakpoints pixelDensities sizeThreshold (w d : Q) (spec : SizeSpec) :
  consolidatedSizes breakpoints pixelDensities sizeThreshold
    !! sizeSpecKey w d = Some spec →
  ∃ bp d',
    In bp breakpoints ∧ In d' pixelDensities ∧
    actualWidth spec = Math_round (imageWidth bp * d') ∧
    (Math_round (w * d) ≤ Math_round (imageWidth bp * d'))%Z ∧
    ∃ spec',
      consolidatedSizes breakpoints pixelDensities sizeThreshold
        !! sizeSpecKey (imageWidth bp) d' = Some spec' ∧
      actualWidth spec' = Math_round (imageWidth bp * d').
Proof.
  intros Hk.
  destruct (consolidatedSizes_inv breakpoints pixelDensities sizeThreshold)
    as (_ & _ & Hent).
  destruct (Hent _ _ Hk) as (Hkey & _ & _ & u & [Hu (su & Hsu & Hwu)] & Hw & Hru & _).
  apply In_allSizes in Hu as (bp & d' & Hbp & Hd' & ->). simpl in *.
  exists bp, d'. split; [done|]. split; [done|]. split; [done|].
  split; [by rewrite <- (key_requested spec w d (eq_sym Hkey))|].
  exists su. by split.
Qed.

Lemma consolidated_width_is_enumerated_witness :
  ∃ bp d',
    In bp demo_breakpoints ∧ In d' [1%Q; 2%Q] ∧
    actualWidth {| density := 1; width := 300; actualWidth := 600 |}
      = Math_round (imageWidth bp * d') ∧
    (Math_round (300 * 1) ≤ Math_round (imageWidth bp * d'))%Z ∧
    ∃ spec',
      consolidatedSizes demo_breakpoints [1%Q; 2%Q] (1 # 2)
        !! sizeSpecKey (imageWidth bp) d' = Some spec' ∧
      actualWidth spec' = Math_round (imageWidth bp * d').
Proof.
  apply (consolidated_width_is_enumerated demo_breakpoints [1%Q; 2%Q] (1 # 2)).
  vm_compute. reflexivity.
Defined.
End SizesFacts.

Module LoopFacts.
Import Js Loop Store Observe.

(** *** The trace only grows *)

Lemma extends_refl s : extends s s.
Proof. exists []. by rewrite app_nil_r. Qed.

Lemma extends_trans s1 s2 s3 : extends s1 s2 → extends s2 s3 → extends s1 s3.
Proof. intros [a Ha] [b Hb]. exists (a ++ b). by rewrite Hb, Ha, app_assoc. Qed.

Lemma extends_same s s' : trace s' = trace s → extends s s'.
Proof. intros H. exists []. by rewrite app_nil_r. Qed.

Lemma trace_settle p o s : trace (settle p o s) = trace s.
Proof. unfold settle. by destruct (promises s !! p) as [[]|]. Qed.

Lemma trace_subscribe a r s : trace (subscribe a r s) = trace s.
Proof.
  destruct a as [p|v]; simpl; [|done].
  by destruct (promises s !! p) as [[]|].
Qed.

Lemma trace_subscribe_all agg i ps s : trace (subscribe_all agg i ps s) = trace s.
Proof.
  revert i s. induction ps as [|p ps IH]; intros i s; [done|].
  cbn [subscribe_all]. by rewrite IH, trace_subscribe.
Qed.

Lemma exec_extends body : ∀ r s, extends s (exec body r s).
Proof.
  induction body as [v|e|a k IH|A f k IH|v k IH|e k IH|body IHb k IH
                    |ps k IH|op k IH|e k IH]; intros r s; cbn [exec].
  - apply extends_same, trace_settle.
  - apply extends_same, trace_settle.
  - apply extends_same, trace_subscribe.
  - destruct (f (state s)) as [a h]. eapply extends_trans; [|apply IH]. by apply extends_same.
  - eapply extends_trans; [|apply IH]. by apply extends_same.
  - eapply extends_trans; [|apply IH]. by apply extends_same.
  - eapply extends_trans; [|apply IH]. eapply extends_trans; [|apply IHb].
    by apply extends_same.
  - eapply extends_trans; [|apply IH]. apply extends_same.
    destruct ps; [by rewrite trace_settle|by rewrite trace_subscribe_all].
  - eapply extends_trans; [|apply IH]. by apply extends_same.
  - eapply extends_trans; [|apply IH]. by exists [e].
Qed.

Lemma turn_extends s s' : turn s = Some s' → extends s s'.
Proof.
  unfold turn. destruct (jobs s) as [|[[k r|agg i] o] rest] eqn:Hj.
  - destruct (io s) as [|[p op] rest]; [done|]. intros [= <-].
    unfold complete_io. simpl. destruct (op (state s)) as [o h].
    apply extends_same. by rewrite trace_settle.
  - intros [= <-]. simpl. eapply extends_trans; [|apply exec_extends].
    by apply extends_same.
  - intros [= <-]. simpl. unfold all_slot. simpl.
    destruct (aggregates s !! agg) as [a|]; [|by apply extends_same].
    destruct o as [v|e]; [|apply extends_same; by rewrite trace_settle].
    destruct (agg_open a) as [|[|n]]; simpl;
      apply extends_same; by rewrite ?trace_settle.
Qed.

Lemma run_extends n : ∀ s, extends s (run n s).
Proof.
  induction n as [|n IH]; intros s; simpl; [apply extends_refl|].
  destruct (turn s) as [s'|] eqn:Ht; [|apply extends_refl].
  eapply extends_trans; [by apply turn_extends|apply IH].
Qed.

Lemma run_add n m s : run (n + m) s = run m (run n s).
Proof.
  revert s. induction n as [|n IH]; intros s; simpl; [done|].
  destruct (turn s) as [s'|] eqn:Ht; [apply IH|].
  destruct m; simpl; [done|]. by rewrite Ht.
Qed.

(** Whatever the run has emitted stays in the trace of every later state. *)
Lemma run_keeps n m s t :
  n ≤ m → trace (run n s) = t → ∃ more, trace (run m s) = t ++ more.
Proof.
  intros Hle <-. replace m with (n + (m - n)) by lia. rewrite run_add.
  apply run_extends.
Qed.

(** *** Running the model on a state that is only partly known

    The promises of the state are written [old ++ new]: [old] is what the
    state held at the start, [new] what the run has allocated since; a
    promise of the run is named [length old + i]. *)

Lemma lookup_app_add {A} (l1 l2 : list A) (i : nat) :
  (l1 ++ l2) !! (length l1 + i) = l2 !! i.
Proof. rewrite lookup_app_r by lia. f_equal. lia. Qed.

Section Framed.
Context (h : heap) (old new : list pstate) (ag : list aggregate)
        (js : list (reaction * outcome)) (ios : list (nat * sync_fn))
        (tr : list event).

Lemma new_promise_framed st :
  new_promise st (Build_sched h (old ++ new) ag js ios tr)
  = (length old + length new, Build_sched h (old ++ (new ++ [st])) ag js ios tr).
Proof.
  unfold new_promise, with_promises. simpl. by rewrite length_app, <- app_assoc.
Qed.

Lemma settle_new i o waiting :
  new !! i = Some (Pending waiting) →
  settle (length old + i) o (Build_sched h (old ++ new) ag js ios tr)
  = Build_sched h (old ++ <[i := Settled o]> new) ag
      (js ++ map (fun r => (r, o)) waiting) ios tr.
Proof.
  intros Hi. unfold settle. simpl. rewrite lookup_app_add, Hi.
  unfold with_jobs, with_promises. simpl. by rewrite insert_app_r.
Qed.

Lemma settle_new_settled i o o' :
  new !! i = Some (Settled o') →
  settle (length old + i) o (Build_sched h (old ++ new) ag js ios tr)
  = Build_sched h (old ++ new) ag js ios tr.
Proof. intros Hi. unfold settle. simpl. by rewrite lookup_app_add, Hi. Qed.

Lemma subscribe_value v r :
  subscribe (AValue v) r (Build_sched h (old ++ new) ag js ios tr)
  = Build_sched h (old ++ new) ag (js ++ [(r, Fulfilled v)]) ios tr.
Proof. done. Qed.

Lemma subscribe_new_pending i r waiting :
  new !! i = Some (Pending waiting) →
  subscribe (APromise (length old + i)) r (Build_sched h (old ++ new) ag js ios tr)
  = Build_sched h (old ++ <[i := Pending (waiting ++ [r])]> new) ag js ios tr.
Proof.
  intros Hi. unfold subscribe. simpl. rewrite lookup_app_add, Hi.
  unfold with_promises. simpl. by rewrite insert_app_r.
Qed.

Lemma subscribe_new_settled i r o :
  new !! i = Some (Settled o) →
  subscribe (APromise (length old + i)) r (Build_sched h (old ++ new) ag js ios tr)
  = Build_sched h (old ++ new) ag (js ++ [(r, o)]) ios tr.
Proof. intros Hi. unfold subscribe. simpl. by rewrite lookup_app_add, Hi. Qed.

Lemma subscribe_old_settled p r o :
  old !! p = Some (Settled o) →
  subscribe (APromise p) r (Build_sched h (old ++ new) ag js ios tr)
  = Build_sched h (old ++ new) ag (js ++ [(r, o)]) ios tr.
Proof.
  intros Hp. unfold subscribe. simpl.
  by rewrite (lookup_app_l_Some _ _ _ _ Hp).
Qed.

Lemma result_of_new i :
  result_of (length old + i) (Build_sched h (old ++ new) ag js ios tr)
  = match new !! i with Some (Settled o) => Some o | _ => None end.
Proof. unfold result_of. simpl. by rewrite lookup_app_add. Qed.
End Framed.

Lemma run_job_step n h ps ag j js ios tr :
  run (S n) (Build_sched h ps ag (j :: js) ios tr)
  = run n (run_job j (Build_sched h ps ag js ios tr)).
Proof. done. Qed.

Lemma run_io_step n h ps ag p op ios tr :
  run (S n) (Build_sched h ps ag [] ((p, op) :: ios) tr)
  = run n (complete_io p op (Build_sched h ps ag [] ios tr)).
Proof. done. Qed.

Lemma run_0 s : run 0 s = s.
Proof. done. Qed.

Lemma run_idle n h ps ag tr :
  run n (Build_sched h ps ag [] [] tr) = Build_sched h ps ag [] [] tr.
Proof. by destruct n. Qed.

(** The map object [m] of a state whose maps are [<[m := l]> ms]. *)
Section Maps.
Context (rd : gmap string nat) (sd : option nat) (ms : list (list (string * nat)))
        (cs : list value) (fs : gmap string string) (pr : option nat)
        (m : nat) (l : list (string * nat)).
Hypothesis Hm : m < length ms.

Lemma Map_get_at key :
  Map_get m key (Build_heap rd sd (<[m := l]> ms) cs fs pr) = alist_get key l.
Proof. unfold Map_get, Map_entries. simpl. by rewrite list_lookup_insert_eq. Qed.

Lemma Map_entries_at :
  Map_entries m (Build_heap rd sd (<[m := l]> ms) cs fs pr) = l.
Proof. unfold Map_entries. simpl. by rewrite list_lookup_insert_eq. Qed.

Lemma Map_set_at key p :
  Map_set m key p (Build_heap rd sd (<[m := l]> ms) cs fs pr)
  = Build_heap rd sd (<[m := alist_set key p l]> ms) cs fs pr.
Proof.
  unfold Map_set, Map_entries, set_maps. simpl.
  by rewrite list_lookup_insert_eq, list_insert_insert_eq.
Qed.

Lemma Map_delete_at key :
  Map_delete m key (Build_heap rd sd (<[m := l]> ms) cs fs pr)
  = (present (alist_get key l),
     Build_heap rd sd (<[m := alist_delete key l]> ms) cs fs pr).
Proof.
  unfold Map_delete, Map_get, Map_entries, set_maps. simpl.
  by rewrite list_lookup_insert_eq, list_insert_insert_eq.
Qed.
End Maps.

#[global] Arguments new_promise : simpl never.
#[global] Arguments settle : simpl never.
#[global] Arguments subscribe : simpl never.
#[global] Arguments result_of : simpl never.
#[global] Arguments run : simpl never.
#[global] Arguments Map_get : simpl never.
#[global] Arguments Map_set : simpl never.
#[global] Arguments Map_delete : simpl never.
#[global] Arguments Map_entries : simpl never.
#[global] Arguments data_get : simpl never.
#[global] Arguments data_set : simpl never.
#[global] Arguments data_delete : simpl never.

(** One step of symbolic execution. *)
Ltac frame_step :=
  first
    [ progress cbn
    | progress unfold with_state, with_promises, with_jobs, with_io,
        with_aggregates, with_trace
    | rewrite new_promise_framed
    | rewrite subscribe_value
    | erewrite settle_new by reflexivity
    | erewrite settle_new_settled by reflexivity
    | erewrite subscribe_new_pending by reflexivity
    | erewrite subscribe_new_settled by reflexivity
    | erewrite subscribe_old_settled by eassumption
    | rewrite Map_get_at by assumption
    | rewrite Map_set_at by assumption
    | rewrite Map_delete_at by assumption
    | rewrite Map_entries_at by assumption
    | rewrite run_job_step
    | rewrite run_io_step
    | rewrite run_idle
    | rewrite run_0
    | rewrite result_of_new ].

Ltac frame_run := repeat frame_step.

End LoopFacts.

Module StoreFacts.
Import Js Loop Store Observe Demo LoopFacts.

Lemma alist_get_set_eq key p l : alist_get key (alist_set key p l) = Some p.
Proof.
  induction l as [|[k q] l IH]; simpl.
  - by rewrite String.eqb_refl.
  - destruct (String.eqb k key) eqn:E; simpl; by rewrite E.
Qed.

Lemma alist_delete_set_absent key p l :
  alist_get key l = None → alist_delete key (alist_set key p l) = l.
Proof.
  induction l as [|[k q] l IH]; simpl.
  - by rewrite String.eqb_refl.
  - destruct (String.eqb k key) eqn:E; [done|]. simpl. rewrite E.
    intros H. by rewrite IH.
Qed.

(** Brings a state into the form the symbolic run works on. *)
Ltac open_state s Hidle :=
  destruct s as [[rd sd ms cs fs pr] old ag js ios tr];
  destruct Hidle as [Hjobs Hio]; cbn in Hjobs, Hio; subst js ios;
  rewrite <- (app_nil_r old).

(** A key under which [data] has nothing is not owned, and is not
    ['__proto__']. *)
Lemma vacant_inv h key :
  data_get key h = AValue VUndefined →
  runtime_data h !! key = None ∧ String.eqb key "__proto__" = false ∧
  inherited (runtime_proto h) key = AValue VUndefined.
Proof.
  unfold data_get, inherited. destruct (runtime_data h !! key); [done|].
  destruct (String.eqb key "__proto__"); [by destruct (runtime_proto h)|done].
Qed.

(** A miss of the runtime store: the factory is called, and whatever it
    returns or throws, the caller gets the TypeError of [promise.resolve];
    the key is deleted again. *)
Lemma Runtime_miss (s : sched) (key : string) (factory : FactoryFunction) :
  idle s → vacant s key → settles factory →
  let '(caller, s0) := spawn (Runtime.getOrCreate key factory) s in
  let s1 := run 2 s0 in
  idle s1 ∧
  result_of caller s1 = Some (Rejected TypeError_resolve) ∧
  state s1 = state s ∧
  trace s1 = trace s ++ [FactoryCalled key].
Proof.
  intros Hidle Hkey Hsettles. unfold vacant in Hkey.
  destruct (vacant_inv _ _ Hkey) as (Hown & Hproto & Hchain).
  open_state s Hidle. cbn in Hkey, Hown.
  unfold spawn, Runtime.getOrCreate, defer, promise_resolve.
  destruct Hsettles as [[v []]|[e []]];
    frame_run; rewrite Hkey; frame_run;
    unfold data_set, data_delete, set_runtime_data; cbn; rewrite Hown, Hproto; cbn;
    frame_run; rewrite (delete_insert_id _ _ _ Hown); done.
Qed.

Lemma Runtime_retry (s : sched) (key : string) (retry : FactoryFunction) n :
  idle s → vacant s key → 1 ≤ n →
  ∃ more,
    trace (run n (spawn (Runtime.getOrCreate key retry) s).2)
    = trace s ++ [FactoryCalled key] ++ more.
Proof.
  intros Hidle Hkey Hn. unfold vacant in Hkey.
  assert (H1 : ∃ more, trace (run 1 (spawn (Runtime.getOrCreate key retry) s).2)
                       = (trace s ++ [FactoryCalled key]) ++ more).
  { open_state s Hidle. cbn in Hkey.
    unfold spawn, Runtime.getOrCreate, defer.
    frame_run; rewrite Hkey; frame_run.
    match goal with |- ∃ more, trace (exec ?p ?r ?s) = _ =>
      destruct (exec_extends p r s) as [more Hmore]; exists more; by rewrite Hmore end. }
  destruct H1 as [more1 H1].
  destruct (run_keeps 1 n _ _ Hn H1) as [more2 H2].
  exists (more1 ++ more2). by rewrite H2, <- !app_assoc.
Qed.

(** The same preparation for the persistent store, which has loaded. *)
Ltac open_loaded s Hidle Hloaded :=
  destruct s as [[rd sd ms cs fs pr] old ag js ios tr];
  destruct Hidle as [Hjobs Hio]; cbn in Hjobs, Hio; subst js ios;
  destruct Hloaded as (dp & Hsd & Hdp & Hm); cbn in Hsd, Hdp, Hm; subst sd;
  pose proof (lookup_lt_Some _ _ _ Hm) as Hlen;
  rewrite <- (app_nil_r old);
  rewrite <- (list_insert_id ms _ _ Hm).

Lemma notified_intro options key value before t more :
  t = (before ++ [OnUpdateCalled key value]) ++ more →
  (onUpdate options = None → ∃ more', more = SaveCalled :: more') →
  notified options key value before t.
Proof. intros -> Hsave. exists more. by rewrite <- app_assoc. Qed.

Lemma notified_later options key value before s0 N n :
  N ≤ n →
  notified options key value before (trace (run N s0)) →
  notified options key value before (trace (run n s0)).
Proof.
  intros Hn (more & Ht & Hsave). destruct (run_keeps N n _ _ Hn Ht) as [more2 H2].
  exists (more ++ more2). split; [by rewrite H2, <- !app_assoc|].
  intros Hnone. destruct (Hsave Hnone) as [more' ->]. by exists (more' ++ more2).
Qed.

Section Persistent.
Context (storageBlob : StorageBlob) (options : StorageStringKeyValueCacheOptions).
Context `{Json}.

(** A miss of the persistent store: the factory is called, and whatever it
    returns or throws, the caller gets the TypeError of [promise.resolve];
    the key is deleted again, and [onUpdate] is not called. *)
Lemma Storage_miss (s : sched) (key : string) (factory : FactoryFunction)
    (m : nat) (entries : list (string * nat)) :
  idle s → loaded s m entries → alist_get key entries = None → settles factory →
  let '(caller, s0) :=
    spawn (Storage.getOrCreate storageBlob options key factory) s in
  let s1 := run 4 s0 in
  idle s1 ∧
  result_of caller s1 = Some (Rejected TypeError_resolve) ∧
  state s1 = state s ∧
  loaded s1 m entries ∧
  trace s1 = trace s ++ [FactoryCalled key].
Proof.
  intros Hidle Hloaded Hkey Hsettles. open_loaded s Hidle Hloaded.
  unfold spawn, Storage.getOrCreate, Storage.getData, defer, promise_resolve.
  destruct Hsettles as [[v []]|[e []]]; frame_run; rewrite Hkey; frame_run;
    rewrite (alist_delete_set_absent _ _ _ Hkey), (list_insert_id ms m _ Hm);
    (repeat split; []);
    (exists dp; cbn; repeat split; [by apply lookup_app_l_Some|done]).
Qed.

Lemma Storage_retry (s : sched) (key : string) (retry : FactoryFunction)
    (m : nat) (entries : list (string * nat)) n :
  idle s → loaded s m entries → alist_get key entries = None → 3 ≤ n →
  ∃ more,
    trace (run n (spawn (Storage.getOrCreate storageBlob options key retry) s).2)
    = trace s ++ [FactoryCalled key] ++ more.
Proof.
  intros Hidle Hloaded Hkey Hn.
  assert (H3 : ∃ more,
    trace (run 3 (spawn (Storage.getOrCreate storageBlob options key retry) s).2)
    = (trace s ++ [FactoryCalled key]) ++ more).
  { open_loaded s Hidle Hloaded.
    unfold spawn, Storage.getOrCreate, Storage.getData, defer.
    frame_run; rewrite Hkey; frame_run.
    match goal with |- ∃ more, trace (exec ?p ?r ?s) = _ =>
      destruct (exec_extends p r s) as [more Hmore]; exists more; by rewrite Hmore
    end. }
  destruct H3 as [more1 H3].
  destruct (run_keeps 3 n _ _ Hn H3) as [more2 H2].
  exists (more1 ++ more2). by rewrite H2, <- !app_assoc.
Qed.

(** The end of a symbolic run that has reached the call of [onUpdate]:
    the trace is read off; what a handler of the caller goes on to do is
    covered by [exec_extends]. *)
Ltac read_notified :=
  rewrite ?trace_subscribe, ?trace_settle;
  try match goal with |- context [trace (exec ?p ?r ?s)] =>
        let more := fresh "more" in
        let Hmore := fresh "Hmore" in
        destruct (exec_extends p r s) as [more Hmore];
        rewrite Hmore
      end;
  cbn [trace];
  eapply notified_intro;
    [ reflexivity
    | cbn; first [ discriminate | intros _; eexists; reflexivity ] ].

Lemma Storage_set_notifies (s : sched) (m : nat) (entries : list (string * nat))
    (key : string) (value existing : value) n :
  idle s → loaded s m entries → 3 ≤ n →
  is_undefined value = false → holds s entries key existing →
  strict_eq existing value = false →
  notified options key value (trace s)
    (trace (run n (spawn (Storage.set storageBlob options key value) s).2)).
Proof.
  intros Hidle Hloaded Hn Hv Hheld Hne. unfold holds in Hheld.
  apply (notified_later _ _ _ _ _ 3); [lia|].
  open_loaded s Hidle Hloaded. cbn in Hheld.
  unfold spawn, Storage.set, Storage.getData, Storage.call_onUpdate.
  destruct options as [[handler|] ole ose];
    destruct (alist_get key entries) as [p|] eqn:Hkey.
  - frame_run; rewrite Hv; frame_run; rewrite Hkey; frame_run;
      rewrite Hne; frame_run. read_notified.
  - frame_run; rewrite Hv; frame_run; rewrite Hkey; frame_run.
    destruct value; try discriminate Hv; frame_run; read_notified.
  - frame_run; rewrite Hv; frame_run; rewrite Hkey; frame_run;
      rewrite Hne; frame_run. read_notified.
  - frame_run; rewrite Hv; frame_run; rewrite Hkey; frame_run.
    destruct value; try discriminate Hv; frame_run; read_notified.
Qed.

Lemma Storage_remove_notifies (s : sched) (m : nat) (entries : list (string * nat))
    (key : string) n :
  idle s → loaded s m entries → 2 ≤ n →
  present (alist_get key entries) = true →
  notified options key VUndefined (trace s)
    (trace (run n (spawn (Storage.set storageBlob options key VUndefined) s).2)).
Proof.
  intros Hidle Hloaded Hn Hkey.
  apply (notified_later _ _ _ _ _ 2); [lia|].
  open_loaded s Hidle Hloaded.
  unfold spawn, Storage.set, Storage.getData, Storage.call_onUpdate.
  destruct options as [[handler|] ole ose];
    frame_run; rewrite Hkey; frame_run; read_notified.
Qed.

Lemma Storage_set_same_is_quiet (s : sched) (m : nat) (entries : list (string * nat))
    (key : string) (value existing : value) :
  idle s → loaded s m entries →
  is_undefined value = false → holds s entries key existing →
  strict_eq existing value = true →
  let '(caller, s0) := spawn (Storage.set storageBlob options key value) s in
  let s1 := run 3 s0 in
  idle s1 ∧ trace s1 = trace s ∧ result_of caller s1 = Some (Fulfilled VUndefined).
Proof.
  intros Hidle Hloaded Hv Hheld Heq. unfold holds in Hheld.
  open_loaded s Hidle Hloaded. cbn in Hheld.
  unfold spawn, Storage.set, Storage.getData.
  destruct (alist_get key entries) as [p|] eqn:Hkey.
  - frame_run; rewrite Hv; frame_run; rewrite Hkey; frame_run;
      rewrite Heq; frame_run. by repeat split.
  - subst existing. destruct value; discriminate.
Qed.

Lemma Storage_remove_absent_is_quiet (s : sched) (m : nat)
    (entries : list (string * nat)) (key : string) :
  idle s → loaded s m entries → alist_get key entries = None →
  let '(caller, s0) := spawn (Storage.set storageBlob options key VUndefined) s in
  let s1 := run 3 s0 in
  idle s1 ∧ trace s1 = trace s ∧ result_of caller s1 = Some (Fulfilled VUndefined).
Proof.
  intros Hidle Hloaded Hkey.
  open_loaded s Hidle Hloaded.
  unfold spawn, Storage.set, Storage.getData.
  frame_run; rewrite Hkey; frame_run. by repeat split.
Qed.

Lemma Storage_hit_is_quiet (s : sched) (m : nat) (entries : list (string * nat))
    (key : string) (existing : value) (factory : FactoryFunction) :
  idle s → loaded s m entries →
  present (alist_get key entries) = true → holds s entries key existing →
  is_undefined existing = false →
  let '(caller, s0) :=
    spawn (Storage.getOrCreate storageBlob options key factory) s in
  let s1 := run 3 s0 in
  idle s1 ∧ trace s1 = trace s ∧ result_of caller s1 = Some (Fulfilled existing).
Proof.
  intros Hidle Hloaded Hthere Hheld Hdef. unfold holds in Hheld.
  open_loaded s Hidle Hloaded. cbn in Hheld.
  unfold spawn, Storage.getOrCreate, Storage.getData.
  destruct (alist_get key entries) as [p|] eqn:Hkey; [|discriminate].
  frame_run; rewrite Hkey; frame_run; rewrite Hdef; frame_run. by repeat split.
Qed.
End Persistent.

(** C5.  A [getOrCreate] whose factory throws: the key is left without an
    entry, so that a later [getOrCreate] of the same key calls its factory
    again; but the caller does not get the factory's error.  The [catch]
    block calls [promise.resolve(undefined)] before it rethrows, and that
    call throws: the caller gets "promise.resolve is not a function", whatever
    the factory has thrown.  For both stores, in a state where nothing else
    is running. *)
Theorem failed_factory_reaches_the_caller_as_a_TypeError
    (storageBlob : StorageBlob) (options : StorageStringKeyValueCacheOptions)
    `{Json} (s : sched) (key : string) (e : value)
    (failing retry : FactoryFunction) (m : nat) (entries : list (string * nat)) :
  idle s → throws e failing →
  vacant s key →
  loaded s m entries → alist_get key entries = None →
  (let '(caller, s0) := spawn (Runtime.getOrCreate key failing) s in
   let s1 := run 2 s0 in
   idle s1 ∧
   result_of caller s1 = Some (Rejected TypeError_resolve) ∧
   vacant s1 key ∧
   ∀ n, 1 ≤ n →
     ∃ more, trace (run n (spawn (Runtime.getOrCreate key retry) s1).2)
             = trace s ++ [FactoryCalled key; FactoryCalled key] ++ more) ∧
  (let '(caller, s0) :=
     spawn (Storage.getOrCreate storageBlob options key failing) s in
   let s1 := run 4 s0 in
   idle s1 ∧
   result_of caller s1 = Some (Rejected TypeError_resolve) ∧
   Map_get m key (state s1) = None ∧
   ∀ n, 3 ≤ n →
     ∃ more, trace (run n (spawn (Storage.getOrCreate storageBlob options key retry)
                             s1).2)
             = trace s ++ [FactoryCalled key; FactoryCalled key] ++ more).
Proof.
  intros Hidle Hthrows Hruntime Hloaded Hkey.
  assert (Hsettles : settles failing) by (right; by exists e).
  split.
  - pose proof (Runtime_miss s key failing Hidle Hruntime Hsettles) as Hfail.
    destruct (spawn (Runtime.getOrCreate key failing) s) as [caller s0].
    destruct Hfail as (Hidle1 & Hresult & Hstate & Htrace).
    assert (Habsent : vacant (run 2 s0) key) by (unfold vacant; by rewrite Hstate).
    split; [done|]. split; [done|]. split; [done|].
    intros n Hn.
    destruct (Runtime_retry _ key retry n Hidle1 Habsent Hn) as [more Hmore].
    exists more. by rewrite Hmore, Htrace, <- app_assoc.
  - pose proof (Storage_miss storageBlob options s key failing m entries
                  Hidle Hloaded Hkey Hsettles) as Hfail.
    destruct (spawn (Storage.getOrCreate storageBlob options key failing) s)
      as [caller s0].
    destruct Hfail as (Hidle1 & Hresult & _ & Hloaded1 & Htrace).
    split; [done|]. split; [done|]. split.
    + destruct Hloaded1 as (dp & _ & _ & Hm).
      unfold Map_get, Map_entries. by rewrite Hm.
    + intros n Hn.
      destruct (Storage_retry storageBlob options _ key retry m entries n
                  Hidle1 Hloaded1 Hkey Hn) as [more Hmore].
      exists more. by rewrite Hmore, Htrace, <- app_assoc.
Qed.

Lemma failed_factory_reaches_the_caller_as_a_TypeError_witness :
  (let '(caller, s0) := spawn (Runtime.getOrCreate "other" Demo.boom) Demo.settled in
   let s1 := run 2 s0 in
   idle s1 ∧
   result_of caller s1 = Some (Rejected TypeError_resolve) ∧
   vacant s1 "other" ∧
   ∀ n, 1 ≤ n →
     ∃ more, trace (run n (spawn (Runtime.getOrCreate "other" Demo.stamp) s1).2)
             = trace Demo.settled
               ++ [FactoryCalled "other"; FactoryCalled "other"] ++ more) ∧
  (let '(caller, s0) :=
     spawn (Storage.getOrCreate Demo.blob no_options "other" Demo.boom) Demo.settled in
   let s1 := run 4 s0 in
   idle s1 ∧
   result_of caller s1 = Some (Rejected TypeError_resolve) ∧
   Map_get 0 "other" (state s1) = None ∧
   ∀ n, 3 ≤ n →
     ∃ more, trace (run n (spawn (Storage.getOrCreate Demo.blob no_options "other"
                                    Demo.stamp) s1).2)
             = trace Demo.settled
               ++ [FactoryCalled "other"; FactoryCalled "other"] ++ more).
Proof.
  apply (failed_factory_reaches_the_caller_as_a_TypeError Demo.blob no_options
           Demo.settled "other" (VError "boom") Demo.boom Demo.stamp 0 [("k", 5)]).
  - vm_compute. split; reflexivity.
  - apply throws_sync.
  - vm_compute. reflexivity.
  - exists 2. vm_compute. repeat split; reflexivity.
  - vm_compute. reflexivity.
Defined.

(** The error the factory threw is not the one the caller gets. *)
Example boom_is_lost :
  let '(caller, s0) := spawn (Runtime.getOrCreate "k" Demo.boom) (initial empty_heap) in
  let s := run 10 s0 in
  idle s ∧
  result_of caller s = Some (Rejected (VError "promise.resolve is not a function")) ∧
  result_of caller s ≠ Some (Rejected (VError "boom")).
Proof. vm_compute. repeat split; try reflexivity. discriminate. Qed.

Lemma run_when_idle n s : idle s → run n s = s.
Proof.
  intros [Hj Hi]. destruct n; [done|].
  change (run (S n) s) with (match turn s with Some s' => run n s' | None => s end).
  unfold turn. by rewrite Hj, Hi.
Qed.

Lemma run_past_idle N n s : N ≤ n → idle (run N s) → run n s = run N s.
Proof.
  intros Hn Hidle. replace n with (N + (n - N)) by lia.
  rewrite run_add. by apply run_when_idle.
Qed.

(** C7, amended.  On a persistent store that has loaded, with nothing else
    running: a [set] that stores a value other than the one the key holds,
    and a [set] that removes a key that is there, each call
    [onUpdate(key, value, save)], and the default [onUpdate] calls [save] at
    once; a [set] that stores the value the key holds already, a [set] that
    removes a key that is not there, and a [getOrCreate] that finds its key
    call nothing. *)
Theorem changes_trigger_onUpdate
    (storageBlob : StorageBlob) (options : StorageStringKeyValueCacheOptions)
    `{Json} (s : sched) (m : nat) (entries : list (string * nat))
    (changed removed absent unchanged : string)
    (value existing same held : value) (factory : FactoryFunction) (n : nat) :
  idle s → loaded s m entries → 3 ≤ n →
  is_undefined value = false → holds s entries changed existing →
  strict_eq existing value = false →
  present (alist_get removed entries) = true →
  alist_get absent entries = None →
  present (alist_get unchanged entries) = true → holds s entries unchanged held →
  is_undefined held = false → is_undefined same = false →
  strict_eq held same = true →
  notified options changed value (trace s)
    (trace (run n (spawn (Storage.set storageBlob options changed value) s).2)) ∧
  notified options removed VUndefined (trace s)
    (trace (run n (spawn (Storage.set storageBlob options removed VUndefined) s).2)) ∧
  trace (run n (spawn (Storage.set storageBlob options unchanged same) s).2)
    = trace s ∧
  trace (run n (spawn (Storage.set storageBlob options absent VUndefined) s).2)
    = trace s ∧
  trace (run n (spawn (Storage.getOrCreate storageBlob options unchanged factory)
                  s).2)
    = trace s.
Proof.
  intros Hidle Hloaded Hn Hvalue Hexisting Hdiffers Hremoved Habsent
    Hunchanged Hheld Hdefined Hsame Hequal.
  split; [by apply (Storage_set_notifies _ _ _ m entries _ _ existing); try lia|].
  split; [by apply (Storage_remove_notifies _ _ _ m entries); try lia|].
  split; [|split].
  - pose proof (Storage_set_same_is_quiet storageBlob options s m entries
                  unchanged same held Hidle Hloaded Hsame Hheld Hequal) as Hq.
    destruct (spawn (Storage.set storageBlob options unchanged same) s)
      as [caller s0].
    destruct Hq as (Hidle1 & Htrace & _). cbn [snd].
    by rewrite (run_past_idle 3 n) by (done || lia).
  - pose proof (Storage_remove_absent_is_quiet storageBlob options s m entries
                  absent Hidle Hloaded Habsent) as Hq.
    destruct (spawn (Storage.set storageBlob options absent VUndefined) s)
      as [caller s0].
    destruct Hq as (Hidle1 & Htrace & _). cbn [snd].
    by rewrite (run_past_idle 3 n) by (done || lia).
  - pose proof (Storage_hit_is_quiet storageBlob options s m entries
                  unchanged held factory Hidle Hloaded Hunchanged Hheld Hdefined)
      as Hq.
    destruct (spawn (Storage.getOrCreate storageBlob options unchanged factory) s)
      as [caller s0].
    destruct Hq as (Hidle1 & Htrace & _). cbn [snd].
    by rewrite (run_past_idle 3 n) by (done || lia).
Qed.

Lemma changes_trigger_onUpdate_witness :
  notified no_options "k" (VStr "w") (trace Demo.settled)
    (trace (run 4 (spawn (Storage.set Demo.blob no_options "k" (VStr "w"))
                     Demo.settled).2)) ∧
  notified no_options "k" VUndefined (trace Demo.settled)
    (trace (run 4 (spawn (Storage.set Demo.blob no_options "k" VUndefined)
                     Demo.settled).2)) ∧
  trace (run 4 (spawn (Storage.set Demo.blob no_options "k" (VStr "v"))
                  Demo.settled).2)
    = trace Demo.settled ∧
  trace (run 4 (spawn (Storage.set Demo.blob no_options "new" VUndefined)
                  Demo.settled).2)
    = trace Demo.settled ∧
  trace (run 4 (spawn (Storage.getOrCreate Demo.blob no_options "k"
                         (Demo.constant (VStr "x"))) Demo.settled).2)
    = trace Demo.settled.
Proof.
  apply (changes_trigger_onUpdate Demo.blob no_options Demo.settled 0 [("k", 5)]
           "k" "k" "new" "k" (VStr "w") (VStr "v") (VStr "v") (VStr "v")
           (Demo.constant (VStr "x")) 4).
  - vm_compute. split; reflexivity.
  - exists 2. vm_compute. repeat split; reflexivity.
  - lia.
  - reflexivity.
  - vm_compute. reflexivity.
  - reflexivity.
  - reflexivity.
  - reflexivity.
  - reflexivity.
  - vm_compute. reflexivity.
  - reflexivity.
  - reflexivity.
  - reflexivity.
Defined.

(** C7, as stated, fails: a [set] that stores the value the key already has,
    a [set] that removes an absent key, and a [getOrCreate] that finds the
    key all succeed without a call of [onUpdate]. *)
Lemma quiet_calls_skip_onUpdate :
  let '(_, s0) := spawn (Storage.set Demo.blob no_options "k" (VStr "v")) Demo.fresh in
  let s1 := run 40 s0 in
  let '(again, s2) := spawn (Storage.set Demo.blob no_options "k" (VStr "v")) s1 in
  let s3 := run 40 s2 in
  let '(removal, s4) := spawn (Storage.set Demo.blob no_options "absent" VUndefined) s3 in
  let s5 := run 40 s4 in
  let '(hit, s6) := spawn (Storage.getOrCreate Demo.blob no_options "k" Demo.stamp) s5 in
  let s7 := run 40 s6 in
  idle s1 ∧ idle s3 ∧ idle s5 ∧ idle s7 ∧
  Demo.onUpdate_calls (trace s1) = 1 ∧
  result_of again s3 = Some (Fulfilled VUndefined) ∧
  Demo.onUpdate_calls (trace s3) = 1 ∧
  result_of removal s5 = Some (Fulfilled VUndefined) ∧
  Demo.onUpdate_calls (trace s5) = 1 ∧
  result_of hit s7 = Some (Fulfilled (VStr "v")) ∧
  Demo.onUpdate_calls (trace s7) = 1.
Proof. vm_compute. repeat split; reflexivity. Qed.

(** C1.  Two [getOrCreate] calls with the same key, made one after the
    other without an await between them on a fresh cache, both run the
    factory, and neither caller gets a value: both are rejected with the
    TypeError of [promise.resolve].  Single flight does not hold, for either
    store. *)
Theorem concurrent_getOrCreate_runs_factory_twice :
  (let '(callers, s0) :=
     spawn_all [Runtime.getOrCreate "k" Demo.stamp; Runtime.getOrCreate "k" Demo.stamp]
               (initial empty_heap) in
   let s := run 10 s0 in
   idle s ∧
   Demo.factory_calls "k" (trace s) = 2 ∧
   map (fun r => result_of r s) callers =
     [Some (Rejected TypeError_resolve); Some (Rejected TypeError_resolve)]) ∧
  (let '(callers, s0) :=
     spawn_all [Storage.getOrCreate Demo.blob no_options "k" Demo.stamp;
                Storage.getOrCreate Demo.blob no_options "k" Demo.stamp] Demo.fresh in
   let s := run 40 s0 in
   idle s ∧
   Demo.factory_calls "k" (trace s) = 2 ∧
   map (fun r => result_of r s) callers =
     [Some (Rejected TypeError_resolve); Some (Rejected TypeError_resolve)]).
Proof. split; vm_compute; repeat split; reflexivity. Qed.

(** The same with three callers. *)
Example three_callers_three_runs :
  let '(callers, s0) :=
    spawn_all [Runtime.getOrCreate "k" Demo.stamp; Runtime.getOrCreate "k" Demo.stamp;
               Runtime.getOrCreate "k" Demo.stamp] (initial empty_heap) in
  Demo.factory_calls "k" (trace (run 10 s0)) = 3.
Proof. vm_compute. reflexivity. Qed.

(** One caller alone fares no better: its factory runs, its value is lost,
    and the key is free again. *)
Example single_caller_is_rejected :
  let '(caller, s0) := spawn (Runtime.getOrCreate "k" Demo.stamp) (initial empty_heap) in
  let s := run 10 s0 in
  idle s ∧
  Demo.factory_calls "k" (trace s) = 1 ∧
  result_of caller s = Some (Rejected TypeError_resolve) ∧
  runtime_data (state s) = ∅.
Proof. vm_compute. repeat split; reflexivity. Qed.

(** A caller that arrives after the placeholder is registered (here: one
    turn later) finds it, and is rejected with the error the placeholder was
    born with; its factory does not run. *)
Example late_caller_is_rejected :
  let '(first, s0) := spawn (Runtime.getOrCreate "k" Demo.stamp) (initial empty_heap) in
  let '(second, s1) := spawn (Runtime.getOrCreate "k" Demo.stamp) (run 1 s0) in
  let s := run 10 s1 in
  idle s ∧
  Demo.factory_calls "k" (trace s) = 1 ∧
  result_of first s = Some (Rejected TypeError_resolve) ∧
  result_of second s = Some (Rejected ReferenceError_defer).
Proof. vm_compute. repeat split; reflexivity. Qed.

Section LoadFailure.
Context (path dir : string) (options : StorageStringKeyValueCacheOptions) `{Json}.

Ltac report_tail :=
frame_run;
try match goal with
    | |- context [?handler ?e ?h] =>
        match type of handler with
        | ErrorHandler => destruct (handler e h) as [[?|?] ?]
        end
    end;
frame_run;
(split; [done|]);
(split; [eexists; split; [rewrite <- ?app_assoc; reflexivity|]; cbn; eauto|]);
eexists; (split; [reflexivity|]); cbn; by apply list_lookup_middle.

(** A load that fails: the file is missing, or its text is not JSON, or the
  parsed value is not of type object, or it has a value that is not a
  string.  The failure is reported, the map is empty, and [getData] is
  fulfilled, never rejected. *)
Lemma load_failure_is_reported (s : sched) (e : value) :
idle s → storage_data (state s) = None →
load_error (files (state s) !! path) = Some e →
let '(caller, s0) :=
  spawn (Storage.getData (SimpleFileStorageBlob path dir) options false) s in
let s1 := run 4 s0 in
idle s1 ∧
(∃ report, trace s1 = trace s ++ report ∧ reported options e report) ∧
∃ m, result_of caller s1 = Some (Fulfilled (VMap m)) ∧
     maps (state s1) !! m = Some [].
Proof.
intros Hidle Hdata Herror.
destruct s as [[rd sd ms cs fs pr] old ag js ios tr];
destruct Hidle as [Hjobs Hio]; cbn in Hjobs, Hio, Hdata, Herror; subst js ios sd.
rewrite <- (app_nil_r old).
unfold spawn, Storage.getData, Storage.load, reported, load_error in *.
frame_run. unfold complete_io, readFile. cbn.
destruct options as [ou [handler|] ose];
(destruct (fs !! path) as [text|] eqn:Hfile;
 [ frame_run; destruct (JSON_parse text) as [data|] eqn:Hparse;
   [ destruct (negb (truthy data) || negb (typeof_object data)) eqn:Hobject;
     [ injection Herror as <-
     | destruct (existsb _ _) eqn:Hstrings; [injection Herror as <-|discriminate] ]
   | injection Herror as <- ]
 | injection Herror as <- ]);
frame_run; rewrite ?Hobject, ?Hstrings; report_tail.
Qed.
End LoadFailure.

(** C6.  A blob that holds a JSON array of strings is no JSON object, yet
    [load] takes it: nothing is reported, neither to the [onLoadError] hook
    nor to the console, and the map holds the array's items under their
    indices. *)
Theorem array_blob_loads_without_report :
  let start := initial (Demo.with_file "cache.json" Demo.array_text empty_heap) in
  let '(caller, s0) := spawn (Storage.get Demo.blob Demo.hooked "0") start in
  let s := run 20 s0 in
  JSON_parse Demo.array_text = Some (VArr [VStr "a"]) ∧
  idle s ∧
  trace s = [] ∧
  result_of caller s = Some (Fulfilled (VStr "a")).
Proof. vm_compute. repeat split; reflexivity. Qed.

(** A missing blob is reported to the hook, and the map is empty. *)
Example missing_blob_is_reported :
  let '(caller, s0) :=
    spawn (Storage.getData Demo.blob Demo.hooked false) (initial empty_heap) in
  let s := run 20 s0 in
  idle s ∧
  trace s = [OnLoadErrorCalled (VError "ENOENT: no such file or directory")] ∧
  result_of caller s = Some (Fulfilled (VMap 0)) ∧
  maps (state s) = [[]].
Proof. vm_compute. repeat split; reflexivity. Qed.

End StoreFacts.


Module OrchestratorFacts.
Import Js Loop Store Sizes Orchestrator Observe Demo LoopFacts StoreFacts.

(** C2.  The counters are the wrong way round.  On a persistent cache that
    holds the four rendered widths of the request already, a call is served
    from the cache (its run adds nothing to the trace: no factory, no codec,
    no write) and reports generated = 4 and cached = 0. *)
Theorem cache_hits_are_counted_as_generated :
  let image := ImageBytes "JPEG" in
  let '(call, s0) :=
    spawn (processImageRequest (Demo.request Demo.persistent image false (8 # 10)))
          Demo.filled in
  let s1 := run 300 s0 in
  idle Demo.filled ∧ idle s1 ∧
  map fst (Map_entries 0 (state Demo.filled))
    = map (fun w => cacheKey (Demo.digest "JPEG") w None) [300; 600; 1200; 2400]%Z ∧
  trace s1 = trace Demo.filled ∧
  Demo.counters (result_of call s1) = Some (VNum 4, VNum 0).
Proof. vm_compute. repeat split; reflexivity. Qed.

(** Why the cache above is filled with [set]: on a fresh cache the request
    does not get past its first miss.  The first width is rendered and
    written, and then [getOrCreate] fails with the TypeError of
    [promise.resolve]; nothing is stored. *)
Example first_call_on_a_fresh_cache_is_rejected :
  let image := ImageBytes "JPEG" in
  let '(call, s0) :=
    spawn (processImageRequest (Demo.request Demo.persistent image true (8 # 10)))
          Demo.fresh in
  let s1 := run 300 s0 in
  idle s1 ∧
  result_of call s1 = Some (Rejected TypeError_resolve) ∧
  Demo.codec_calls (trace s1) = 1 ∧
  Map_entries 0 (state s1) = [].
Proof. vm_compute. repeat split; reflexivity. Qed.

(** What C1 costs here: with a threshold that merges the two densities of a
    breakpoint onto one width, the parallel mode asks for that width twice
    at once and renders it twice; the sequential mode renders it once. *)
Example parallel_mode_renders_a_width_twice :
  let image := ImageBytes "JPEG" in
  let parallel :=
    run 300 (spawn (processImageRequest
                      (Demo.request Runtime.store image false (1 # 2)))
                   (initial empty_heap)).2 in
  let sequential :=
    run 300 (spawn (processImageRequest
                      (Demo.request Runtime.store image true (1 # 2)))
                   (initial empty_heap)).2 in
  idle parallel ∧ idle sequential ∧
  Demo.codec_calls (trace parallel) = 2 ∧
  Demo.codec_calls (trace sequential) = 1.
Proof. vm_compute. repeat split; reflexivity. Qed.

(** C3.  The key [transformSingleImage] asks the store for is made of the
    hash of [request.inputImage] as it was given: for an image given as
    bytes the hash of the bytes, for an image given as a path the hash of
    the path's characters, whatever bytes the file holds. *)
Theorem cache_key_hashes_the_input_as_given
    `{Crypto} `{Path} `{Codec} `{Json}
    (given fileBytes : string) (maxWidth : Z) (debugText : option string)
    (caller : nat) (s : sched) :
  trace (exec (transformSingleImage given (Demo.probing (ImageBytes given))
                 maxWidth debugText) caller s)
    = trace s ++
      [KeyRequested (sha256_hex given +:+ "@" +:+ pretty maxWidth +:+ ":" +:+
                     default EmptyString debugText)] ∧
  trace (exec (transformSingleImage fileBytes (Demo.probing (ImagePath given))
                 maxWidth debugText) caller s)
    = trace s ++
      [KeyRequested (sha256_hex given +:+ "@" +:+ pretty maxWidth +:+ ":" +:+
                     default EmptyString debugText)].
Proof.
  split; unfold transformSingleImage; cbn; unfold new_promise; cbn;
    by rewrite trace_subscribe, trace_settle.
Qed.

(** On the stand-in platform: a request for the file "photo", whose bytes
    are "JPEG", asks the cache for a key made of the digest of "photo". *)
Example path_request_keys :
  let start :=
    initial (Demo.with_file "photo" "JPEG"
               (Demo.with_file "cache.json" "{}" empty_heap)) in
  let '(_, s0) :=
    spawn (processImageRequest
             (Demo.request Demo.persistent (ImagePath "photo") true (8 # 10)))
          start in
  let s := run 300 s0 in
  idle s ∧
  head (trace s) = Some (FactoryCalled (cacheKey (Demo.digest "photo") 300 None)) ∧
  Demo.digest "photo" ≠ Demo.digest "JPEG".
Proof. vm_compute. repeat split; try reflexivity. discriminate. Qed.

Section Platform.
Context `{Crypto} `{Path} `{Codec} `{Json}.

(** One transform over a runtime store that has nothing under the cache
    key, with the default storage writer: the image is rendered and written,
    and then the store fails with the TypeError of [promise.resolve]. *)
Lemma transformSingleImage_miss
    (s : sched) (inputImage : string) (request : ImageResizeRequest)
    (maxWidth : Z) (format : string) (w h : Q) :
  let rawHash := sha256_hex (hashed_input (Orchestrator.inputImage request)) in
  let key := cacheKey rawHash maxWidth None in
  let data :=
    imagemin_webp inputImage
      (if Qeq_bool (inject_Z maxWidth) 0 then None else Some (inject_Z maxWidth, 0%Q))
      85 in
  let resizedImage :=
    VObj [("ext", VStr (default ("." +:+ format) (sharp_fileSuffix format)));
          ("width", VNum w); ("height", VNum h);
          ("data", VStr data); ("hash", VStr (sha256_hex data))] in
  let outputName :=
    match customOutputNameGenerator request with
    | Some generator => generator rawHash resizedImage
    | None => defaultOutputName rawHash resizedImage
    end in
  let outputPath := join (outputDirectory request) outputName in
  idle s →
  processedImageCacheStore request = Runtime.store →
  customStorageWriter request = None →
  vacant s key →
  sharp_metadata data = (Some format, Some w, Some h) →
  format ≠ EmptyString → ¬ (w == 0)%Q → ¬ (h == 0)%Q →
  let '(transforming, s1) :=
    spawn (transformSingleImage inputImage request maxWidth None) s in
  let s2 := run 12 s1 in
  idle s2 ∧
  result_of transforming s2 = Some (Rejected TypeError_resolve) ∧
  files (state s2) = <[outputPath := data]> (files (state s)) ∧
  runtime_data (state s2) = runtime_data (state s) ∧
  runtime_proto (state s2) = runtime_proto (state s) ∧
  trace s2 = trace s ++ [FactoryCalled key; CodecCalled (inject_Z maxWidth);
                         FileWritten outputPath].
Proof.
  intros rawHash key data resizedImage outputName outputPath
    Hidle Hstore Hwriter Hkey Hmeta Hformat Hw Hh.
  unfold vacant in Hkey. destruct (vacant_inv _ _ Hkey) as (Hown & Hproto & Hchain).
  open_state s Hidle. cbn in Hown, Hchain.
  unfold spawn, transformSingleImage. rewrite Hstore, Hwriter.
  cbn [getOrCreate Runtime.store].
  unfold Runtime.getOrCreate, resizeImage, defer, promise_resolve.
  fold rawHash. fold key.
  frame_run. unfold data_get. cbn. rewrite Hown, Hchain. frame_run.
  unfold data_set, data_delete, set_runtime_data. cbn. rewrite Hown, Hproto. cbn.
  frame_run.
  unfold complete_io. frame_run. unfold complete_io. cbn.
  fold data. rewrite Hmeta. frame_run.
  destruct (String.eqb_spec format EmptyString) as [?|_]; [done|].
  destruct (Qeq_bool w 0) eqn:Ew; [by apply Qeq_bool_iff in Ew|].
  destruct (Qeq_bool h 0) eqn:Eh; [by apply Qeq_bool_iff in Eh|].
  change (match sharp_fileSuffix format with
          | Some suffix => suffix
          | None => "." +:+ format
          end) with (default ("." +:+ format) (sharp_fileSuffix format)).
  frame_run. fold resizedImage. fold outputName. fold outputPath.
  unfold complete_io, mkdir. frame_run.
  unfold complete_io, writeFile. frame_run.
  rewrite (delete_insert_id _ _ _ Hown).
  split; [done|]. split; [done|]. split; [done|]. split; [done|]. split; [done|].
  by rewrite <- !app_assoc.
Qed.

(** The same over a persistent store that has loaded. *)
Lemma transformSingleImage_miss_persistent
    (storageBlob : StorageBlob) (options : StorageStringKeyValueCacheOptions)
    (s : sched) (inputImage : string) (request : ImageResizeRequest)
    (maxWidth : Z) (format : string) (w h : Q)
    (m : nat) (entries : list (string * nat)) :
  let rawHash := sha256_hex (hashed_input (Orchestrator.inputImage request)) in
  let key := cacheKey rawHash maxWidth None in
  let data :=
    imagemin_webp inputImage
      (if Qeq_bool (inject_Z maxWidth) 0 then None else Some (inject_Z maxWidth, 0%Q))
      85 in
  let resizedImage :=
    VObj [("ext", VStr (default ("." +:+ format) (sharp_fileSuffix format)));
          ("width", VNum w); ("height", VNum h);
          ("data", VStr data); ("hash", VStr (sha256_hex data))] in
  let outputName :=
    match customOutputNameGenerator request with
    | Some generator => generator rawHash resizedImage
    | None => defaultOutputName rawHash resizedImage
    end in
  let outputPath := join (outputDirectory request) outputName in
  idle s →
  processedImageCacheStore request = Storage.store storageBlob options →
  customStorageWriter request = None →
  loaded s m entries → alist_get key entries = None →
  sharp_metadata data = (Some format, Some w, Some h) →
  format ≠ EmptyString → ¬ (w == 0)%Q → ¬ (h == 0)%Q →
  let '(transforming, s1) :=
    spawn (transformSingleImage inputImage request maxWidth None) s in
  let s2 := run 14 s1 in
  idle s2 ∧
  result_of transforming s2 = Some (Rejected TypeError_resolve) ∧
  files (state s2) = <[outputPath := data]> (files (state s)) ∧
  loaded s2 m entries ∧
  trace s2 = trace s ++ [FactoryCalled key; CodecCalled (inject_Z maxWidth);
                         FileWritten outputPath].
Proof.
  intros rawHash key data resizedImage outputName outputPath
    Hidle Hstore Hwriter Hloaded Hkey Hmeta Hformat Hw Hh.
  open_loaded s Hidle Hloaded.
  unfold spawn, transformSingleImage. rewrite Hstore, Hwriter.
  cbn [getOrCreate Storage.store].
  unfold Storage.getOrCreate, Storage.getData, resizeImage, defer, promise_resolve.
  fold rawHash. fold key.
  frame_run. unfold set_cells. frame_run. rewrite Hkey. frame_run.
  unfold set_cells. frame_run.
  unfold complete_io. frame_run. unfold complete_io. cbn.
  fold data. rewrite Hmeta. frame_run.
  destruct (String.eqb_spec format EmptyString) as [?|_]; [done|].
  destruct (Qeq_bool w 0) eqn:Ew; [by apply Qeq_bool_iff in Ew|].
  destruct (Qeq_bool h 0) eqn:Eh; [by apply Qeq_bool_iff in Eh|].
  change (match sharp_fileSuffix format with
          | Some suffix => suffix
          | None => "." +:+ format
          end) with (default ("." +:+ format) (sharp_fileSuffix format)).
  frame_run. fold resizedImage. fold outputName. fold outputPath.
  unfold complete_io, mkdir. frame_run.
  unfold complete_io, writeFile. unfold set_files. frame_run.
  rewrite (alist_delete_set_absent _ _ _ Hkey).
  split; [done|]. split; [done|]. split; [done|].
  split; [|by rewrite <- !app_assoc].
  exists dp. cbn. split; [done|].
  split; [by apply lookup_app_l_Some|by rewrite list_lookup_insert_eq].
Qed.

(** C4, amended.  A transform with no [customOutputNameGenerator] writes
    its image under [join] of a subdirectory, the first two characters of
    [rawHash] (the hash of the request's input image, the one the cache key
    starts with), and of a filename made of the next eight characters of
    [rawHash], a dash, floor(width / 10) of the rendered width, a closing
    brace, and the extension of the rendered image.  The cache store is the
    runtime store or the persistent store, and has nothing under the key. *)
Theorem default_output_is_named_after_the_input_hash
    (storageBlob : StorageBlob) (options : StorageStringKeyValueCacheOptions)
    (s : sched) (inputImage : string) (request : ImageResizeRequest)
    (maxWidth : Z) (format : string) (w h : Q)
    (m : nat) (entries : list (string * nat)) :
  let rawHash := sha256_hex (hashed_input (Orchestrator.inputImage request)) in
  let key := cacheKey rawHash maxWidth None in
  let data :=
    imagemin_webp inputImage
      (if Qeq_bool (inject_Z maxWidth) 0 then None else Some (inject_Z maxWidth, 0%Q))
      85 in
  let ext := default ("." +:+ format) (sharp_fileSuffix format) in
  let fileName :=
    substring 2 8 rawHash +:+ "-" +:+ pretty (Qfloor (w / 10)) +:+ "}" +:+ ext in
  let outputPath :=
    join (outputDirectory request) (join (substring 0 2 rawHash) fileName) in
  idle s →
  customOutputNameGenerator request = None →
  customStorageWriter request = None →
  (processedImageCacheStore request = Runtime.store ∧ vacant s key) ∨
  (processedImageCacheStore request = Storage.store storageBlob options ∧
   loaded s m entries ∧ alist_get key entries = None) →
  sharp_metadata data = (Some format, Some w, Some h) →
  format ≠ EmptyString → ¬ (w == 0)%Q → ¬ (h == 0)%Q →
  let '(transforming, s1) :=
    spawn (transformSingleImage inputImage request maxWidth None) s in
  let s2 := run 14 s1 in
  files (state s2) = <[outputPath := data]> (files (state s)) ∧
  trace s2 = trace s ++ [FactoryCalled key; CodecCalled (inject_Z maxWidth);
                         FileWritten outputPath].
Proof.
  intros rawHash key data ext fileName outputPath
    Hidle Hname Hwriter [[Hstore Hkey]|(Hstore & Hloaded & Hkey)] Hmeta Hformat Hw Hh.
  - pose proof (transformSingleImage_miss s inputImage request maxWidth format w h
                  Hidle Hstore Hwriter Hkey Hmeta Hformat Hw Hh) as Hmiss.
    rewrite Hname in Hmiss.
    destruct (spawn (transformSingleImage inputImage request maxWidth None) s)
      as [transforming s1].
    destruct Hmiss as (Hidle2 & _ & Hfiles & _ & _ & Htrace).
    cbv zeta. rewrite (run_past_idle 12 14) by (done || lia).
    split; [exact Hfiles|exact Htrace].
  - pose proof (transformSingleImage_miss_persistent storageBlob options s inputImage
                  request maxWidth format w h m entries
                  Hidle Hstore Hwriter Hloaded Hkey Hmeta Hformat Hw Hh) as Hmiss.
    rewrite Hname in Hmiss.
    destruct (spawn (transformSingleImage inputImage request maxWidth None) s)
      as [transforming s1].
    destruct Hmiss as (_ & _ & Hfiles & _ & Htrace).
    split; [exact Hfiles|exact Htrace].
Qed.
End Platform.

Lemma default_output_is_named_after_the_input_hash_witness :
  let request := Demo.request Runtime.store (ImageBytes "JPEG") true 1 in
  let rawHash := sha256_hex (hashed_input (Orchestrator.inputImage request)) in
  let key := cacheKey rawHash 300 None in
  let data :=
    imagemin_webp "JPEG"
      (if Qeq_bool (inject_Z 300) 0 then None else Some (inject_Z 300, 0%Q)) 85 in
  let ext := default ("." +:+ "webp") (sharp_fileSuffix "webp") in
  let fileName :=
    substring 2 8 rawHash +:+ "-" +:+ pretty (Qfloor (300 / 10)) +:+ "}" +:+ ext in
  let outputPath :=
    join (outputDirectory request) (join (substring 0 2 rawHash) fileName) in
  let '(transforming, s1) :=
    spawn (transformSingleImage "JPEG" request 300 None) (initial empty_heap) in
  let s2 := run 14 s1 in
  files (state s2) = <[outputPath := data]> (files (state (initial empty_heap))) ∧
  trace s2 = trace (initial empty_heap) ++
    [FactoryCalled key; CodecCalled (inject_Z 300); FileWritten outputPath].
Proof.
  apply (default_output_is_named_after_the_input_hash Demo.blob no_options
           (initial empty_heap) "JPEG"
           (Demo.request Runtime.store (ImageBytes "JPEG") true 1) 300 "webp" 300 200
           0 []).
  - split; reflexivity.
  - reflexivity.
  - reflexivity.
  - left. split; reflexivity.
  - reflexivity.
  - discriminate.
  - discriminate.
  - discriminate.
Defined.

(** The same name under the persistent store: on the stand-in platform, the
    file of the 300 pixel rendering of the bytes "JPEG" is written to
    "out/4a/50454700-30}.webp". *)
Example default_output_path_persistent :
  let '(_, s1) :=
    spawn (transformSingleImage "JPEG"
             (Demo.request Demo.persistent (ImageBytes "JPEG") true 1) 300 None)
          Demo.settled in
  files (state (run 14 s1)) !! "out/4a/50454700-30}.webp" = Some "webp@300".
Proof. vm_compute. reflexivity. Qed.

(** On the stand-in platform, over the runtime store, that file is
    "out/4a/50454700-30}.webp". *)
Example default_output_path :
  let '(_, s1) :=
    spawn (transformSingleImage "JPEG"
             (Demo.request Runtime.store (ImageBytes "JPEG") true 1) 300 None)
          (initial empty_heap) in
  files (state (run 12 s1)) !! "out/4a/50454700-30}.webp" = Some "webp@300".
Proof. vm_compute. reflexivity. Qed.

(** C4, as stated, fails: the default name of an 805 pixel wide image is
    "00/11223344-80}.webp".  Its subdirectory comes from the hash of the
    input, not from the content hash of the rendered bytes; and even where
    the two hashes agree the filename holds eight hash characters, not the
    remaining ones. *)
Lemma defaultOutputName_is_not_the_claimed_name :
  defaultOutputName "00112233445566778899" (Demo.rendered "ffeeddccbbaa99887766")
    = "00/11223344-80}.webp" ∧
  ¬ Demo.claimed_outputName (Demo.rendered "ffeeddccbbaa99887766")
      (defaultOutputName "00112233445566778899"
         (Demo.rendered "ffeeddccbbaa99887766")) ∧
  ¬ Demo.claimed_outputName (Demo.rendered "00112233445566778899")
      (defaultOutputName "00112233445566778899"
         (Demo.rendered "00112233445566778899")).
Proof.
  split; [reflexivity|].
  split; intros [tail Htail]; vm_compute in Htail; discriminate Htail.
Qed.

End OrchestratorFacts.

(** * More properties

    What the code does beyond the statements above: the helpers of the
    orchestrator, the two stores from update to lookup and from memory to
    file and back, [resizeImage] with all its options, and the ways a
    request fails. *)

(** ** More on the size consolidation *)

Module SizesMore.
Import Sizes SizesFacts.

(** What the loop writes: each entry is the size it was written for, or
    that size with the width of the size that absorbed it. *)
Lemma loop_entries (P : SizeSpec → Prop) (t : Q) (sizes : list SizeSpec) :
  (∀ size, In size sizes → P size) →
  (∀ last size, In size sizes → absorbs t last size = true →
     P {| density := density size; width := width size;
          actualWidth := actualWidth last |}) →
  ∀ st, (∀ k spec, st.2 !! k = Some spec → P spec) →
  ∀ k spec, (consolidate_loop t sizes st).2 !! k = Some spec → P spec.
Proof.
  induction sizes as [|size rest IH]; intros Hown Habs st Hst; [exact Hst|].
  simpl. apply IH.
  - intros s Hs. apply Hown. by right.
  - intros last s Hs. apply Habs. by right.
  - intros k spec. destruct st as [[L|] m]; simpl.
    + destruct (absorbs t L size) eqn:E; simpl;
        (destruct (decide (sizeSpecKey (width size) (density size) = k)) as [<-|Hne];
         [rewrite lookup_insert_eq; intros [= <-]
         |rewrite lookup_insert_ne by done; apply Hst]).
      * apply Habs; [by left|done].
      * apply Hown. by left.
    + destruct (decide (sizeSpecKey (width size) (density size) = k)) as [<-|Hne];
        [rewrite lookup_insert_eq; intros [= <-]; apply Hown; by left
        |rewrite lookup_insert_ne by done; apply Hst].
Qed.

Lemma consolidatedSizes_entries (P : SizeSpec → Prop) breakpoints pixelDensities t :
  (∀ size, In size (allSizes breakpoints pixelDensities) → P size) →
  (∀ last size, In size (allSizes breakpoints pixelDensities) →
     absorbs t last size = true →
     P {| density := density size; width := width size;
          actualWidth := actualWidth last |}) →
  ∀ k spec, consolidatedSizes breakpoints pixelDensities t !! k = Some spec → P spec.
Proof.
  intros Hown Habs. unfold consolidatedSizes.
  apply loop_entries.
  - intros s Hs. apply Hown. by apply In_sort_desc.
  - intros last s Hs. apply Habs. by apply In_sort_desc.
  - intros k spec H. simpl in H. by rewrite lookup_empty in H.
Qed.


(** X1.  Whatever the threshold, the keys of the consolidated map are
    exactly the keys of the enumerated (breakpoint, density) pairs: the
    lookup [consolidatedSizes[sizeSpecKey(breakpointWidth, density)]] of
    [transformForDensities] finds an entry for every pair of the request, and
    the map holds no other key. *)
Theorem consolidated_keys_are_the_enumerated_pairs
    breakpoints pixelDensities sizeThreshold k :
  is_Some (consolidatedSizes breakpoints pixelDensities sizeThreshold !! k) ↔
  ∃ bp d, In bp breakpoints ∧ In d pixelDensities ∧
          k = sizeSpecKey (imageWidth bp) d.
Proof.
  split.
  - intros [spec Hk].
    destruct (consolidatedSizes_inv breakpoints pixelDensities sizeThreshold)
      as (_ & _ & Hent).
    destruct (Hent _ _ Hk) as (-> & _).
    refine (consolidatedSizes_entries
              (fun spec => ∃ bp d, In bp breakpoints ∧ In d pixelDensities ∧
                 sizeSpecKey (width spec) (density spec)
                 = sizeSpecKey (imageWidth bp) d) _ _ sizeThreshold _ _ _ _ Hk).
    + intros size Hs. apply In_allSizes in Hs as (bp & d & Hbp & Hd & ->).
      by exists bp, d.
    + intros last size Hs _. apply In_allSizes in Hs as (bp & d & Hbp & Hd & ->).
      by exists bp, d.
  - intros (bp & d & Hbp & Hd & ->).
    apply (loop_adds_keys sizeThreshold
             (sort_desc (allSizes breakpoints pixelDensities)) (None, ∅)
             {| density := d; width := imageWidth bp;
                actualWidth := Math_round (imageWidth bp * d) |}).
    apply In_sort_desc, In_allSizes. eauto.
Qed.


(** X2.  An entry is rendered at the width it asked for, or at a larger
    width that the threshold allows: the rendered width times the threshold
    is at most the requested width. *)
Theorem consolidated_width_within_threshold
    breakpoints pixelDensities sizeThreshold k spec :
  consolidatedSizes breakpoints pixelDensities sizeThreshold !! k = Some spec →
  actualWidth spec = requested spec ∨
  (inject_Z (actualWidth spec) * sizeThreshold <= inject_Z (requested spec))%Q.
Proof.
  revert k spec. apply consolidatedSizes_entries.
  - intros size Hs. left. by apply (allSizes_requested breakpoints pixelDensities).
  - intros last size Hs Habs. right. simpl.
    unfold absorbs in Habs. apply Qle_bool_iff in Habs.
    rewrite (allSizes_requested _ _ _ Hs) in Habs. exact Habs.
Qed.

Lemma consolidated_width_within_threshold_witness :
  actualWidth {| density := 1; width := 300; actualWidth := 600 |}
  = requested {| density := 1; width := 300; actualWidth := 600 |} ∨
  (inject_Z (actualWidth {| density := 1; width := 300; actualWidth := 600 |}) * (1 # 2)
   <= inject_Z (requested {| density := 1; width := 300; actualWidth := 600 |}))%Q.
Proof.
  apply (consolidated_width_within_threshold demo_breakpoints [1%Q; 2%Q] (1 # 2)
           (sizeSpecKey 300 1)).
  vm_compute. reflexivity.
Defined.

Lemma Math_round_nonneg (x : Q) : (0 <= x)%Q → (0 ≤ Math_round x)%Z.
Proof.
  intros Hx. unfold Math_round.
  change 0%Z with (Qfloor 0). apply Qfloor_resp_le.
  apply Qle_trans with x; [done|].
  rewrite <- (Qplus_0_r x) at 1. apply Qplus_le_r. discriminate.
Qed.

(** With a threshold that is not positive, every size after the first is
    absorbed by the first. *)
Lemma loop_absorbs_all (t : Q) (L : SizeSpec) (sizes : list SizeSpec) :
  (t <= 0)%Q → (0 ≤ actualWidth L)%Z →
  (∀ s, In s sizes → (0 ≤ actualWidth s)%Z) →
  ∀ m, (∀ k spec, m !! k = Some spec → actualWidth spec = actualWidth L) →
  ∀ k spec, (consolidate_loop t sizes (Some L, m)).2 !! k = Some spec →
            actualWidth spec = actualWidth L.
Proof.
  intros Ht HL. induction sizes as [|size rest IH]; intros Hpos m Hm; [exact Hm|].
  simpl.
  assert (Habs : absorbs t L size = true).
  { unfold absorbs. apply Qle_bool_iff.
    apply Qle_trans with 0%Q.
    - unfold Qle in *. simpl in *. nia.
    - change 0%Q with (inject_Z 0). rewrite <- Zle_Qle. apply Hpos. by left. }
  rewrite Habs. apply IH.
  - intros s Hs. apply Hpos. by right.
  - intros k spec.
    destruct (decide (sizeSpecKey (width size) (density size) = k)) as [<-|Hne].
    + rewrite lookup_insert_eq. by intros [= <-].
    + rewrite lookup_insert_ne by done. apply Hm.
Qed.


(** X3.  With a threshold of zero (or below) and widths and densities that
    are not negative, one width serves every entry: the largest enumerated
    width. *)
Theorem threshold_zero_keeps_one_width
    breakpoints pixelDensities sizeThreshold k spec :
  (sizeThreshold <= 0)%Q →
  (∀ bp, In bp breakpoints → (0 <= imageWidth bp)%Q) →
  (∀ d, In d pixelDensities → (0 <= d)%Q) →
  consolidatedSizes breakpoints pixelDensities sizeThreshold !! k = Some spec →
  (∃ bp d, In bp breakpoints ∧ In d pixelDensities ∧
           actualWidth spec = Math_round (imageWidth bp * d)) ∧
  ∀ bp d, In bp breakpoints → In d pixelDensities →
          (Math_round (imageWidth bp * d) ≤ actualWidth spec)%Z.
Proof.
  intros Ht Hbp Hd Hk. split.
  { destruct (consolidatedSizes_inv breakpoints pixelDensities sizeThreshold)
      as (_ & _ & Hent).
    destruct (Hent _ _ Hk) as (_ & _ & _ & u & [Hu _] & Hw & _).
    apply In_allSizes in Hu as (bp & d & ? & ? & ->). by exists bp, d. }
  assert (Hpos : ∀ s, In s (sort_desc (allSizes breakpoints pixelDensities)) →
                      (0 ≤ actualWidth s)%Z).
  { intros s Hs. apply In_sort_desc, In_allSizes in Hs as (bp & d & ? & ? & ->).
    simpl. apply Math_round_nonneg, Qmult_le_0_compat; auto. }
  pose proof (sort_desc_sorted (allSizes breakpoints pixelDensities)) as Hsorted.
  assert (Hall : ∀ bp d, In bp breakpoints → In d pixelDensities →
            In {| density := d; width := imageWidth bp;
                  actualWidth := Math_round (imageWidth bp * d) |}
               (sort_desc (allSizes breakpoints pixelDensities))).
  { intros bp d ? ?. apply In_sort_desc, In_allSizes. eauto. }
  unfold consolidatedSizes in Hk.
  destruct (sort_desc (allSizes breakpoints pixelDensities)) as [|L rest].
  { intros bp d Hb Hd'. destruct (Hall bp d Hb Hd'). }
  simpl in Hk.
  assert (Hw : actualWidth spec = actualWidth L).
  { revert Hk. apply loop_absorbs_all; [done|apply Hpos; by left| |].
    - intros s Hs. apply Hpos. by right.
    - intros k' spec'.
      destruct (decide (sizeSpecKey (width L) (density L) = k')) as [<-|Hne].
      + rewrite lookup_insert_eq. by intros [= <-].
      + rewrite lookup_insert_ne by done. by rewrite lookup_empty. }
  intros bp d Hb Hd'. rewrite Hw.
  inversion Hsorted as [|? ? _ Hhead]; subst.
  destruct (Hall bp d Hb Hd') as [HL|Hin]; [rewrite HL; simpl; lia|].
  rewrite List.Forall_forall in Hhead. apply (Hhead _ Hin).
Qed.

Lemma threshold_zero_keeps_one_width_witness :
  (∃ bp d, In bp demo_breakpoints ∧ In d [1%Q; 2%Q] ∧
           actualWidth {| density := 1; width := 300; actualWidth := 2400 |}
           = Math_round (imageWidth bp * d)) ∧
  ∀ bp d, In bp demo_breakpoints → In d [1%Q; 2%Q] →
          (Math_round (imageWidth bp * d)
           ≤ actualWidth {| density := 1; width := 300; actualWidth := 2400 |})%Z.
Proof.
  apply (threshold_zero_keeps_one_width demo_breakpoints [1%Q; 2%Q] 0
           (sizeSpecKey 300 1)).
  - discriminate.
  - intros bp [<-|[<-|[]]]; discriminate.
  - intros d [<-|[<-|[]]]; discriminate.
  - vm_compute. reflexivity.
Defined.

End SizesMore.

(** ** The helpers of the orchestrator *)

Module HelperFacts.
Import Js Orchestrator.

Lemma seen_spec (key : string) (seenWidths : list string) :
  existsb (String.eqb key) seenWidths = true ↔ In key seenWidths.
Proof.
  rewrite existsb_exists. split.
  - intros (x & Hx & E). apply String.eqb_eq in E. by subst.
  - intros Hin. exists key. by rewrite String.eqb_refl.
Qed.

Lemma getUniqueImages_from_In seenWidths images x :
  In x (getUniqueImages_from seenWidths images) →
  In x images ∧ ¬ In (str_field "src" x) seenWidths.
Proof.
  revert seenWidths. induction images as [|image rest IH]; intros seen; [done|].
  cbn [getUniqueImages_from].
  destruct (existsb _ seen) eqn:E.
  - intros Hx. destruct (IH _ Hx). split; [by right|done].
  - intros [<-|Hx].
    + split; [by left|]. rewrite <- seen_spec. by rewrite E.
    + destruct (IH _ Hx) as [? Hn]. split; [by right|].
      intros ?. apply Hn. by right.
Qed.

Lemma getUniqueImages_from_NoDup seenWidths images :
  List.NoDup (map (str_field "src") (getUniqueImages_from seenWidths images)).
Proof.
  revert seenWidths. induction images as [|image rest IH]; intros seen;
    cbn [getUniqueImages_from]; [constructor|].
  destruct (existsb _ seen); [apply IH|].
  cbn [map]. constructor; [|apply IH].
  intros Hin. apply in_map_iff in Hin as (x & Hsrc & Hx).
  apply getUniqueImages_from_In in Hx as [_ Hn]. apply Hn. rewrite Hsrc. by left.
Qed.

Lemma getUniqueImages_from_sublist seenWidths images :
  sublist (getUniqueImages_from seenWidths images) images.
Proof.
  revert seenWidths. induction images as [|image rest IH]; intros seen;
    cbn [getUniqueImages_from]; [constructor|].
  destruct (existsb _ seen); [apply sublist_cons|apply sublist_skip]; apply IH.
Qed.

Lemma getUniqueImages_from_find seenWidths images key :
  ¬ In key seenWidths →
  find (fun image => String.eqb (str_field "src" image) key)
       (getUniqueImages_from seenWidths images)
  = find (fun image => String.eqb (str_field "src" image) key) images.
Proof.
  revert seenWidths. induction images as [|image rest IH]; intros seen Hkey; [done|].
  cbn [getUniqueImages_from find].
  destruct (existsb _ seen) eqn:E.
  - apply seen_spec in E.
    destruct (String.eqb_spec (str_field "src" image) key) as [<-|Hne]; [done|].
    by apply IH.
  - cbn [find]. destruct (String.eqb_spec (str_field "src" image) key) as [<-|Hne]; [done|].
    apply IH. intros [?|?]; [done|by apply Hkey].
Qed.

Lemma getUniqueImages_from_distinct seenWidths images :
  List.NoDup (map (str_field "src") images) →
  (∀ x, In x images → ¬ In (str_field "src" x) seenWidths) →
  getUniqueImages_from seenWidths images = images.
Proof.
  revert seenWidths. induction images as [|image rest IH]; intros seen Hnd Hseen; [done|].
  cbn [getUniqueImages_from]. inversion Hnd as [|? ? Hhead Hrest]; subst.
  destruct (existsb _ seen) eqn:E.
  - apply seen_spec in E. destruct (Hseen image); [by left|done].
  - f_equal. apply IH; [done|].
    intros x Hx [Heq|Hin].
    + apply Hhead. rewrite Heq. by apply in_map.
    + apply (Hseen x); [by right|done].
Qed.


(** X4.  [getUniqueImages] returns images with pairwise different [src],
    taken from its input in the input's order. *)
Theorem getUniqueImages_has_distinct_srcs (images : list value) :
  List.NoDup (map (str_field "src") (getUniqueImages images)) ∧
  sublist (getUniqueImages images) images.
Proof.
  split; [apply getUniqueImages_from_NoDup|apply getUniqueImages_from_sublist].
Qed.


(** X5.  [getUniqueImages] drops no [src]: for each [src], the image it
    returns is the first image of the input with that [src] (and none when
    the input has none). *)
Theorem getUniqueImages_keeps_the_first (images : list value) (src : string) :
  find (fun image => String.eqb (str_field "src" image) src) (getUniqueImages images)
  = find (fun image => String.eqb (str_field "src" image) src) images.
Proof. unfold getUniqueImages. apply getUniqueImages_from_find. intros []. Qed.


(** A list whose images have pairwise different [src] comes back
    unchanged. *)
Lemma getUniqueImages_of_distinct (images : list value) :
  List.NoDup (map (str_field "src") images) → getUniqueImages images = images.
Proof.
  intros Hnd. unfold getUniqueImages. apply getUniqueImages_from_distinct; [done|].
  intros x _ [].
Qed.


(** *** The cache key *)

Lemma append_same_length (a b x y : string) :
  String.length a = String.length b → a +:+ x = b +:+ y → a = b ∧ x = y.
Proof.
  revert b. induction a as [|c a IH]; intros [|c' b]; simpl; try done.
  intros [= Hlen] [= -> Happ]. destruct (IH _ Hlen Happ) as [-> ->]. done.
Qed.

Lemma append_length (a b : string) :
  String.length (a +:+ b) = String.length a + String.length b.
Proof. induction a as [|c a IH]; simpl; [done|]. by rewrite IH. Qed.

Lemma append_inv_tail (a b t : string) : a +:+ t = b +:+ t → a = b.
Proof.
  intros H. apply (append_same_length a b t t); [|done].
  apply (f_equal String.length) in H. rewrite !append_length in H. lia.
Qed.


(** X6.  Two cache keys with the same debug text, made from hashes of the
    same length (a sha256 digest in hexadecimal has 64 characters), are equal
    only for the same hash and the same width: two widths of an image, and
    two images, never share a cache entry. *)
Theorem cacheKey_inj (rawHash1 rawHash2 : string) (maxWidth1 maxWidth2 : Z)
    (debugText : option string) :
  String.length rawHash1 = String.length rawHash2 →
  cacheKey rawHash1 maxWidth1 debugText = cacheKey rawHash2 maxWidth2 debugText →
  rawHash1 = rawHash2 ∧ maxWidth1 = maxWidth2.
Proof.
  unfold cacheKey. intros Hlen H.
  apply append_same_length in H as [-> H]; [|done]. split; [done|].
  injection H as H.
  change (pretty maxWidth1 +:+ (":" +:+ default EmptyString debugText)
          = pretty maxWidth2 +:+ (":" +:+ default EmptyString debugText)) in H.
  apply append_inv_tail in H.
  by apply (inj pretty) in H.
Qed.

Lemma cacheKey_inj_witness :
  "ab" = "ab" ∧ 600%Z = 600%Z.
Proof.
  apply (cacheKey_inj "ab" "ab" 600 600 None); reflexivity.
Defined.

(** *** Separators *)


(** X7.  [outputName.split(sep).join('/')] keeps the length of the name,
    and where the separator is not the slash, no separator is left in the
    result. *)
Theorem split_join_leaves_no_separator (sep : ascii) (outputName : string) :
  sep ≠ "/"%char →
  String.length (split_join sep outputName) = String.length outputName ∧
  ¬ In sep (list_ascii_of_string (split_join sep outputName)).
Proof.
  intros Hsep. induction outputName as [|c rest [IHlen IHin]]; [by split; [|intros []]|].
  cbn [split_join String.length list_ascii_of_string]. split; [by rewrite IHlen|].
  intros [Hc|Hin]; [|done].
  destruct (Ascii.eqb_spec c sep) as [->|Hne]; congruence.
Qed.

Lemma split_join_leaves_no_separator_witness :
  String.length (split_join "\"%char "4a\50454700-30.webp")
  = String.length "4a\50454700-30.webp" ∧
  ¬ In "\"%char (list_ascii_of_string (split_join "\"%char "4a\50454700-30.webp")).
Proof.
  apply split_join_leaves_no_separator. discriminate.
Defined.

End HelperFacts.

(** ** [Promise.all] and the two ways to run a list of factories *)

Module GatherFacts.
Import Js Loop Store Orchestrator Observe Demo LoopFacts StoreFacts Gather.

Section Sched.
Context (h : heap) (ps : list pstate) (ag : list aggregate)
        (js : list (reaction * outcome)) (ios : list (nat * sync_fn))
        (tr : list event).

Lemma new_promise_eq st :
  new_promise st (Build_sched h ps ag js ios tr)
  = (length ps, Build_sched h (ps ++ [st]) ag js ios tr).
Proof. done. Qed.

Lemma settle_pending p o waiting :
  ps !! p = Some (Pending waiting) →
  settle p o (Build_sched h ps ag js ios tr)
  = Build_sched h (<[p := Settled o]> ps) ag (js ++ map (fun r => (r, o)) waiting) ios tr.
Proof. intros Hp. unfold settle. cbn. by rewrite Hp. Qed.

Lemma subscribe_settled p r o :
  ps !! p = Some (Settled o) →
  subscribe (APromise p) r (Build_sched h ps ag js ios tr)
  = Build_sched h ps ag (js ++ [(r, o)]) ios tr.
Proof. intros Hp. unfold subscribe. cbn. by rewrite Hp. Qed.

Lemma subscribe_pending p r waiting :
  ps !! p = Some (Pending waiting) →
  subscribe (APromise p) r (Build_sched h ps ag js ios tr)
  = Build_sched h (<[p := Pending (waiting ++ [r])]> ps) ag js ios tr.
Proof. intros Hp. unfold subscribe. cbn. by rewrite Hp. Qed.
End Sched.

Lemma insert_fresh {A} (l : list A) (x y : A) :
  <[length l := y]> (l ++ [x]) = l ++ [y].
Proof.
  rewrite insert_app_r_alt by lia. by rewrite Nat.sub_diag.
Qed.

Lemma lookup_fresh {A} (l : list A) (x : A) : (l ++ [x]) !! length l = Some x.
Proof. by rewrite list_lookup_middle. Qed.

(** *** promiseAllSequential *)


(** Factories that return at once are called one per turn. *)
Lemma promiseAllSequential_prefix (vs : list value) :
  ∀ ret tail r h ps ag ios tr,
    run (length vs)
      (exec (promiseAllSequential_from ret (map Return vs ++ tail)) r
         (Build_sched h ps ag [] ios tr))
    = exec (promiseAllSequential_from (ret ++ vs) tail) r
        (Build_sched h (ps ++ map fulfilled vs) ag [] ios tr).
Proof.
  induction vs as [|v vs IH]; intros ret tail r h ps ag ios tr.
  - cbn [length map app]. by rewrite run_0, !app_nil_r.
  - cbn [length map app promiseAllSequential_from exec].
    rewrite new_promise_eq.
    change (exec (Return v) ?c ?s) with (settle c (Fulfilled v) s).
    rewrite (settle_pending _ _ _ _ _ _ _ _ [] (lookup_fresh ps _)).
    rewrite insert_fresh. cbn [map]. rewrite app_nil_r.
    unfold await. cbn [exec].
    rewrite (subscribe_settled _ _ _ _ _ _ _ _ _ (lookup_fresh ps _)).
    cbn [app]. rewrite run_job_step. cbn [run_job].
    rewrite IH. by rewrite <- !app_assoc.
Qed.



(** X8.  [promiseAllSequential] on factories that return at once resolves,
    after one turn per factory, to their values in the order of the
    factories; an empty list gives an empty array at once. *)
Theorem promiseAllSequential_keeps_the_order (s : sched) (vs : list value) :
  idle s →
  let '(caller, s1) := spawn (promiseAllSequential (map Return vs)) s in
  let s2 := run (length vs) s1 in
  idle s2 ∧
  result_of caller s2 = Some (Fulfilled (VArr vs)) ∧
  state s2 = state s ∧ trace s2 = trace s.
Proof.
  intros Hidle. destruct s as [h ps ag js ios tr].
  destruct Hidle as [Hjobs Hio]; cbn in Hjobs, Hio; subst js ios.
  unfold spawn, promiseAllSequential. rewrite new_promise_eq.
  rewrite <- (app_nil_r (map Return vs)), promiseAllSequential_prefix.
  cbn [promiseAllSequential_from exec app].
  erewrite settle_pending by (rewrite lookup_app_l_Some with (x := Pending []);
                              [done|apply lookup_fresh]).
  unfold result_of. cbn.
  rewrite list_lookup_insert_eq by (rewrite !length_app; simpl; lia).
  done.
Qed.


Lemma promiseAllSequential_keeps_the_order_witness :
  let '(caller, s1) :=
    spawn (promiseAllSequential (map Return [VNum 1; VNum 2])) (initial empty_heap) in
  let s2 := run (length [VNum 1; VNum 2]) s1 in
  idle s2 ∧
  result_of caller s2 = Some (Fulfilled (VArr [VNum 1; VNum 2])) ∧
  state s2 = state (initial empty_heap) ∧ trace s2 = trace (initial empty_heap).
Proof.
  apply (promiseAllSequential_keeps_the_order (initial empty_heap) [VNum 1; VNum 2]).
  split; reflexivity.
Defined.


(** X9.  [promiseAllSequential] stops at the first factory that fails: the
    result is rejected with its error, and the factories after it are never
    called (whatever they are, the state and the trace stay as they were). *)
Theorem promiseAllSequential_stops_at_a_failure
    (s : sched) (vs : list value) (e : value) (later : list async) :
  idle s →
  let '(caller, s1) :=
    spawn (promiseAllSequential (map Return vs ++ Throw e :: later)) s in
  let s2 := run (length vs + 1) s1 in
  idle s2 ∧
  result_of caller s2 = Some (Rejected e) ∧
  state s2 = state s ∧ trace s2 = trace s.
Proof.
  intros Hidle. destruct s as [h ps ag js ios tr].
  destruct Hidle as [Hjobs Hio]; cbn in Hjobs, Hio; subst js ios.
  unfold spawn, promiseAllSequential. rewrite new_promise_eq.
  rewrite run_add, promiseAllSequential_prefix.
  cbn [promiseAllSequential_from exec app]. rewrite new_promise_eq.
  change (exec (Throw e) ?c ?s) with (settle c (Rejected e) s).
  rewrite (settle_pending _ _ _ _ _ _ _ _ [] (lookup_fresh _ _)).
  rewrite insert_fresh. cbn [map]. rewrite app_nil_r.
  unfold await. cbn [exec].
  rewrite (subscribe_settled _ _ _ _ _ _ _ _ _ (lookup_fresh _ _)).
  cbn [app]. rewrite run_job_step. cbn [run_job exec]. rewrite run_0.
  erewrite settle_pending
    by (rewrite <- !app_assoc; apply list_lookup_middle; done).
  unfold result_of. cbn.
  rewrite list_lookup_insert_eq by (rewrite !length_app; simpl; lia).
  done.
Qed.


Lemma promiseAllSequential_stops_at_a_failure_witness :
  let '(caller, s1) :=
    spawn (promiseAllSequential
             (map Return [VNum 1] ++ Throw (VError "boom") :: [Return VNull]))
      (initial empty_heap) in
  let s2 := run (length [VNum 1] + 1) s1 in
  idle s2 ∧
  result_of caller s2 = Some (Rejected (VError "boom")) ∧
  state s2 = state (initial empty_heap) ∧ trace s2 = trace (initial empty_heap).
Proof.
  apply (promiseAllSequential_stops_at_a_failure (initial empty_heap) [VNum 1]
           (VError "boom") [Return VNull]).
  split; reflexivity.
Defined.

(** *** Promise.all *)

Lemma call_each_returns (vs : list value) :
  ∀ k r h ps ag js ios tr,
    exec (call_each (map Return vs) k) r (Build_sched h ps ag js ios tr)
    = exec (k (seq (length ps) (length vs))) r
        (Build_sched h (ps ++ map fulfilled vs) ag js ios tr).
Proof.
  induction vs as [|v vs IH]; intros k r h ps ag js ios tr.
  - cbn [length map seq call_each]. by rewrite app_nil_r.
  - cbn [length map call_each exec]. rewrite new_promise_eq.
    change (exec (Return v) ?c ?s) with (settle c (Fulfilled v) s).
    rewrite (settle_pending _ _ _ _ _ _ _ _ [] (lookup_fresh ps _)).
    rewrite insert_fresh. cbn [map]. rewrite app_nil_r.
    rewrite IH. rewrite length_app, Nat.add_1_r. cbn [length seq].
    by rewrite <- !app_assoc.
Qed.

Lemma subscribe_all_settled (vs : list value) :
  ∀ agg i pre post h ag js ios tr,
    subscribe_all agg i (seq (length pre) (length vs))
      (Build_sched h (pre ++ map fulfilled vs ++ post) ag js ios tr)
    = Build_sched h (pre ++ map fulfilled vs ++ post) ag
        (js ++ slot_jobs agg i vs) ios tr.
Proof.
  induction vs as [|v vs IH]; intros agg i pre post h ag js ios tr.
  - cbn. rewrite (app_nil_r js). reflexivity.
  - cbn [length seq subscribe_all map slot_jobs].
    erewrite subscribe_settled by (apply list_lookup_middle; done).
    replace (pre ++ (fulfilled v :: map fulfilled vs) ++ post)
      with ((pre ++ [fulfilled v]) ++ map fulfilled vs ++ post)
      by (by rewrite <- app_assoc).
    replace (S (length pre)) with (length (pre ++ [fulfilled v]))
      by (rewrite length_app; simpl; lia).
    rewrite IH. by rewrite <- !app_assoc.
Qed.

(** The slots of a [Promise.all] fill one per turn; the last one settles
    the promise of the whole. *)
Lemma run_slot_jobs (rest : list value) :
  rest ≠ [] →
  ∀ done agg R waiting h ps ags js ios tr,
    ags !! agg = Some {| agg_result := R; agg_open := length rest;
                         agg_values := done ++ map (fun _ => VUndefined) rest |} →
    ps !! R = Some (Pending waiting) →
    run (length rest)
      (Build_sched h ps ags (slot_jobs agg (length done) rest ++ js) ios tr)
    = Build_sched h (<[R := fulfilled (VArr (done ++ rest))]> ps)
        (<[agg := {| agg_result := R; agg_open := 0;
                     agg_values := done ++ rest |}]> ags)
        (js ++ map (fun r => (r, Fulfilled (VArr (done ++ rest)))) waiting) ios tr.
Proof.
  induction rest as [|v rest IH]; [done|]. intros _ done agg R waiting h ps ags js ios tr Hagg HR.
  cbn [length slot_jobs app]. rewrite run_job_step. cbn [run_job].
  unfold all_slot. cbn [aggregates]. rewrite Hagg.
  cbn [agg_result agg_open agg_values pred map].
  rewrite insert_app_r_alt by lia. rewrite Nat.sub_diag. cbn [insert list_insert].
  destruct rest as [|v' rest].
  - cbn [length map]. unfold with_aggregates. cbn.
    erewrite settle_pending by exact HR. rewrite run_0. done.
  - cbn [length]. unfold with_aggregates.
    cbn [state promises jobs io trace aggregates Nat.pred].
    change (S (length rest)) with (length (v' :: rest)).
    replace (done ++ v :: map (fun _ => VUndefined) (v' :: rest))
      with ((done ++ [v]) ++ map (fun _ => VUndefined) (v' :: rest))
      by (by rewrite <- app_assoc).
    replace (S (length done)) with (length (done ++ [v]))
      by (rewrite length_app; simpl; lia).
    rewrite (IH ltac:(done) (done ++ [v]) agg R waiting).
    + rewrite list_insert_insert_eq. by rewrite <- !app_assoc.
    + rewrite list_lookup_insert_eq by (by eapply lookup_lt_Some). done.
    + done.
Qed.

Lemma run_all_slots (vs : list value) agg R waiting h ps ags ios tr :
  vs ≠ [] →
  ags !! agg = Some {| agg_result := R; agg_open := length vs;
                       agg_values := map (fun _ => VUndefined) vs |} →
  ps !! R = Some (Pending waiting) →
  run (length vs) (Build_sched h ps ags (slot_jobs agg 0 vs) ios tr)
  = Build_sched h (<[R := fulfilled (VArr vs)]> ps)
      (<[agg := {| agg_result := R; agg_open := 0; agg_values := vs |}]> ags)
      (map (fun r => (r, Fulfilled (VArr vs))) waiting) ios tr.
Proof.
  intros Hne Hagg HR.
  pose proof (run_slot_jobs vs Hne [] agg R waiting h ps ags [] ios tr Hagg HR) as E.
  cbn [length app] in E. by rewrite app_nil_r in E.
Qed.

Lemma map_const_seq {A} (x : A) (n m : nat) (vs : list value) :
  length vs = m → map (fun _ => x) (seq n m) = map (fun _ => x) vs.
Proof.
  revert n m. induction vs as [|v vs IH]; intros n m <-; [done|].
  cbn. f_equal. by apply IH.
Qed.

(** [Promise.all] of promises that are fulfilled: a pending promise for the
    whole, and one job per element. *)
Lemma exec_PromiseAll_settled (vs : list value) k r h pre ag js ios tr :
  vs ≠ [] →
  exec (PromiseAll (seq (length pre) (length vs)) k) r
    (Build_sched h (pre ++ map fulfilled vs) ag js ios tr)
  = exec (k (length (pre ++ map fulfilled vs))) r
      (Build_sched h (pre ++ map fulfilled vs ++ [Pending []])
         (ag ++ [{| agg_result := length (pre ++ map fulfilled vs);
                    agg_open := length vs;
                    agg_values := map (fun _ => VUndefined) vs |}])
         (js ++ slot_jobs (length ag) 0 vs) ios tr).
Proof.
  intros Hne. cbn [exec]. rewrite new_promise_eq. unfold with_aggregates.
  cbn [aggregates state promises jobs io trace].
  rewrite length_seq, (map_const_seq VUndefined _ _ vs eq_refl), <- app_assoc.
  rewrite <- subscribe_all_settled.
  destruct vs as [|v vs]; [done|]. reflexivity.
Qed.


(** X10.  [promiseAllPrarallel] on factories that return at once resolves to
    their values in the order of the factories, one turn per element after
    the calls and one more for the [await]; an empty list gives an empty
    array. *)
Theorem promiseAllPrarallel_keeps_the_order (s : sched) (vs : list value) :
  idle s →
  let '(caller, s1) := spawn (promiseAllPrarallel (map Return vs)) s in
  let s2 := run (length vs + 1) s1 in
  idle s2 ∧
  result_of caller s2 = Some (Fulfilled (VArr vs)) ∧
  state s2 = state s ∧ trace s2 = trace s.
Proof.
  intros Hidle. destruct s as [h ps ag js ios tr].
  destruct Hidle as [Hjobs Hio]; cbn in Hjobs, Hio; subst js ios.
  unfold spawn, promiseAllPrarallel. rewrite new_promise_eq, call_each_returns.
  set (ps0 := ps ++ [Pending []]).
  assert (Hcaller : ∀ l, (ps0 ++ l) !! length ps = Some (Pending []))
    by (intros l; unfold ps0; rewrite <- app_assoc; by apply list_lookup_middle).
  destruct (decide (vs = [])) as [->|Hne].
  - cbn [exec]. rewrite new_promise_eq. unfold with_aggregates.
    cbn [aggregates state promises jobs io trace seq length map].
    erewrite settle_pending by apply lookup_fresh.
    rewrite insert_fresh. unfold await. cbn [exec map app].
    erewrite subscribe_settled by apply lookup_fresh.
    cbn [app Nat.add]. rewrite run_job_step. cbn [run_job exec]. rewrite run_0.
    erewrite settle_pending by (rewrite <- app_assoc; apply Hcaller).
    unfold result_of. cbn.
    rewrite list_lookup_insert_eq by (unfold ps0; rewrite !length_app; simpl; lia).
    done.
  - rewrite (exec_PromiseAll_settled vs _ _ _ _ _ _ _ _ Hne).
    unfold await. cbn [exec app].
    erewrite subscribe_pending
      by (rewrite app_assoc; apply lookup_fresh).
    rewrite run_add.
    erewrite (run_all_slots vs _ _ _ _ _ _ _ _ Hne); cycle 1.
    { apply lookup_fresh. }
    { rewrite list_lookup_insert_eq; [done|]. rewrite !length_app. simpl. lia. }
    cbn [app map]. rewrite run_job_step. cbn [run_job exec]. rewrite run_0.
    erewrite settle_pending; cycle 1.
    { rewrite !list_lookup_insert_ne by (unfold ps0; rewrite !length_app; simpl; lia).
      apply Hcaller. }
    unfold result_of. cbn.
    rewrite list_lookup_insert_eq; [done|].
    unfold ps0. rewrite !length_insert, !length_app. simpl. lia.
Qed.


Lemma promiseAllPrarallel_keeps_the_order_witness :
  let '(caller, s1) :=
    spawn (promiseAllPrarallel (map Return [VNum 1; VNum 2])) (initial empty_heap) in
  let s2 := run (length [VNum 1; VNum 2] + 1) s1 in
  idle s2 ∧
  result_of caller s2 = Some (Fulfilled (VArr [VNum 1; VNum 2])) ∧
  state s2 = state (initial empty_heap) ∧ trace s2 = trace (initial empty_heap).
Proof.
  apply (promiseAllPrarallel_keeps_the_order (initial empty_heap) [VNum 1; VNum 2]).
  split; reflexivity.
Defined.

End GatherFacts.

(** ** The runtime store: lookups after updates *)

Module RuntimeFacts.
Import Js Loop Store Observe Demo LoopFacts StoreFacts.

(** What was assigned to a name is what the name gives, also for
    ['__proto__']: the assignment makes the promise the prototype, and the
    getter gives the prototype. *)
Lemma data_get_set_eq key p h : data_get key (data_set key p h) = APromise p.
Proof.
  unfold data_get, data_set, inherited.
  destruct (String.eqb key "__proto__") eqn:E; cbn.
  - destruct (runtime_data h !! key) eqn:Hown; cbn.
    + by rewrite lookup_insert_eq.
    + by rewrite Hown.
  - by rewrite lookup_insert_eq.
Qed.

(** An assignment to a name other than ['__proto__'] leaves every other
    name as it was. *)
Lemma data_get_set_ne key other p h :
  key ≠ "__proto__" → other ≠ key →
  data_get other (data_set key p h) = data_get other h.
Proof.
  intros Hkey Hother. unfold data_get, data_set.
  destruct (String.eqb_spec key "__proto__") as [?|_]; [done|]. cbn.
  by rewrite lookup_insert_ne.
Qed.

Lemma inherited_ordinary proto key :
  ordinary key = true → inherited proto key = AValue VUndefined.
Proof.
  unfold ordinary, inherited. intros Hord.
  apply andb_true_iff in Hord as [Hproto Hnames].
  apply negb_true_iff in Hproto, Hnames. rewrite Hproto.
  rewrite existsb_app in Hnames. apply orb_false_iff in Hnames as [-> ->].
  by rewrite andb_false_r.
Qed.

(** X11.  In the runtime store, [get] after [set(key, value)] with a value
    that is not [undefined] resolves to that value ([null] included), for
    every key.  For every key but ['__proto__'], the other names keep what
    they gave. *)
Theorem Runtime_get_after_set (s : sched) (key : string) (v : value) :
  idle s → is_undefined v = false →
  let '(setting, s1) := spawn (Runtime.set key v) s in
  let '(getting, s2) := spawn (Runtime.get key) s1 in
  let s3 := run 1 s2 in
  idle s3 ∧
  result_of setting s3 = Some (Fulfilled VUndefined) ∧
  result_of getting s3 = Some (Fulfilled v) ∧
  (key ≠ "__proto__" →
   ∀ other, other ≠ key → data_get other (state s3) = data_get other (state s)).
Proof.
  intros Hidle Hv. open_state s Hidle.
  unfold spawn, Runtime.set, Runtime.get. rewrite Hv.
  frame_run. rewrite data_get_set_eq. frame_run.
  split; [done|]. split; [done|]. split; [done|].
  intros Hkey other Hne. by apply data_get_set_ne.
Qed.

Lemma Runtime_get_after_set_witness :
  let '(setting, s1) := spawn (Runtime.set "k" VNull) (initial empty_heap) in
  let '(getting, s2) := spawn (Runtime.get "k") s1 in
  let s3 := run 1 s2 in
  idle s3 ∧
  result_of setting s3 = Some (Fulfilled VUndefined) ∧
  result_of getting s3 = Some (Fulfilled VNull) ∧
  ("k" ≠ "__proto__" →
   ∀ other, other ≠ "k" →
     data_get other (state s3) = data_get other (state (initial empty_heap))).
Proof.
  apply (Runtime_get_after_set (initial empty_heap) "k" VNull).
  - split; reflexivity.
  - reflexivity.
Defined.

(** What [set('__proto__', value)] does to the other names: [data] gets no
    property, its prototype becomes the promise of the value, and the names
    of [Promise.prototype] appear in the store. *)
Example set_proto_changes_other_names :
  let '(_, s0) := spawn (Runtime.get "then") (initial empty_heap) in
  let s1 := run 5 s0 in
  let '(_, s2) := spawn (Runtime.set "__proto__" (VStr "v")) s1 in
  let '(after, s3) := spawn (Runtime.get "then") s2 in
  let s4 := run 5 s3 in
  result_of 0 s4 = Some (Fulfilled VUndefined) ∧
  result_of after s4 = Some (Fulfilled (VBuiltin "Promise.prototype.then")) ∧
  runtime_data (state s4) = ∅.
Proof. vm_compute. repeat split; reflexivity. Qed.

(** X12.  In the runtime store, [set(key, undefined)] deletes the own
    property of the key, also when there is none; [get] then resolves to what
    the prototype chain of [data] gives for the name: [undefined] for an
    ordinary key, a built-in function for a name such as ['toString']. *)
Theorem Runtime_get_after_delete (s : sched) (key : string) (x : value) :
  idle s →
  inherited (runtime_proto (state s)) key = AValue x →
  let '(setting, s1) := spawn (Runtime.set key VUndefined) s in
  let '(getting, s2) := spawn (Runtime.get key) s1 in
  let s3 := run 1 s2 in
  idle s3 ∧
  result_of setting s3 = Some (Fulfilled VUndefined) ∧
  result_of getting s3 = Some (Fulfilled x) ∧
  runtime_data (state s3) = delete key (runtime_data (state s)) ∧
  (ordinary key = true → x = VUndefined).
Proof.
  intros Hidle Hchain. open_state s Hidle. cbn in Hchain.
  unfold spawn, Runtime.set, Runtime.get.
  frame_run. unfold data_get, data_delete. cbn.
  rewrite lookup_delete_eq, Hchain. frame_run.
  split; [done|]. split; [done|]. split; [done|]. split; [done|].
  intros Hord. rewrite (inherited_ordinary pr key Hord) in Hchain. congruence.
Qed.

Lemma Runtime_get_after_delete_witness :
  let '(setting, s1) := spawn (Runtime.set "k" VUndefined) (initial empty_heap) in
  let '(getting, s2) := spawn (Runtime.get "k") s1 in
  let s3 := run 1 s2 in
  idle s3 ∧
  result_of setting s3 = Some (Fulfilled VUndefined) ∧
  result_of getting s3 = Some (Fulfilled VUndefined) ∧
  runtime_data (state s3) = delete "k" (runtime_data (state (initial empty_heap))) ∧
  (ordinary "k" = true → VUndefined = VUndefined).
Proof.
  apply (Runtime_get_after_delete (initial empty_heap) "k" VUndefined).
  - split; reflexivity.
  - reflexivity.
Defined.

(** A name of [Object.prototype] cannot be emptied. *)
Example toString_is_never_undefined :
  let '(_, s1) := spawn (Runtime.set "toString" VUndefined) (initial empty_heap) in
  let '(getting, s2) := spawn (Runtime.get "toString") s1 in
  result_of getting (run 5 s2)
  = Some (Fulfilled (VBuiltin "Object.prototype.toString")).
Proof. vm_compute. reflexivity. Qed.

(** In the runtime store, [getOrCreate] on a key that [set] has filled
    returns the value and does not call the factory. *)
Theorem Runtime_hit_skips_the_factory (s : sched) (key : string) (v : value)
    (factory : FactoryFunction) :
  idle s → is_undefined v = false →
  let '(setting, s1) := spawn (Runtime.set key v) s in
  let '(caller, s2) := spawn (Runtime.getOrCreate key factory) s1 in
  let s3 := run 1 s2 in
  idle s3 ∧
  result_of caller s3 = Some (Fulfilled v) ∧
  trace s3 = trace s.
Proof.
  intros Hidle Hv. open_state s Hidle.
  unfold spawn, Runtime.set, Runtime.getOrCreate. rewrite Hv.
  frame_run. rewrite data_get_set_eq. frame_run. rewrite Hv. frame_run. done.
Qed.

(** X13.  In the runtime store, a [getOrCreate] on a key that is not there
    calls the factory and then fails, although the factory has returned: the
    caller is rejected with the TypeError of [promise.resolve], and the
    factory's value is kept nowhere.  A later [get] resolves to [undefined],
    and a later [getOrCreate] calls its factory again and fails the same
    way. *)
Theorem Runtime_created_value_is_lost (s : sched) (key : string) (v : value)
    (factory again : FactoryFunction) :
  idle s → vacant s key → returns v factory → settles again →
  let '(creating, s1) := spawn (Runtime.getOrCreate key factory) s in
  let s2 := run 2 s1 in
  let '(getting, s3) := spawn (Runtime.get key) s2 in
  let s4 := run 1 s3 in
  let '(asking, s5) := spawn (Runtime.getOrCreate key again) s4 in
  let s6 := run 2 s5 in
  idle s2 ∧ idle s4 ∧ idle s6 ∧
  result_of creating s6 = Some (Rejected TypeError_resolve) ∧
  result_of getting s6 = Some (Fulfilled VUndefined) ∧
  result_of asking s6 = Some (Rejected TypeError_resolve) ∧
  state s6 = state s ∧
  trace s6 = trace s ++ [FactoryCalled key; FactoryCalled key].
Proof.
  intros Hidle Hkey Hreturns Hagain. unfold vacant in Hkey.
  destruct (vacant_inv _ _ Hkey) as (Hown & Hproto & Hchain).
  open_state s Hidle. cbn in Hkey, Hown.
  unfold spawn, Runtime.getOrCreate, Runtime.get, defer, promise_resolve.
  destruct Hreturns, Hagain as [[v' []]|[e []]];
    repeat first
      [ rewrite Hkey | rewrite Hown | rewrite Hproto
      | rewrite (delete_insert_id _ _ _ Hown)
      | frame_step
      | progress (unfold data_set, data_delete, set_runtime_data; cbn) ];
    by rewrite <- ?app_assoc.
Qed.

Lemma Runtime_created_value_is_lost_witness :
  let '(creating, s1) :=
    spawn (Runtime.getOrCreate "k" (constant (VStr "x"))) (initial empty_heap) in
  let s2 := run 2 s1 in
  let '(getting, s3) := spawn (Runtime.get "k") s2 in
  let s4 := run 1 s3 in
  let '(asking, s5) := spawn (Runtime.getOrCreate "k" boom) s4 in
  let s6 := run 2 s5 in
  idle s2 ∧ idle s4 ∧ idle s6 ∧
  result_of creating s6 = Some (Rejected TypeError_resolve) ∧
  result_of getting s6 = Some (Fulfilled VUndefined) ∧
  result_of asking s6 = Some (Rejected TypeError_resolve) ∧
  state s6 = state (initial empty_heap) ∧
  trace s6 = trace (initial empty_heap) ++ [FactoryCalled "k"; FactoryCalled "k"].
Proof.
  apply (Runtime_created_value_is_lost (initial empty_heap) "k" (VStr "x")
           (constant (VStr "x")) boom).
  - split; reflexivity.
  - reflexivity.
  - apply returns_sync.
  - right. exists (VError "boom"). apply throws_sync.
Defined.

End RuntimeFacts.
(** ** The file blob, and the persistent store before and after loading *)

Module BlobFacts.
Import Js Loop Store Observe Demo LoopFacts StoreFacts.


(** X14.  [SimpleFileStorageBlob]: [readUtf8] after [write(data)] resolves
    to [data]; the write changes the file of the blob and no other. *)
Theorem blob_readUtf8_after_write (s : sched) (path dir data : string) :
  idle s →
  let '(writing, s1) := spawn (write (StorageBlob := SimpleFileStorageBlob path dir) data) s in
  let s2 := run 4 s1 in
  let '(reading, s3) := spawn (readUtf8 (StorageBlob := SimpleFileStorageBlob path dir)) s2 in
  let s4 := run 2 s3 in
  idle s2 ∧ idle s4 ∧
  result_of writing s4 = Some (Fulfilled VUndefined) ∧
  result_of reading s4 = Some (Fulfilled (VStr data)) ∧
  files (state s4) = <[path := data]> (files (state s)) ∧
  trace s4 = trace s ++ [FileWritten path].
Proof.
  intros Hidle. open_state s Hidle.
  unfold spawn, write, readUtf8, SimpleFileStorageBlob.
  frame_run. unfold complete_io, mkdir. frame_run.
  unfold complete_io, writeFile. frame_run.
  unfold complete_io, readFile. cbn. rewrite lookup_insert_eq. frame_run.
  done.
Qed.


Lemma blob_readUtf8_after_write_witness :
  let '(writing, s1) :=
    spawn (write (StorageBlob := SimpleFileStorageBlob "cache.json" ".") "{}")
      (initial empty_heap) in
  let s2 := run 4 s1 in
  let '(reading, s3) :=
    spawn (readUtf8 (StorageBlob := SimpleFileStorageBlob "cache.json" ".")) s2 in
  let s4 := run 2 s3 in
  idle s2 ∧ idle s4 ∧
  result_of writing s4 = Some (Fulfilled VUndefined) ∧
  result_of reading s4 = Some (Fulfilled (VStr "{}")) ∧
  files (state s4) = <["cache.json" := "{}"]> (files (state (initial empty_heap))) ∧
  trace s4 = trace (initial empty_heap) ++ [FileWritten "cache.json"].
Proof.
  apply (blob_readUtf8_after_write (initial empty_heap) "cache.json" "." "{}").
  split; reflexivity.
Defined.


(** [SimpleFileStorageBlob]: [readUtf8] of a file that is not there
    is rejected (ENOENT), and changes nothing. *)
Lemma blob_readUtf8_of_missing_file (s : sched) (path dir : string) :
  idle s → files (state s) !! path = None →
  let '(reading, s1) := spawn (readUtf8 (StorageBlob := SimpleFileStorageBlob path dir)) s in
  let s2 := run 2 s1 in
  idle s2 ∧
  result_of reading s2 = Some (Rejected (VError "ENOENT: no such file or directory")) ∧
  state s2 = state s ∧ trace s2 = trace s.
Proof.
  intros Hidle Hfile. open_state s Hidle. cbn in Hfile.
  unfold spawn, readUtf8, SimpleFileStorageBlob.
  frame_run. unfold complete_io, readFile. cbn. rewrite Hfile. frame_run.
  done.
Qed.



Section Persistent.
Context (storageBlob : StorageBlob) (options : StorageStringKeyValueCacheOptions).
Context `{Json}.


(** X15.  [save] before any data has been loaded does not touch the blob.
    Without an [onSaveError] hook the error goes to the console and [save] is
    fulfilled; with a hook, the hook is called with the error, and [save] is
    fulfilled when the hook returns and rejected with what the hook throws
    (the [catch] block of [save] is not protected). *)
Theorem save_before_load_is_reported (s : sched) :
  storage_data (state s) = None →
  let e := VError "Called save() before any data has been loaded or set." in
  let '(saving, s1) := spawn (Storage.save storageBlob options) s in
  jobs s1 = jobs s ∧ io s1 = io s ∧
  match onSaveError options with
  | None =>
      result_of saving s1 = Some (Fulfilled VUndefined) ∧
      state s1 = state s ∧
      trace s1 = trace s ++
        [SaveCalled;
         ConsoleError ("SimpleFileKeyValueCache - save error: " +:+ error_text e)]
  | Some handler =>
      result_of saving s1
      = Some (match (handler e (state s)).1 with
              | Fulfilled _ => Fulfilled VUndefined
              | Rejected e' => Rejected e'
              end) ∧
      state s1 = (handler e (state s)).2 ∧
      trace s1 = trace s ++ [SaveCalled; OnSaveErrorCalled e]
  end.
Proof.
  intros Hdata. destruct s as [[rd sd ms cs fs pr] old ag js ios tr].
  cbn in Hdata. subst sd. rewrite <- (app_nil_r old).
  unfold spawn, Storage.save, Storage.console_error.
  destruct (onSaveError options) as [handler|]; frame_run.
  - destruct (handler _ _) as [[v|e'] h'] eqn:E; frame_run;
      rewrite ?app_nil_r, <- ?app_assoc; done.
  - rewrite ?app_nil_r, <- ?app_assoc; done.
Qed.


(** X16.  [get] on a persistent store that has loaded resolves to the value
    the key holds, and to [undefined] for a key that is not there; it does
    not read the blob again and changes nothing. *)
Theorem Storage_get_of_loaded_store (s : sched) (m : nat)
    (entries : list (string * nat)) (key : string) (existing : value) :
  idle s → loaded s m entries → holds s entries key existing →
  let '(getting, s1) := spawn (Storage.get storageBlob options key) s in
  let s2 := run 3 s1 in
  idle s2 ∧
  result_of getting s2 = Some (Fulfilled existing) ∧
  state s2 = state s ∧ trace s2 = trace s.
Proof.
  intros Hidle Hloaded Hholds. unfold holds in Hholds.
  open_loaded s Hidle Hloaded. cbn in Hholds.
  unfold spawn, Storage.get, Storage.getData.
  frame_run.
  destruct (alist_get key entries) as [p|] eqn:Hkey; frame_run.
  - rewrite (list_insert_id ms m _ Hm). done.
  - subst existing. rewrite (list_insert_id ms m _ Hm). done.
Qed.
End Persistent.

Lemma save_before_load_is_reported_witness :
  let e := VError "Called save() before any data has been loaded or set." in
  let '(saving, s1) := spawn (Storage.save blob no_options) (initial empty_heap) in
  jobs s1 = jobs (initial empty_heap) ∧ io s1 = io (initial empty_heap) ∧
  result_of saving s1 = Some (Fulfilled VUndefined) ∧
  state s1 = state (initial empty_heap) ∧
  trace s1 = trace (initial empty_heap) ++
    [SaveCalled;
     ConsoleError ("SimpleFileKeyValueCache - save error: " +:+ error_text e)].
Proof.
  apply (save_before_load_is_reported blob no_options (initial empty_heap)).
  reflexivity.
Defined.

Lemma Storage_get_of_loaded_store_witness :
  let '(getting, s1) := spawn (Storage.get blob no_options "k") settled in
  let s2 := run 3 s1 in
  idle s2 ∧
  result_of getting s2 = Some (Fulfilled (VStr "v")) ∧
  state s2 = state settled ∧ trace s2 = trace settled.
Proof.
  apply (Storage_get_of_loaded_store blob no_options settled 0 [("k", 5)] "k"
           (VStr "v")).
  - vm_compute. split; reflexivity.
  - exists 2. vm_compute. repeat split; reflexivity.
  - vm_compute. reflexivity.
Defined.
End BlobFacts.

(** ** The persistent store: what is saved, and what is loaded *)

Module SaveFacts.
Import Js Loop Store Orchestrator Observe Demo LoopFacts StoreFacts Gather GatherFacts.

Lemma contents_app ps more entries kvs :
  contents ps entries kvs → contents (ps ++ more) entries kvs.
Proof.
  unfold contents. intros Hc. eapply Forall2_impl; [exact Hc|].
  intros e kv [? Hp]. split; [done|]. by apply lookup_app_l_Some.
Qed.

Lemma exec_await_each (handler : option (value → async))
    (entries : list (string * nat)) :
  ∀ kvs K r h ps ag js ios tr,
    contents ps entries kvs →
    exec (wrap handler (Storage.await_each entries K)) r (Build_sched h ps ag js ios tr)
    = exec (wrap handler (K (seq (length ps) (length entries)))) r
        (Build_sched h (ps ++ replicate (length entries) (Pending [])) ag
           (js ++ each_jobs (length ps) kvs) ios tr).
Proof.
  induction entries as [|[key p] entries IH]; intros kvs K r h ps ag js ios tr Hc.
  - apply Forall2_nil_inv_l in Hc as ->. cbn. by rewrite !app_nil_r.
  - apply Forall2_cons_inv_l in Hc as ([key' v] & kvs' & [Hkey Hp] & Hc & ->).
    cbn in Hkey, Hp. subst key'.
    cbn [Storage.await_each].
    replace (wrap handler (Call
               (await (APromise p) (fun v => Return (VArr [VStr key; v])))
               (fun one => Storage.await_each entries (fun ps => K (one :: ps)))))
      with (Call (await (APromise p) (fun v => Return (VArr [VStr key; v])))
              (fun one => wrap handler
                            (Storage.await_each entries (fun ps => K (one :: ps)))))
      by (by destruct handler).
    cbn [exec]. rewrite new_promise_eq. unfold await. cbn [exec].
    erewrite subscribe_settled by (by apply lookup_app_l_Some).
    rewrite (IH kvs') by (by apply contents_app).
    rewrite length_app, Nat.add_1_r. cbn [length seq replicate each_jobs].
    by rewrite <- !app_assoc.
Qed.


Lemma subscribe_all_fresh (n : nat) :
  ∀ agg i pre post h ag js ios tr,
    subscribe_all agg i (seq (length pre) n)
      (Build_sched h (pre ++ replicate n (Pending []) ++ post) ag js ios tr)
    = Build_sched h (pre ++ slots agg i n ++ post) ag js ios tr.
Proof.
  induction n as [|n IH]; intros agg i pre post h ag js ios tr; [done|].
  cbn [seq subscribe_all replicate slots].
  erewrite subscribe_pending by (apply list_lookup_middle; done).
  cbn [app].
  rewrite insert_app_r_alt by lia. rewrite Nat.sub_diag. cbn [insert list_insert app].
  replace (pre ++ Pending [AllSlot agg i] :: replicate n (Pending []) ++ post)
    with ((pre ++ [Pending [AllSlot agg i]]) ++ replicate n (Pending []) ++ post)
    by (by rewrite <- app_assoc).
  replace (S (length pre)) with (length (pre ++ [Pending [AllSlot agg i]]))
    by (rewrite length_app; simpl; lia).
  rewrite IH. by rewrite <- !app_assoc.
Qed.

Lemma run_each_jobs (kvs : list (string * value)) :
  ∀ agg i pre post h ag js ios tr,
    run (length kvs)
      (Build_sched h (pre ++ slots agg i (length kvs) ++ post) ag
         (each_jobs (length pre) kvs ++ js) ios tr)
    = Build_sched h (pre ++ map fulfilled (map pair kvs) ++ post) ag
        (js ++ slot_jobs agg i (map pair kvs)) ios tr.
Proof.
  induction kvs as [|[key v] kvs IH]; intros agg i pre post h ag js ios tr.
  - cbn. by rewrite run_0, app_nil_r.
  - cbn [length each_jobs slots app map slot_jobs].
    rewrite run_job_step. cbn [run_job each_k exec].
    erewrite settle_pending by (apply list_lookup_middle; done).
    rewrite insert_app_r_alt by lia. rewrite Nat.sub_diag. cbn [insert list_insert app map].
    transitivity
      (run (length kvs)
         (Build_sched h
            ((pre ++ [fulfilled (pair (key, v))]) ++ slots agg (S i) (length kvs) ++ post)
            ag
            (each_jobs (length (pre ++ [fulfilled (pair (key, v))])) kvs
             ++ (js ++ [(AllSlot agg i, Fulfilled (pair (key, v)))]))
            ios tr)).
    { do 2 f_equal; rewrite <- ?app_assoc; [done|].
      rewrite length_app, Nat.add_1_r. done. }
    rewrite IH. f_equal; by rewrite <- ?app_assoc.
Qed.

Lemma map_const_replicate {A} (x : A) (n m : nat) :
  map (fun _ => x) (seq m n) = replicate n x.
Proof.
  revert m. induction n as [|n IH]; intros m; [done|]. cbn. f_equal. apply IH.
Qed.

Lemma exec_PromiseAll_fresh (handler : option (value → async)) (n : nat)
    k r h pre ag js ios tr :
  n ≠ 0 →
  exec (wrap handler (PromiseAll (seq (length pre) n) k)) r
    (Build_sched h (pre ++ replicate n (Pending [])) ag js ios tr)
  = exec (wrap handler (k (length pre + n))) r
      (Build_sched h (pre ++ slots (length ag) 0 n ++ [Pending []])
         (ag ++ [{| agg_result := length pre + n; agg_open := n;
                    agg_values := replicate n VUndefined |}])
         js ios tr).
Proof.
  intros Hn.
  replace (wrap handler (PromiseAll (seq (length pre) n) k))
    with (PromiseAll (seq (length pre) n) (fun all => wrap handler (k all)))
    by (by destruct handler).
  cbn [exec]. rewrite new_promise_eq. unfold with_aggregates.
  cbn [aggregates state promises jobs io trace].
  rewrite length_seq, map_const_replicate, <- app_assoc.
  rewrite length_app, length_replicate.
  rewrite <- subscribe_all_fresh.
  destruct n as [|n]; [done|]. reflexivity.
Qed.


(** The whole of [await Promise.all(entries.map(async ([k, v]) => [k, await
    v]))] on a map whose promises have been fulfilled: after two turns per
    entry, the function that awaits is about to resume with the pairs. *)
Lemma run_gather (handler : option (value → async))
    (entries : list (string * nat)) (kvs : list (string * value))
    (cont : outcome → async) r h ps ag ios tr :
  contents ps entries kvs →
  run (length entries + length entries)
    (exec (wrap handler
             (Storage.await_each entries (fun awaited =>
                PromiseAll awaited (fun all => AwaitOutcome (APromise all) cont))))
       r (Build_sched h ps ag [] ios tr))
  = Build_sched h
      (ps ++ map fulfilled (map pair kvs) ++ [fulfilled (VArr (map pair kvs))])
      (ag ++ [{| agg_result := length ps + length entries; agg_open := 0;
                 agg_values := map pair kvs |}])
      [(Resume (fun o => wrap handler (cont o)) r, Fulfilled (VArr (map pair kvs)))]
      ios tr.
Proof.
  intros Hc. pose proof (Forall2_length _ _ _ Hc) as Hlen.
  rewrite (exec_await_each handler entries kvs) by done.
  destruct (decide (length entries = 0)) as [Hz|Hnz].
  - destruct entries; [|done]. destruct kvs; [|done].
    cbn [length seq replicate each_jobs map app Nat.add].
    replace (wrap handler (PromiseAll [] (fun all => AwaitOutcome (APromise all) cont)))
      with (PromiseAll [] (fun all => AwaitOutcome (APromise all)
                                         (fun o => wrap handler (cont o))))
      by (by destruct handler).
    cbn [exec]. rewrite new_promise_eq. unfold with_aggregates.
    cbn [aggregates state promises jobs io trace length map].
    rewrite !app_nil_r.
    erewrite settle_pending by apply lookup_fresh.
    rewrite insert_fresh. cbn [map app].
    erewrite subscribe_settled by apply lookup_fresh.
    rewrite run_0. by rewrite Nat.add_0_r.
  - rewrite exec_PromiseAll_fresh by done.
    replace (wrap handler (AwaitOutcome (APromise (length ps + length entries)) cont))
      with (AwaitOutcome (APromise (length ps + length entries))
              (fun o => wrap handler (cont o)))
      by (by destruct handler).
    cbn [exec app].
    erewrite subscribe_pending; cycle 1.
    { rewrite app_assoc.
      replace (length ps + length entries)
        with (length (ps ++ slots (length ag) 0 (length entries))).
      - apply lookup_fresh.
      - rewrite length_app. f_equal. clear.
        generalize 0. induction (length entries) as [|n IH]; intros i; [done|].
        cbn. f_equal. apply IH. }
    rewrite run_add.
    rewrite Hlen at 2.
    assert (Hins : ∀ (pre : list pstate) x y n mid,
              length mid = n →
              <[length pre + n := y]> (pre ++ mid ++ [x]) = pre ++ mid ++ [y]).
    { intros pre x y n mid <-. rewrite app_assoc, <- length_app.
      rewrite insert_fresh. by rewrite <- app_assoc. }
    rewrite Hins; cycle 1.
    { clear. generalize 0. induction (length entries) as [|n IH]; intros i; [done|].
      cbn. f_equal. apply IH. }
    rewrite Hlen.
    rewrite <- (app_nil_r (each_jobs _ _)).
    rewrite run_each_jobs. cbn [app].
    replace (length kvs) with (length (map pair kvs)) at 1
      by apply length_map.
    erewrite run_all_slots; cycle 1.
    { intros E. apply (f_equal length) in E. rewrite length_map in E.
      cbn in E. lia. }
    { rewrite lookup_fresh, length_map. do 2 f_equal. clear.
      induction kvs as [|kv kvs IH]; [done|]. cbn. by rewrite IH. }
    { rewrite <- Hlen. rewrite app_assoc.
      replace (length ps + length entries)
        with (length (ps ++ map fulfilled (map pair kvs))).
      - apply lookup_fresh.
      - rewrite length_app, !length_map. lia. }
    rewrite insert_fresh. cbn [map].
    rewrite <- Hlen. rewrite Hins by (rewrite !length_map; lia).
    done.
Qed.


Lemma fromEntries_pairs `{Json} (kvs : list (string * value)) :
  Storage.fromEntries (map pair kvs) = VObj (defined kvs).
Proof.
  unfold Storage.fromEntries. f_equal.
  induction kvs as [|[key v] kvs IH]; [done|].
  cbn. rewrite IH. by destruct (is_undefined v).
Qed.

Lemma exec_resolve_each (handler : option (value → async))
    (fields : list (string * value)) :
  ∀ K r h ps ag js ios tr,
    exec (wrap handler (Storage.resolve_each fields K)) r
      (Build_sched h ps ag js ios tr)
    = exec (wrap handler (K (resolved (length ps) fields))) r
        (Build_sched h (ps ++ map (fun f => fulfilled f.2) fields) ag js ios tr).
Proof.
  induction fields as [|[key v] fields IH]; intros K r h ps ag js ios tr.
  - cbn. by rewrite app_nil_r.
  - cbn [Storage.resolve_each].
    replace (wrap handler (PromiseResolve v (fun p =>
               Storage.resolve_each fields (fun ps => K ((key, p) :: ps)))))
      with (PromiseResolve v (fun p => wrap handler
               (Storage.resolve_each fields (fun ps => K ((key, p) :: ps)))))
      by (by destruct handler).
    cbn [exec]. rewrite new_promise_eq. rewrite IH.
    rewrite length_app, Nat.add_1_r. cbn [resolved map].
    by rewrite <- !app_assoc.
Qed.

Lemma alist_get_resolved_at (key : string) (fields : list (string * value)) :
  ∀ base,
    match alist_get key (resolved base fields) with
    | Some p => ∃ v i, p = base + i ∧ assoc key fields = Some v ∧
                       map (fun f => fulfilled f.2) fields !! i = Some (fulfilled v)
    | None => assoc key fields = None
    end.
Proof.
  induction fields as [|[k v] fields IH]; intros base; [done|].
  cbn. destruct (String.eqb k key).
  - exists v, 0. split; [lia|done].
  - specialize (IH (S base)).
    destruct (alist_get key (resolved (S base) fields)); [|done].
    destruct IH as (x & i & -> & ? & Hx). exists x, (S i). split; [lia|done].
Qed.

Lemma alist_set_fresh key p l :
  alist_get key l = None → alist_set key p l = l ++ [(key, p)].
Proof.
  induction l as [|[k q] l IH]; [done|]. cbn.
  destruct (String.eqb k key); [done|]. intros Hl. by rewrite IH.
Qed.

Lemma alist_get_app_None key l1 l2 :
  alist_get key l1 = None → alist_get key (l1 ++ l2) = alist_get key l2.
Proof.
  induction l1 as [|[k q] l1 IH]; [done|]. cbn.
  by destruct (String.eqb k key).
Qed.

(** [new Map(entries)] keeps entries whose keys are pairwise different as
    they are. *)
Lemma new_Map_of_distinct (fields : list (string * value)) :
  ∀ base acc,
    List.NoDup (map fst fields) →
    (∀ k, In k (map fst fields) → alist_get k acc = None) →
    fold_left (fun l e => alist_set e.1 e.2 l) (resolved base fields) acc
    = acc ++ resolved base fields.
Proof.
  induction fields as [|[k v] fields IH]; intros base acc Hnd Hacc.
  - cbn. by rewrite app_nil_r.
  - cbn [resolved fold_left fst snd]. inversion Hnd as [|? ? Hk Hnd']; subst.
    rewrite alist_set_fresh by (apply Hacc; by left).
    rewrite IH; [by rewrite <- app_assoc|done|].
    intros k' Hk'. rewrite alist_get_app_None by (apply Hacc; by right).
    cbn. destruct (String.eqb_spec k k') as [->|_]; done.
Qed.

Lemma contents_resolved (fields : list (string * value)) :
  ∀ pre post,
    contents (pre ++ map (fun f => fulfilled f.2) fields ++ post)
      (resolved (length pre) fields) fields.
Proof.
  induction fields as [|[k v] fields IH]; intros pre post; [constructor|].
  cbn [resolved map]. constructor.
  - split; [done|]. by apply list_lookup_middle.
  - specialize (IH (pre ++ [fulfilled v]) post).
    rewrite length_app, Nat.add_1_r, <- app_assoc in IH. exact IH.
Qed.

Section Persistent.
Context (path dir : string) (options : StorageStringKeyValueCacheOptions).
Context `{Json}.


(** X17.  [save] on a store that has loaded, whatever the number of its
    entries: after two turns per entry and seven more, the file of the blob
    holds [JSON.stringify] of the object made of the entries whose value is
    not [undefined], in the order of the map; [save] is fulfilled, and the
    map is as it was. *)
Theorem save_writes_what_the_map_holds (s : sched) (m : nat)
    (entries : list (string * nat)) (kvs : list (string * value)) :
  idle s → loaded s m entries → contents (promises s) entries kvs →
  let '(saving, s1) :=
    spawn (Storage.save (SimpleFileStorageBlob path dir) options) s in
  let s2 := run (S (length entries + length entries + 6)) s1 in
  idle s2 ∧
  result_of saving s2 = Some (Fulfilled VUndefined) ∧
  files (state s2) = <[path := JSON_stringify (VObj (defined kvs))]> (files (state s)) ∧
  trace s2 = trace s ++ [SaveCalled; FileWritten path] ∧
  loaded s2 m entries.
Proof.
  intros Hidle Hloaded Hc. open_loaded s Hidle Hloaded. cbn in Hc.
  unfold spawn, Storage.save. rewrite new_promise_framed.
  match goal with
  | |- context [run ?n ?st] =>
      eassert (E : run n st = _); [|rewrite E; clear E]
  end.
  { frame_run.
    change (try_catch ?b ?h) with (wrap (Some h) b). unfold await at 1.
    rewrite run_add.
    rewrite (run_gather _ entries kvs) by (by apply contents_app).
    set (old2 := (old ++ [Pending []]) ++ map fulfilled (map pair kvs)
                   ++ [fulfilled (VArr (map pair kvs))]).
    assert (Hsaving : old2 !! (length old + 0) = Some (Pending [])).
    { unfold old2. rewrite <- !app_assoc, Nat.add_0_r. by apply list_lookup_middle. }
    rewrite <- (app_nil_r old2).
    frame_run.
    erewrite settle_pending by (by apply lookup_app_l_Some).
    rewrite fromEntries_pairs.
    reflexivity. }
  pose proof (lookup_lt_Some _ _ _ Hdp) as Hdplen.
  split; [done|]. split.
  { unfold result_of. cbn.
    rewrite list_lookup_insert_eq; [done|]. rewrite !length_app. simpl. lia. }
  split; [done|]. split; [cbn; by rewrite <- app_assoc|].
  exists dp. cbn. split; [done|]. split.
  - rewrite list_lookup_insert_ne by lia.
    rewrite <- !app_assoc. by apply lookup_app_l_Some.
  - by rewrite list_lookup_insert_eq.
Qed.

Lemma contents_set ps entries kvs key p v :
  contents ps entries kvs → ps !! p = Some (Settled (Fulfilled v)) →
  contents ps (alist_set key p entries) (kv_set key v kvs).
Proof.
  intros Hc Hp. induction Hc as [|[k q] [k' x] entries kvs [Hk Hq] Hc IH].
  - constructor; [done|constructor].
  - cbn in Hk, Hq. subst k'. cbn. destruct (String.eqb k key).
    + constructor; [done|exact Hc].
    + constructor; [done|exact IH].
Qed.


(** X18.  With the default [onUpdate], [set(key, value)] that changes the
    value of the key writes through: when it is done, the file holds the
    entries with the new value (an existing key keeps its place, a new one
    goes last), and [get(key)] resolves to the new value. *)
Theorem Storage_set_writes_through (s : sched) (m : nat)
    (entries : list (string * nat)) (kvs : list (string * value))
    (key : string) (value existing : value) :
  idle s → loaded s m entries → contents (promises s) entries kvs →
  onUpdate options = None →
  is_undefined value = false →
  holds s entries key existing → strict_eq existing value = false →
  let blob := SimpleFileStorageBlob path dir in
  let kvs' := kv_set key value kvs in
  let '(setting, s1) := spawn (Storage.set blob options key value) s in
  let s2 := run (4 + (length kvs' + length kvs' + 7)) s1 in
  let '(getting, s3) := spawn (Storage.get blob options key) s2 in
  let s4 := run 3 s3 in
  idle s2 ∧ idle s4 ∧
  result_of setting s4 = Some (Fulfilled VUndefined) ∧
  result_of getting s4 = Some (Fulfilled value) ∧
  files (state s4) = <[path := JSON_stringify (VObj (defined kvs'))]> (files (state s)).
Proof.
  intros Hidle Hloaded Hc Hupdate Hvalue Hholds Hchange blob kvs'.
  unfold holds in Hholds.
  open_loaded s Hidle Hloaded. cbn in Hc, Hholds.
  unfold spawn at 1. unfold blob, Storage.set, Storage.getData, Storage.call_onUpdate,
    Storage.save.
  rewrite Hupdate. rewrite new_promise_framed.
  assert (Hc' : ∀ more,
    contents (old ++ [Pending []; Settled (Fulfilled (VMap m));
                      Settled (Fulfilled value)] ++ more)
      (alist_set key (length old + 2) entries) kvs').
  { intros more. apply contents_set; [by apply contents_app|].
    by rewrite lookup_app_add. }
  match goal with
  | |- context [run ?n ?st] =>
      eassert (E : run n st = _); [|rewrite E; clear E]
  end.
  { rewrite <- (Forall2_length _ _ _ (Hc' [])).
    destruct (alist_get key entries) as [q|] eqn:Hkey.
    - frame_run; rewrite Hvalue; frame_run; rewrite Hkey; frame_run;
        rewrite Hchange; frame_run.
      change (try_catch ?b ?h) with (wrap (Some h) b). unfold await at 1.
      rewrite run_add.
      rewrite (run_gather _ _ kvs') by apply Hc'.
      match goal with
      | |- context [Build_sched _ (?a ++ ?b ++ ?c) _ _ _ _] =>
          rewrite (app_assoc a b c); rewrite <- (app_nil_r ((a ++ b) ++ c))
      end.
      frame_run. rewrite <- !app_assoc. cbn [app]. frame_run.
      rewrite fromEntries_pairs. reflexivity.
    - frame_run; rewrite Hvalue; frame_run; rewrite Hkey; frame_run.
      subst existing. destruct value; try discriminate Hvalue; frame_run.
      all: change (try_catch ?b ?h) with (wrap (Some h) b); unfold await at 1.
      all: rewrite run_add.
      all: rewrite (run_gather _ _ kvs') by apply Hc'.
      all: match goal with
      | |- context [Build_sched _ (?a ++ ?b ++ ?c) _ _ _ _] =>
          rewrite (app_assoc a b c); rewrite <- (app_nil_r ((a ++ b) ++ c))
      end.
      all: frame_run; rewrite <- !app_assoc; cbn [app]; frame_run.
      all: rewrite fromEntries_pairs; reflexivity. }
  match goal with
  | |- context [Build_sched _ ?ps _ [] [] _] => set (old3 := ps)
  end.
  assert (H1 : old3 !! dp = Some (Settled (Fulfilled (VMap m))))
    by (by apply lookup_app_l_Some).
  assert (H2 : old3 !! (length old + 2) = Some (Settled (Fulfilled value)))
    by (unfold old3; by rewrite lookup_app_add).
  assert (H3 : old3 !! (length old + 0) = Some (Settled (Fulfilled VUndefined)))
    by (unfold old3; by rewrite lookup_app_add).
  rewrite <- (app_nil_r old3).
  unfold spawn, Storage.get, Storage.getData.
  unfold set_files. frame_run. rewrite alist_get_set_eq. frame_run.
  split; [done|]. split; [done|]. split; [|done].
  unfold result_of. cbn. by rewrite (lookup_app_l_Some _ _ _ _ H3).
Qed.

End Persistent.

Section Miss.
Context (storageBlob : StorageBlob) (options : StorageStringKeyValueCacheOptions).
Context `{Json}.

(** X19.  In the persistent store, a [getOrCreate] on a key that is not in
    the map calls the factory and then fails, although the factory has
    returned: the caller is rejected with the TypeError of [promise.resolve];
    [onUpdate] and [save] are not called, whatever the options; the key is
    deleted again, so the store and the file are as they were, and a later
    [get] resolves to [undefined]. *)
Theorem Storage_created_value_is_lost
    (s : sched) (m : nat) (entries : list (string * nat))
    (key : string) (v : value) (factory : FactoryFunction) :
  idle s → loaded s m entries →
  alist_get key entries = None → returns v factory →
  let '(creating, s1) :=
    spawn (Storage.getOrCreate storageBlob options key factory) s in
  let s2 := run 4 s1 in
  let '(getting, s3) := spawn (Storage.get storageBlob options key) s2 in
  let s4 := run 3 s3 in
  idle s2 ∧ idle s4 ∧
  result_of creating s4 = Some (Rejected TypeError_resolve) ∧
  result_of getting s4 = Some (Fulfilled VUndefined) ∧
  state s4 = state s ∧
  trace s4 = trace s ++ [FactoryCalled key].
Proof.
  intros Hidle Hloaded Hkey Hreturns. open_loaded s Hidle Hloaded.
  unfold spawn, Storage.getOrCreate, Storage.get, Storage.getData, defer,
    promise_resolve.
  destruct Hreturns; frame_run; rewrite Hkey; frame_run;
    rewrite (alist_delete_set_absent _ _ _ Hkey); frame_run;
    rewrite Hkey; frame_run;
    rewrite (list_insert_id ms m _ Hm); done.
Qed.
End Miss.

Section Load.
Context (path dir : string) (options : StorageStringKeyValueCacheOptions).
Context `{Json}.

(** X20.  The first [get] on a persistent store loads the blob: when the
    file holds the text of an object whose values are strings, [get(key)]
    resolves to the string of the key, and to [undefined] for a key the
    object does not have; nothing is reported, and the store holds the fields
    of the object in their order. *)
Theorem Storage_first_get_loads_the_blob (s : sched) (text : string)
    (fields : list (string * value)) (key : string) :
  idle s →
  storage_data (state s) = None →
  files (state s) !! path = Some text →
  JSON_parse text = Some (VObj fields) →
  existsb (fun f => negb (is_string f.2)) fields = false →
  List.NoDup (map fst fields) →
  let '(getting, s1) :=
    spawn (Storage.get (SimpleFileStorageBlob path dir) options key) s in
  let s2 := run 6 s1 in
  idle s2 ∧
  result_of getting s2 = Some (Fulfilled (default VUndefined (assoc key fields))) ∧
  trace s2 = trace s ∧
  ∃ m entries, loaded s2 m entries ∧ contents (promises s2) entries fields.
Proof.
  intros Hidle Hdata Hfile Hparse Hstrings Hnd.
  destruct s as [[rd sd ms cs fs pr] old ag js ios tr];
    destruct Hidle as [Hjobs Hio]; cbn in Hjobs, Hio, Hdata, Hfile; subst js ios sd.
  rewrite <- (app_nil_r old).
  unfold spawn, Storage.get, Storage.getData, Storage.load, readUtf8,
    SimpleFileStorageBlob.
  rewrite new_promise_framed.
  match goal with
  | |- context [run ?n ?st] =>
      eassert (E : run n st = _); [|rewrite E; clear E]
  end.
  { frame_run. unfold complete_io, readFile. cbn. rewrite Hfile. frame_run.
    rewrite Hparse. cbn [truthy typeof_object negb orb Object_entries].
    rewrite Hstrings.
    change (try_catch ?b ?h) with (wrap (Some h) b).
    rewrite exec_resolve_each. rewrite length_app. cbn [length].
    cbn [wrap try_catch exec].
    unfold new_Map, set_storage_data, set_maps.
    cbn [state with_state maps runtime_data storage_data cells files fst snd].
    rewrite (new_Map_of_distinct fields _ [] Hnd) by done. cbn [app].
    rewrite <- !app_assoc. cbn [app]. frame_run.
    unfold Map_get, Map_entries. cbn [maps map_ref]. rewrite lookup_fresh.
    cbn [default from_option id].
    pose proof (alist_get_resolved_at key fields (length old + 5)) as Hget.
    destruct (alist_get key (resolved (length old + 5) fields)) as [p|].
    - destruct Hget as (v & i & -> & Hv & Hi).
      assert (v = default VUndefined (assoc key fields)) as -> by (by rewrite Hv).
      unfold await. cbn [exec].
      erewrite subscribe_settled
        by (rewrite <- Nat.add_assoc, lookup_app_add; cbn; exact Hi).
      frame_run. reflexivity.
    - frame_run. rewrite Hget. reflexivity. }
  frame_run. split; [done|]. split; [done|]. split; [done|].
  exists (length ms), (resolved (length old + 5) fields). split.
  - exists (length old + 2). cbn. split; [done|].
    split; [by rewrite lookup_app_add|apply lookup_fresh].
  - cbn.
    match goal with
    | |- contents (old ++ ?c0 :: ?c1 :: ?c2 :: ?c3 :: ?c4 :: ?rest) _ _ =>
        pose proof (contents_resolved fields (old ++ [c0; c1; c2; c3; c4]) []) as Hc
    end.
    rewrite length_app, app_nil_r, <- app_assoc in Hc. exact Hc.
Qed.
End Load.

Lemma save_writes_what_the_map_holds_witness :
  let '(saving, s1) :=
    spawn (Storage.save (SimpleFileStorageBlob "cache.json" ".") no_options) settled in
  let s2 := run (S (length [("k", 5)] + length [("k", 5)] + 6)) s1 in
  idle s2 ∧
  result_of saving s2 = Some (Fulfilled VUndefined) ∧
  files (state s2)
  = <["cache.json" := JSON_stringify (VObj (defined [("k", VStr "v")]))]>
      (files (state settled)) ∧
  trace s2 = trace settled ++ [SaveCalled; FileWritten "cache.json"] ∧
  loaded s2 0 [("k", 5)].
Proof.
  apply (save_writes_what_the_map_holds "cache.json" "." no_options settled 0
           [("k", 5)] [("k", VStr "v")]).
  - vm_compute. split; reflexivity.
  - exists 2. vm_compute. repeat split; reflexivity.
  - constructor; [vm_compute; split; reflexivity|constructor].
Defined.

Lemma Storage_set_writes_through_witness :
  let blob := SimpleFileStorageBlob "cache.json" "." in
  let kvs' := kv_set "k" (VStr "w") [("k", VStr "v")] in
  let '(setting, s1) := spawn (Storage.set blob no_options "k" (VStr "w")) settled in
  let s2 := run (4 + (length kvs' + length kvs' + 7)) s1 in
  let '(getting, s3) := spawn (Storage.get blob no_options "k") s2 in
  let s4 := run 3 s3 in
  idle s2 ∧ idle s4 ∧
  result_of setting s4 = Some (Fulfilled VUndefined) ∧
  result_of getting s4 = Some (Fulfilled (VStr "w")) ∧
  files (state s4)
  = <["cache.json" := JSON_stringify (VObj (defined kvs'))]> (files (state settled)).
Proof.
  apply (Storage_set_writes_through "cache.json" "." no_options settled 0
           [("k", 5)] [("k", VStr "v")] "k" (VStr "w") (VStr "v")).
  - vm_compute. split; reflexivity.
  - exists 2. vm_compute. repeat split; reflexivity.
  - constructor; [vm_compute; split; reflexivity|constructor].
  - reflexivity.
  - reflexivity.
  - vm_compute. reflexivity.
  - reflexivity.
Defined.

Lemma Storage_created_value_is_lost_witness :
  let '(creating, s1) :=
    spawn (Storage.getOrCreate blob no_options "new" (constant (VStr "x"))) settled in
  let s2 := run 4 s1 in
  let '(getting, s3) := spawn (Storage.get blob no_options "new") s2 in
  let s4 := run 3 s3 in
  idle s2 ∧ idle s4 ∧
  result_of creating s4 = Some (Rejected TypeError_resolve) ∧
  result_of getting s4 = Some (Fulfilled VUndefined) ∧
  state s4 = state settled ∧
  trace s4 = trace settled ++ [FactoryCalled "new"].
Proof.
  apply (Storage_created_value_is_lost blob no_options settled 0 [("k", 5)] "new"
           (VStr "x") (constant (VStr "x"))).
  - vm_compute. split; reflexivity.
  - exists 2. vm_compute. repeat split; reflexivity.
  - reflexivity.
  - apply returns_sync.
Defined.

Lemma Storage_first_get_loads_the_blob_witness :
  let '(getting, s1) :=
    spawn (Storage.get (H := Samples.json) (SimpleFileStorageBlob "cache.json" ".")
             no_options "k") Samples.stored in
  let s2 := run 6 s1 in
  idle s2 ∧
  result_of getting s2
  = Some (Fulfilled (default VUndefined (assoc "k" Samples.stored_fields))) ∧
  trace s2 = trace Samples.stored ∧
  ∃ m entries, loaded s2 m entries ∧
               contents (promises s2) entries Samples.stored_fields.
Proof.
  apply (Storage_first_get_loads_the_blob (H := Samples.json) "cache.json" "."
           no_options Samples.stored (stringify (VObj Samples.stored_fields))
           Samples.stored_fields "k").
  - split; reflexivity.
  - reflexivity.
  - vm_compute. reflexivity.
  - vm_compute. reflexivity.
  - reflexivity.
  - constructor; [intros []|constructor].
Defined.

End SaveFacts.

(** ** The persistent store: a failing hook, and callers that load together *)

Module StoreMore.
Import Js Loop Store Orchestrator Observe Demo LoopFacts StoreFacts Gather GatherFacts SaveFacts.

Section Persistent.
Context (storageBlob : StorageBlob) (options : StorageStringKeyValueCacheOptions).
Context `{Json}.

(** X21.  When the [onUpdate] hook fails, [set(key, value)] is rejected
    with the hook's error, and yet the map holds the new value: the map is
    changed before the hook is called, and nothing undoes the change. *)
Theorem failing_onUpdate_keeps_the_set_value
    (s : sched) (m : nat) (entries : list (string * nat))
    (key : string) (value existing e : value) :
  idle s → loaded s m entries →
  onUpdate options = Some (fun _ _ _ => Throw e) →
  is_undefined value = false →
  holds s entries key existing → strict_eq existing value = false →
  let '(setting, s1) := spawn (Storage.set storageBlob options key value) s in
  let s2 := run 4 s1 in
  idle s2 ∧
  result_of setting s2 = Some (Rejected e) ∧
  trace s2 = trace s ++ [OnUpdateCalled key value] ∧
  ∃ p, loaded s2 m (alist_set key p entries) ∧
       promises s2 !! p = Some (Settled (Fulfilled value)).
Proof.
  intros Hidle Hloaded Hupdate Hvalue Hholds Hchange.
  unfold holds in Hholds. open_loaded s Hidle Hloaded. cbn in Hholds.
  pose proof (lookup_lt_Some _ _ _ Hdp) as Hdplen.
  unfold spawn, Storage.set, Storage.getData, Storage.call_onUpdate.
  rewrite Hupdate.
  destruct (alist_get key entries) as [q|] eqn:Hkey.
  - frame_run; rewrite Hvalue; frame_run; rewrite Hkey; frame_run;
      rewrite Hchange; frame_run.
    split; [done|]. split; [done|]. split; [by rewrite <- ?app_assoc|].
    exists (length old + 2). split; [|by rewrite lookup_app_add].
    exists dp. cbn. split; [done|].
    split; [by apply lookup_app_l_Some|by rewrite list_lookup_insert_eq].
  - frame_run; rewrite Hvalue; frame_run; rewrite Hkey; frame_run.
    subst existing. destruct value; try discriminate Hvalue; frame_run.
    all: split; [done|]; split; [done|]; split; [by rewrite <- ?app_assoc|].
    all: exists (length old + 2); split; [|by rewrite lookup_app_add].
    all: exists dp; cbn; split; [done|].
    all: split; [by apply lookup_app_l_Some|by rewrite list_lookup_insert_eq].
Qed.
End Persistent.

Section Load.
Context (path dir : string) (options : StorageStringKeyValueCacheOptions).
Context `{Json}.

(** X22.  Two [getData] calls on a store that has not loaded share one
    load: when the file holds the text of an object whose values are
    strings, one map is built, and both calls resolve to it. *)
Theorem concurrent_loads_share_one_map (s : sched) (text : string)
    (fields : list (string * value)) :
  idle s →
  storage_data (state s) = None →
  files (state s) !! path = Some text →
  JSON_parse text = Some (VObj fields) →
  existsb (fun f => negb (is_string f.2)) fields = false →
  let blob := SimpleFileStorageBlob path dir in
  let '(first, s1) := spawn (Storage.getData blob options false) s in
  let '(second, s2) := spawn (Storage.getData blob options false) s1 in
  let s3 := run 5 s2 in
  idle s3 ∧
  result_of first s3 = Some (Fulfilled (VMap (length (maps (state s))))) ∧
  result_of second s3 = Some (Fulfilled (VMap (length (maps (state s))))) ∧
  trace s3 = trace s ∧
  ∃ entries, maps (state s3) = maps (state s) ++ [entries].
Proof.
  intros Hidle Hdata Hfile Hparse Hstrings blob.
  destruct s as [[rd sd ms cs fs pr] old ag js ios tr];
    destruct Hidle as [Hjobs Hio]; cbn in Hjobs, Hio, Hdata, Hfile; subst js ios sd.
  rewrite <- (app_nil_r old).
  unfold blob, spawn, Storage.getData, Storage.load, readUtf8, SimpleFileStorageBlob.
  rewrite new_promise_framed.
  frame_run.
  match goal with
  | |- context [run ?n ?st] =>
      eassert (E : run n st = _); [|rewrite E; clear E]
  end.
  { frame_run. unfold complete_io, readFile. cbn. rewrite Hfile. frame_run.
    rewrite Hparse. cbn [truthy typeof_object negb orb Object_entries].
    rewrite Hstrings.
    change (try_catch ?b ?h) with (wrap (Some h) b).
    rewrite exec_resolve_each. rewrite length_app. cbn [length].
    cbn [wrap try_catch exec].
    unfold new_Map, set_storage_data, set_maps.
    cbn [state with_state maps runtime_data storage_data cells files fst snd].
    rewrite <- !app_assoc. cbn [app]. frame_run. reflexivity. }
  frame_run. split; [done|]. split; [done|]. split; [done|]. split; [done|].
  eexists. reflexivity.
Qed.
End Load.

Lemma failing_onUpdate_keeps_the_set_value_witness :
  let '(setting, s1) :=
    spawn (Storage.set blob Samples.failing_update "k" (VStr "w")) settled in
  let s2 := run 4 s1 in
  idle s2 ∧
  result_of setting s2 = Some (Rejected (VError "offline")) ∧
  trace s2 = trace settled ++ [OnUpdateCalled "k" (VStr "w")] ∧
  ∃ p, loaded s2 0 (alist_set "k" p [("k", 5)]) ∧
       promises s2 !! p = Some (Settled (Fulfilled (VStr "w"))).
Proof.
  apply (failing_onUpdate_keeps_the_set_value blob Samples.failing_update settled 0
           [("k", 5)] "k" (VStr "w") (VStr "v") (VError "offline")).
  - vm_compute. split; reflexivity.
  - exists 2. vm_compute. repeat split; reflexivity.
  - reflexivity.
  - reflexivity.
  - vm_compute. reflexivity.
  - reflexivity.
Defined.

Lemma concurrent_loads_share_one_map_witness :
  let blob := SimpleFileStorageBlob "cache.json" "." in
  let '(first, s1) :=
    spawn (Storage.getData (H := Samples.json) blob no_options false) Samples.stored in
  let '(second, s2) :=
    spawn (Storage.getData (H := Samples.json) blob no_options false) s1 in
  let s3 := run 5 s2 in
  idle s3 ∧
  result_of first s3
  = Some (Fulfilled (VMap (length (maps (state Samples.stored))))) ∧
  result_of second s3
  = Some (Fulfilled (VMap (length (maps (state Samples.stored))))) ∧
  trace s3 = trace Samples.stored ∧
  ∃ entries, maps (state s3) = maps (state Samples.stored) ++ [entries].
Proof.
  apply (concurrent_loads_share_one_map (H := Samples.json) "cache.json" "."
           no_options Samples.stored (stringify (VObj Samples.stored_fields))
           Samples.stored_fields).
  - split; reflexivity.
  - reflexivity.
  - vm_compute. reflexivity.
  - vm_compute. reflexivity.
  - reflexivity.
Defined.
End StoreMore.

(** ** resizeImage *)

Module ResizeFacts.
Import Js Loop Store Orchestrator Observe Demo LoopFacts StoreFacts.

Section Platform.
Context `{Crypto} `{Codec}.


(** The call the orchestrator makes, [resizeImage(inputImage, { width:
    maxWidth }, debugText)], is the general function at these options. *)
Lemma resizeImage_width_only rawData maxWidth debugText :
  Orchestrator.resizeImage rawData maxWidth debugText
  = Resize.resizeImage rawData (Resize.width_only maxWidth) debugText.
Proof.
  unfold Orchestrator.resizeImage, Resize.resizeImage, Resize.minify,
    Resize.resize_option, Resize.debug_text, Resize.width_only. cbn.
  destruct (Qeq_bool maxWidth 0); cbn;
    (destruct debugText as [text|]; [destruct (String.eqb text EmptyString)|]);
    reflexivity.
Qed.

Lemma nonzero_is_truthy (q : Q) : ¬ (q == 0)%Q → Qeq_bool q 0 = false.
Proof.
  intros Hq. destruct (Qeq_bool q 0) eqn:E; [|done].
  by apply Qeq_bool_iff in E.
Qed.

Lemma nonempty_is_truthy (text : string) :
  text ≠ EmptyString → String.eqb text EmptyString = false.
Proof. intros Hne. by destruct (String.eqb_spec text EmptyString). Qed.

(** Whether [sharp(data).metadata()] gives a width and a height that
    count: both there and not 0. *)
Lemma unsized_is_falsy (w h : option Q) :
  Resize.given w && Resize.given h = false →
  negb (truthy (optional_num w)) || negb (truthy (optional_num h)) = true.
Proof.
  unfold Resize.given. destruct w as [w|], h as [h|]; cbn;
    try destruct (Qeq_bool w 0); try destruct (Qeq_bool h 0); done.
Qed.


(** X23.  Without debug text, and when the rendered bytes have a format, a
    width and a height: [resizeImage] returns these, the rendered bytes,
    their sha256 digest as [hash], and as [ext] the first file suffix sharp
    knows for the format, or a dot and the format when it knows none.  The
    codec is called once, with [quality] 85 unless the options give one, and
    with a [resize] option only when the options give a width or a height. *)
Theorem resizeImage_returns_the_rendered_image
    (s : sched) (rawData : string) (options : Resize.ImageResizeOptions)
    (debugText : option string) (format : string) (w h : Q) :
  let data := imagemin_webp rawData (Resize.resize_option options)
                (Resize.or_else (Resize.quality options) 85) in
  idle s →
  Resize.debug_text debugText = None →
  sharp_metadata data = (Some format, Some w, Some h) →
  format ≠ EmptyString → ¬ (w == 0)%Q → ¬ (h == 0)%Q →
  let '(resizing, s1) := spawn (Resize.resizeImage rawData options debugText) s in
  let s2 := run 4 s1 in
  idle s2 ∧
  result_of resizing s2 = Some (Fulfilled (Resize.ResizedImage data format w h)) ∧
  state s2 = state s ∧
  trace s2 = trace s ++ [CodecCalled (default 0%Q (Resize.width options))].
Proof.
  intros data Hidle Hdebug Hmeta Hformat Hw Hh. open_state s Hidle.
  unfold spawn, Resize.resizeImage, Resize.minify. rewrite Hdebug.
  frame_run. unfold complete_io. frame_run. unfold complete_io. cbn.
  fold data. rewrite Hmeta. frame_run.
  rewrite (nonempty_is_truthy _ Hformat), (nonzero_is_truthy _ Hw),
    (nonzero_is_truthy _ Hh).
  frame_run. unfold Resize.ResizedImage.
  destruct (sharp_fileSuffix format); done.
Qed.


(** X24.  When the rendered bytes cannot be read back, [resizeImage] is
    rejected: with "unknown output file extension" when they have no format,
    and, when they have one, with "unknown output width or height" when the
    width or the height is missing or 0. *)
Theorem resizeImage_rejects_unreadable_output
    (s : sched) (rawData : string) (options : Resize.ImageResizeOptions)
    (debugText : option string) (format : option string) (w h : option Q) :
  let data := imagemin_webp rawData (Resize.resize_option options)
                (Resize.or_else (Resize.quality options) 85) in
  idle s →
  Resize.debug_text debugText = None →
  sharp_metadata data = (format, w, h) →
  format ≠ Some EmptyString →
  present format && Resize.given w && Resize.given h = false →
  let '(resizing, s1) := spawn (Resize.resizeImage rawData options debugText) s in
  let s2 := run 4 s1 in
  idle s2 ∧
  result_of resizing s2
  = Some (Rejected (VError
      (if present format
       then "Cannot transform image, unknown output width or height."
       else "Cannot parse resulting file - unknown output file extension"))) ∧
  state s2 = state s.
Proof.
  intros data Hidle Hdebug Hmeta Hformat Hbad. open_state s Hidle.
  unfold spawn, Resize.resizeImage, Resize.minify. rewrite Hdebug.
  frame_run. unfold complete_io. frame_run. unfold complete_io. cbn.
  fold data. rewrite Hmeta. frame_run.
  destruct format as [format|]; frame_run; [|done].
  rewrite nonempty_is_truthy by congruence. cbn in Hbad.
  cbn [negb]. rewrite (unsized_is_falsy w h Hbad). frame_run. done.
Qed.


(** X25.  With a debug text and a source image whose metadata lack a width
    or a height, [resizeImage] is rejected before the codec is called. *)
Theorem resizeImage_debug_needs_the_source_size
    (s : sched) (rawData : string) (options : Resize.ImageResizeOptions)
    (text : string) (format : option string) (w h : option Q) :
  idle s →
  text ≠ EmptyString →
  sharp_metadata rawData = (format, w, h) →
  Resize.given w && Resize.given h = false →
  let '(resizing, s1) := spawn (Resize.resizeImage rawData options (Some text)) s in
  let s2 := run 2 s1 in
  idle s2 ∧
  result_of resizing s2
  = Some (Rejected (VError "Expected width and height in image metadata.")) ∧
  state s2 = state s ∧ trace s2 = trace s.
Proof.
  intros Hidle Htext Hmeta Hbad. open_state s Hidle.
  unfold spawn, Resize.resizeImage, Resize.debug_text.
  rewrite (nonempty_is_truthy _ Htext).
  frame_run. unfold complete_io. cbn. rewrite Hmeta. frame_run.
  rewrite (unsized_is_falsy w h Hbad). frame_run. done.
Qed.


(** With a debug text and a source image that has a width and a height, the
    codec renders the image on which the text has been drawn. *)
Theorem resizeImage_draws_the_debug_text
    (s : sched) (rawData : string) (options : Resize.ImageResizeOptions)
    (text : string) (source : option string) (w0 h0 : Q)
    (format : string) (w h : Q) :
  let data := imagemin_webp (sharp_composite rawData text)
                (Resize.resize_option options)
                (Resize.or_else (Resize.quality options) 85) in
  idle s →
  text ≠ EmptyString →
  sharp_metadata rawData = (source, Some w0, Some h0) →
  ¬ (w0 == 0)%Q → ¬ (h0 == 0)%Q →
  sharp_metadata data = (Some format, Some w, Some h) →
  format ≠ EmptyString → ¬ (w == 0)%Q → ¬ (h == 0)%Q →
  let '(resizing, s1) := spawn (Resize.resizeImage rawData options (Some text)) s in
  let s2 := run 8 s1 in
  idle s2 ∧
  result_of resizing s2 = Some (Fulfilled (Resize.ResizedImage data format w h)).
Proof.
  intros data Hidle Htext Hsource Hw0 Hh0 Hmeta Hformat Hw Hh. open_state s Hidle.
  unfold spawn, Resize.resizeImage, Resize.minify, Resize.debug_text.
  rewrite (nonempty_is_truthy _ Htext).
  frame_run. unfold complete_io. cbn. rewrite Hsource. frame_run.
  rewrite (nonzero_is_truthy _ Hw0), (nonzero_is_truthy _ Hh0). frame_run.
  unfold complete_io. frame_run. unfold complete_io. frame_run.
  unfold complete_io. cbn. fold data. rewrite Hmeta. frame_run.
  rewrite (nonempty_is_truthy _ Hformat), (nonzero_is_truthy _ Hw),
    (nonzero_is_truthy _ Hh).
  frame_run. unfold Resize.ResizedImage.
  destruct (sharp_fileSuffix format); done.
Qed.

End Platform.

Lemma resizeImage_returns_the_rendered_image_witness :
  let '(resizing, s1) :=
    spawn (Resize.resizeImage "JPEG" Samples.narrow None) (initial empty_heap) in
  let s2 := run 4 s1 in
  idle s2 ∧
  result_of resizing s2
  = Some (Fulfilled
      (Resize.ResizedImage
         (imagemin_webp "JPEG" (Resize.resize_option Samples.narrow)
            (Resize.or_else (Resize.quality Samples.narrow) 85))
         "webp" 300 200)) ∧
  state s2 = state (initial empty_heap) ∧
  trace s2 = trace (initial empty_heap)
             ++ [CodecCalled (default 0%Q (Resize.width Samples.narrow))].
Proof.
  apply (resizeImage_returns_the_rendered_image (initial empty_heap) "JPEG"
           Samples.narrow None "webp" 300 200).
  - split; reflexivity.
  - reflexivity.
  - reflexivity.
  - discriminate.
  - discriminate.
  - discriminate.
Defined.

Lemma resizeImage_rejects_unreadable_output_witness :
  let '(resizing, s1) :=
    spawn (Resize.resizeImage "JPEG" Samples.plain None) (initial empty_heap) in
  let s2 := run 4 s1 in
  idle s2 ∧
  result_of resizing s2
  = Some (Rejected (VError
      "Cannot parse resulting file - unknown output file extension")) ∧
  state s2 = state (initial empty_heap).
Proof.
  apply (resizeImage_rejects_unreadable_output (initial empty_heap) "JPEG"
           Samples.plain None None None None).
  - split; reflexivity.
  - reflexivity.
  - reflexivity.
  - discriminate.
  - reflexivity.
Defined.

Lemma resizeImage_debug_needs_the_source_size_witness :
  let '(resizing, s1) :=
    spawn (Resize.resizeImage "JPEG" Samples.narrow (Some "300@1"))
      (initial empty_heap) in
  let s2 := run 2 s1 in
  idle s2 ∧
  result_of resizing s2
  = Some (Rejected (VError "Expected width and height in image metadata.")) ∧
  state s2 = state (initial empty_heap) ∧ trace s2 = trace (initial empty_heap).
Proof.
  apply (resizeImage_debug_needs_the_source_size (initial empty_heap) "JPEG"
           Samples.narrow "300@1" None None None).
  - split; reflexivity.
  - discriminate.
  - reflexivity.
  - reflexivity.
Defined.
End ResizeFacts.

(** ** The request: its failures, and one transform *)

Module RequestFacts.
Import Js Loop Store Sizes Orchestrator Observe Demo LoopFacts StoreFacts
  OrchestratorFacts.

Section Platform.
Context `{Crypto} `{Path} `{Codec} `{Json}.

Lemma find_fallback_none (breakpoints : list ImageBreakpoint) :
  (∀ bp, In bp breakpoints → maxWidth bp ≠ None) →
  find (fun b => negb (present (maxWidth b))) breakpoints = None.
Proof.
  induction breakpoints as [|bp rest IH]; intros Hall; [done|].
  cbn [find]. destruct (maxWidth bp) eqn:E.
  - cbn. apply IH. intros b Hb. apply Hall. by right.
  - destruct (Hall bp); [by left|done].
Qed.


(** X26.  A request without a fallback breakpoint (one whose [maxWidth] is
    [null]) is rejected before anything is rendered: the cache store is not
    asked, the codec is not called, and no file is written. *)
Theorem processImageRequest_needs_a_fallback_breakpoint
    (s : sched) (request : ImageResizeRequest) :
  idle s →
  (∀ path, inputImage request = ImagePath path →
     path ≠ EmptyString ∧ is_Some (files (state s) !! path)) →
  (∀ bp, In bp (breakpoints request) → maxWidth bp ≠ None) →
  let '(processing, s1) := spawn (processImageRequest request) s in
  let s2 := run 2 s1 in
  idle s2 ∧
  result_of processing s2
  = Some (Rejected (VError "Fallback breakpoint (with maxWidth: null) is required")) ∧
  trace s2 = trace s ∧
  files (state s2) = files (state s) ∧
  runtime_data (state s2) = runtime_data (state s) ∧
  storage_data (state s2) = storage_data (state s) ∧
  maps (state s2) = maps (state s).
Proof.
  intros Hidle Hinput Hall. open_state s Hidle.
  unfold spawn, processImageRequest.
  rewrite (find_fallback_none _ Hall).
  destruct (inputImage request) as [data|path] eqn:Hi.
  - frame_run. done.
  - destruct (Hinput path eq_refl) as [Hpath [content Hfile]]. cbn in Hfile.
    destruct (String.eqb_spec path EmptyString) as [?|_]; [done|].
    frame_run. unfold complete_io, readFile. cbn. rewrite Hfile. frame_run. done.
Qed.

(** X27.  A request whose input image is a path is rejected when the path
    is empty ("Invalid input image") or names no file (the error of
    [readFile]), before anything else is done. *)
Theorem processImageRequest_needs_its_input
    (s : sched) (request : ImageResizeRequest) (path : string) :
  idle s →
  inputImage request = ImagePath path →
  files (state s) !! path = None →
  let '(processing, s1) := spawn (processImageRequest request) s in
  let s2 := run 2 s1 in
  idle s2 ∧
  result_of processing s2
  = Some (Rejected (VError
      (if String.eqb path EmptyString then "Invalid input image"
       else "ENOENT: no such file or directory"))) ∧
  state s2 = state s ∧ trace s2 = trace s.
Proof.
  intros Hidle Hinput Hfile. open_state s Hidle. cbn in Hfile.
  unfold spawn, processImageRequest. rewrite Hinput.
  destruct (String.eqb path EmptyString); frame_run; [done|].
  unfold complete_io, readFile. cbn. rewrite Hfile. frame_run. done.
Qed.


(** X28.  [transformSingleImage] over a runtime store that holds a text
    under the cache key: the result is the parsed text with [isCached] true;
    the codec is not called and no file is written. *)
Theorem transformSingleImage_reads_the_cache
    (s : sched) (inputImage : string) (request : ImageResizeRequest)
    (maxWidth : Z) (debugText : option string) (p : nat) (text : string)
    (data : value) :
  idle s →
  processedImageCacheStore request = Runtime.store →
  runtime_data (state s)
    !! cacheKey (sha256_hex (hashed_input (Orchestrator.inputImage request)))
         maxWidth debugText = Some p →
  promises s !! p = Some (Settled (Fulfilled (VStr text))) →
  text ≠ EmptyString →
  JSON_parse text = Some data →
  let '(transforming, s1) :=
    spawn (transformSingleImage inputImage request maxWidth debugText) s in
  let s2 := run 2 s1 in
  idle s2 ∧
  result_of transforming s2
  = Some (Fulfilled (VObj [("isCached", VBool true); ("data", data)])) ∧
  trace s2 = trace s ∧
  files (state s2) = files (state s) ∧
  runtime_data (state s2) = runtime_data (state s).
Proof.
  intros Hidle Hstore Hkey Hp Htext Hparse. open_state s Hidle.
  cbn in Hkey, Hp.
  unfold spawn, transformSingleImage. rewrite Hstore.
  cbn [getOrCreate Runtime.store]. unfold Runtime.getOrCreate.
  frame_run. unfold data_get. cbn. rewrite Hkey. frame_run.
  destruct (String.eqb_spec text EmptyString) as [?|_]; [done|].
  frame_run. rewrite list_lookup_middle by done. rewrite Hparse. frame_run. done.
Qed.


(** X29.  [transformSingleImage] over a runtime store that holds [null] or
    the empty string under the cache key is rejected with "Could not process
    image"; the factory is not called. *)
Theorem transformSingleImage_rejects_a_falsy_entry
    (s : sched) (inputImage : string) (request : ImageResizeRequest)
    (maxWidth : Z) (debugText : option string) (p : nat) (entry : value) :
  idle s →
  processedImageCacheStore request = Runtime.store →
  runtime_data (state s)
    !! cacheKey (sha256_hex (hashed_input (Orchestrator.inputImage request)))
         maxWidth debugText = Some p →
  promises s !! p = Some (Settled (Fulfilled entry)) →
  is_undefined entry = false → truthy entry = false →
  let '(transforming, s1) :=
    spawn (transformSingleImage inputImage request maxWidth debugText) s in
  let s2 := run 2 s1 in
  idle s2 ∧
  result_of transforming s2 = Some (Rejected (VError "Could not process image")) ∧
  trace s2 = trace s ∧
  files (state s2) = files (state s) ∧
  runtime_data (state s2) = runtime_data (state s).
Proof.
  intros Hidle Hstore Hkey Hp Hdefined Hfalsy. open_state s Hidle.
  cbn in Hkey, Hp.
  unfold spawn, transformSingleImage. rewrite Hstore.
  cbn [getOrCreate Runtime.store]. unfold Runtime.getOrCreate.
  frame_run. unfold data_get. cbn. rewrite Hkey. frame_run. rewrite Hdefined. frame_run.
  rewrite Hfalsy. frame_run. done.
Qed.



(** X30.  [transformSingleImage] over a runtime store that has nothing
    under the cache key, with the default storage writer: the image is
    rendered at [maxWidth] and the rendered bytes are written to
    [join(outputDirectory, outputName)]; then the store fails, and the call is
    rejected with the TypeError of [promise.resolve].  Nothing is cached: the
    store is as it was, and a second call renders and writes the image again
    and fails the same way. *)
Theorem transformSingleImage_renders_and_fails
    (s : sched) (inputImage : string) (request : ImageResizeRequest)
    (maxWidth : Z) (format : string) (w h : Q) :
  let rawHash := sha256_hex (hashed_input (Orchestrator.inputImage request)) in
  let key := cacheKey rawHash maxWidth None in
  let data :=
    imagemin_webp inputImage
      (if Qeq_bool (inject_Z maxWidth) 0 then None else Some (inject_Z maxWidth, 0%Q))
      85 in
  let resizedImage :=
    VObj [("ext", VStr (default ("." +:+ format) (sharp_fileSuffix format)));
          ("width", VNum w); ("height", VNum h);
          ("data", VStr data); ("hash", VStr (sha256_hex data))] in
  let outputName :=
    match customOutputNameGenerator request with
    | Some generator => generator rawHash resizedImage
    | None => defaultOutputName rawHash resizedImage
    end in
  let outputPath := join (outputDirectory request) outputName in
  let rendering :=
    [FactoryCalled key; CodecCalled (inject_Z maxWidth); FileWritten outputPath] in
  idle s →
  processedImageCacheStore request = Runtime.store →
  customStorageWriter request = None →
  vacant s key →
  sharp_metadata data = (Some format, Some w, Some h) →
  format ≠ EmptyString → ¬ (w == 0)%Q → ¬ (h == 0)%Q →
  let '(first, s1) :=
    spawn (transformSingleImage inputImage request maxWidth None) s in
  let s2 := run 12 s1 in
  let '(second, s3) :=
    spawn (transformSingleImage inputImage request maxWidth None) s2 in
  let s4 := run 12 s3 in
  idle s2 ∧ idle s4 ∧
  result_of first s2 = Some (Rejected TypeError_resolve) ∧
  result_of second s4 = Some (Rejected TypeError_resolve) ∧
  files (state s2) = <[outputPath := data]> (files (state s)) ∧
  files (state s4) = <[outputPath := data]> (files (state s)) ∧
  runtime_data (state s4) = runtime_data (state s) ∧
  vacant s4 key ∧
  trace s4 = trace s ++ rendering ++ rendering.
Proof.
  intros rawHash key data resizedImage outputName outputPath rendering
    Hidle Hstore Hwriter Hkey Hmeta Hformat Hw Hh.
  pose proof (transformSingleImage_miss s inputImage request maxWidth format w h
                Hidle Hstore Hwriter Hkey Hmeta Hformat Hw Hh) as Hrun1.
  destruct (spawn (transformSingleImage inputImage request maxWidth None) s)
    as [first s1].
  destruct Hrun1 as (Hidle2 & Hfirst & Hfiles2 & Hdata2 & Hproto2 & Htrace2).
  cbv zeta.
  assert (Hkey2 : vacant (run 12 s1) key).
  { unfold vacant, data_get in *. rewrite Hdata2, Hproto2. exact Hkey. }
  pose proof (transformSingleImage_miss _ inputImage request maxWidth format w h
                Hidle2 Hstore Hwriter Hkey2 Hmeta Hformat Hw Hh) as Hrun2.
  destruct (spawn (transformSingleImage inputImage request maxWidth None) (run 12 s1))
    as [second s3].
  destruct Hrun2 as (Hidle4 & Hsecond & Hfiles4 & Hdata4 & Hproto4 & Htrace4).
  split; [done|]. split; [done|]. split; [done|]. split; [done|].
  split; [exact Hfiles2|].
  split; [by rewrite Hfiles4, Hfiles2, insert_insert_eq|].
  split; [by rewrite Hdata4, Hdata2|].
  split.
  - unfold vacant, data_get in *. rewrite Hdata4, Hproto4. exact Hkey2.
  - rewrite Htrace4, Htrace2. by rewrite <- app_assoc.
Qed.
End Platform.

Lemma processImageRequest_needs_a_fallback_breakpoint_witness :
  let '(processing, s1) :=
    spawn (processImageRequest Samples.no_fallback) (initial empty_heap) in
  let s2 := run 2 s1 in
  idle s2 ∧
  result_of processing s2
  = Some (Rejected (VError "Fallback breakpoint (with maxWidth: null) is required")) ∧
  trace s2 = trace (initial empty_heap) ∧
  files (state s2) = files (state (initial empty_heap)) ∧
  runtime_data (state s2) = runtime_data (state (initial empty_heap)) ∧
  storage_data (state s2) = storage_data (state (initial empty_heap)) ∧
  maps (state s2) = maps (state (initial empty_heap)).
Proof.
  apply (processImageRequest_needs_a_fallback_breakpoint (initial empty_heap)
           Samples.no_fallback).
  - split; reflexivity.
  - intros path Hpath. discriminate Hpath.
  - intros bp [<-|[]]. discriminate.
Defined.

Lemma processImageRequest_needs_its_input_witness :
  let '(processing, s1) :=
    spawn (processImageRequest (request Runtime.store (ImagePath "photo") true 1))
      (initial empty_heap) in
  let s2 := run 2 s1 in
  idle s2 ∧
  result_of processing s2
  = Some (Rejected (VError "ENOENT: no such file or directory")) ∧
  state s2 = state (initial empty_heap) ∧ trace s2 = trace (initial empty_heap).
Proof.
  apply (processImageRequest_needs_its_input (initial empty_heap)
           (request Runtime.store (ImagePath "photo") true 1) "photo").
  - split; reflexivity.
  - reflexivity.
  - reflexivity.
Defined.

Lemma transformSingleImage_reads_the_cache_witness :
  let '(transforming, s1) :=
    spawn (transformSingleImage "JPEG" Samples.in_memory 300 None)
      Samples.remembered in
  let s2 := run 2 s1 in
  idle s2 ∧
  result_of transforming s2
  = Some (Fulfilled (VObj [("isCached", VBool true);
                           ("data", asset 200 300 "/img/4a/50454700-30}.webp")])) ∧
  trace s2 = trace Samples.remembered ∧
  files (state s2) = files (state Samples.remembered) ∧
  runtime_data (state s2) = runtime_data (state Samples.remembered).
Proof.
  apply (transformSingleImage_reads_the_cache Samples.remembered "JPEG"
           Samples.in_memory 300 None 1
           (stringify (asset 200 300 "/img/4a/50454700-30}.webp"))).
  - vm_compute. split; reflexivity.
  - reflexivity.
  - vm_compute. reflexivity.
  - vm_compute. reflexivity.
  - vm_compute. discriminate.
  - vm_compute. reflexivity.
Defined.

Lemma transformSingleImage_rejects_a_falsy_entry_witness :
  let '(transforming, s1) :=
    spawn (transformSingleImage "JPEG" Samples.in_memory 300 None) Samples.nulled in
  let s2 := run 2 s1 in
  idle s2 ∧
  result_of transforming s2 = Some (Rejected (VError "Could not process image")) ∧
  trace s2 = trace Samples.nulled ∧
  files (state s2) = files (state Samples.nulled) ∧
  runtime_data (state s2) = runtime_data (state Samples.nulled).
Proof.
  apply (transformSingleImage_rejects_a_falsy_entry Samples.nulled "JPEG"
           Samples.in_memory 300 None 1 VNull).
  - vm_compute. split; reflexivity.
  - reflexivity.
  - vm_compute. reflexivity.
  - vm_compute. reflexivity.
  - reflexivity.
  - reflexivity.
Defined.

Lemma transformSingleImage_renders_and_fails_witness :
  let request := Samples.in_memory in
  let rawHash := sha256_hex (hashed_input (Orchestrator.inputImage request)) in
  let key := cacheKey rawHash 300 None in
  let data :=
    imagemin_webp "JPEG"
      (if Qeq_bool (inject_Z 300) 0 then None else Some (inject_Z 300, 0%Q)) 85 in
  let resizedImage :=
    VObj [("ext", VStr (default ("." +:+ "webp") (sharp_fileSuffix "webp")));
          ("width", VNum 300); ("height", VNum 200);
          ("data", VStr data); ("hash", VStr (sha256_hex data))] in
  let outputName := defaultOutputName rawHash resizedImage in
  let outputPath := join (outputDirectory request) outputName in
  let rendering :=
    [FactoryCalled key; CodecCalled (inject_Z 300); FileWritten outputPath] in
  let '(first, s1) :=
    spawn (transformSingleImage "JPEG" request 300 None) (initial empty_heap) in
  let s2 := run 12 s1 in
  let '(second, s3) := spawn (transformSingleImage "JPEG" request 300 None) s2 in
  let s4 := run 12 s3 in
  idle s2 ∧ idle s4 ∧
  result_of first s2 = Some (Rejected TypeError_resolve) ∧
  result_of second s4 = Some (Rejected TypeError_resolve) ∧
  files (state s2) = <[outputPath := data]> (files (state (initial empty_heap))) ∧
  files (state s4) = <[outputPath := data]> (files (state (initial empty_heap))) ∧
  runtime_data (state s4) = runtime_data (state (initial empty_heap)) ∧
  vacant s4 key ∧
  trace s4 = trace (initial empty_heap) ++ rendering ++ rendering.
Proof.
  apply (transformSingleImage_renders_and_fails (initial empty_heap) "JPEG"
           Samples.in_memory 300 "webp" 300 200).
  - split; reflexivity.
  - reflexivity.
  - reflexivity.
  - reflexivity.
  - reflexivity.
  - discriminate.
  - discriminate.
  - discriminate.
Defined.
End RequestFacts.
